(** * inbox-zero: the fetch / checkpoint / archive pipeline and the
      refinement engine of [email_triage.py], embedded and verified.

    The development follows the source file top to bottom:
    - [PyStr]      the string operations of Python the code relies on,
                   over 8-bit characters;
    - [Checkpoint] [save_checkpoint] and [load_checkpoint] over a file
                   system given by its system calls;
    - [Fetch]      [fetch_metadata] and [fetch_bodies_batch], with their
                   checkpoints and their resumption;
    - [Imap]       programs that talk to an IMAP session, and their runs
                   against a server;
    - [Mailbox]    a small server to run against;
    - [Archive]    [archive_messages], its scan and its safety check;
    - [Refine]     [phase2_analyse]: time decay, burst dedup, id sets;
    - [Phase2]     [phase2_archive], dry runs, and the identifiers that are
                   stored and sent. *)

From Stdlib Require Import ZArith Lia Ascii String QArith.
From stdpp Require Import gmap strings list sorting pretty.

Open Scope Z_scope.

(** ** Python string operations

    Strings are sequences of 8-bit characters.  White space is what
    [str.isspace], [str.split], [str.strip] and the pattern [\s] agree on
    below code point 128: tab, line feed, vertical tab, form feed, carriage
    return, the four separators 28 to 31, and the blank. *)
Module PyStr.

Definition isspace (c : ascii) : bool :=
  match c with
  | "009" | "010" | "011" | "012" | "013"
  | "028" | "029" | "030" | "031" | " " => true
  | _ => false
  end%char.

Definition lower_char (c : ascii) : ascii :=
  let n := N_of_ascii c in
  if ((65 <=? n) && (n <=? 90))%N then ascii_of_N (n + 32) else c.

(** [s.lower()] *)
Fixpoint lower (s : string) : string :=
  match s with
  | EmptyString => EmptyString
  | String c r => String (lower_char c) (lower r)
  end.

(** [needle in hay] *)
Fixpoint contains (needle hay : string) : bool :=
  match hay with
  | EmptyString => String.prefix needle EmptyString
  | String _ r => String.prefix needle hay || contains needle r
  end.

(** [any(k in text for k in keys)] *)
Definition any_in (keys : list string) (text : string) : bool :=
  existsb (fun k => contains k text) keys.

Definition flush (cur : option string) : list string :=
  match cur with
  | Some w => [String.rev w]
  | None => []
  end.

(** [s.split()]: the maximal runs of characters that are not white space.
    [cur] is the word being read, backwards. *)
Fixpoint split_from (cur : option string) (s : string) : list string :=
  match s with
  | EmptyString => flush cur
  | String c r =>
      if isspace c then flush cur ++ split_from None r
      else split_from (Some (String c (default EmptyString cur))) r
  end.

Definition split (s : string) : list string := split_from None s.

Fixpoint lstrip_where (drop : ascii → bool) (s : string) : string :=
  match s with
  | EmptyString => EmptyString
  | String c r => if drop c then lstrip_where drop r else s
  end.

Definition strip_where (drop : ascii → bool) (s : string) : string :=
  String.rev (lstrip_where drop (String.rev (lstrip_where drop s))).

Definition lstrip : string → string := lstrip_where isspace.

(** [s.strip()] *)
Definition strip : string → string := strip_where isspace.

(** [s.strip(q)] for one character [q] *)
Definition strip_char (q : ascii) : string → string :=
  strip_where (λ c, bool_decide (c = q)).

(** [s.split(sep)[0]] for a separator of one character: what precedes its
    first occurrence. *)
Fixpoint before (sep : ascii) (s : string) : string :=
  match s with
  | EmptyString => EmptyString
  | String c r => if decide (c = sep) then EmptyString
                  else String c (before sep r)
  end.

(** The same for a separator of several characters: what precedes, and what
    follows, its first occurrence. *)
Fixpoint drop_chars (n : nat) (s : string) : string :=
  match n, s with
  | S n, String _ r => drop_chars n r
  | _, _ => s
  end.

Fixpoint before_str (sep s : string) : string :=
  match s with
  | EmptyString => EmptyString
  | String c r => if String.prefix sep s then EmptyString
                  else String c (before_str sep r)
  end.

Fixpoint after_str (sep s : string) : string :=
  match s with
  | EmptyString => EmptyString
  | String c r => if String.prefix sep s then drop_chars (String.length sep) s
                  else after_str sep r
  end.

(** [s.rstrip()] and [s.endswith(suffix)] *)
Definition rstrip (s : string) : string :=
  String.rev (lstrip_where isspace (String.rev s)).

Definition endswith (suffix s : string) : bool :=
  String.prefix (String.rev suffix) (String.rev s).

(** What follows the first occurrence of [sep]; [s.split(sep)[1]] is what
    precedes the next occurrence in it. *)
Fixpoint after (sep : ascii) (s : string) : string :=
  match s with
  | EmptyString => EmptyString
  | String c r => if decide (c = sep) then r else after sep r
  end.

(** [sep.join(parts)] *)
Definition join (sep : string) (parts : list string) : string :=
  String.concat sep parts.

(** [re.sub(r'\s+', ' ', s)]; [in_run] tells that the previous character was
    white space and has been replaced already. *)
Fixpoint collapse_from (in_run : bool) (s : string) : string :=
  match s with
  | EmptyString => EmptyString
  | String c r =>
      if isspace c
      then (if in_run then collapse_from true r
            else String " "%char (collapse_from true r))
      else String c (collapse_from false r)
  end.

Definition collapse_spaces (s : string) : string := collapse_from false s.

(** One alternative of [^(Re|Fwd|FW|Fw)\s*:\s*] under [re.IGNORECASE]: the
    tag, compared without case, then white space, a colon, white space.
    Gives what follows the match. *)
Fixpoint match_tag (tag s : string) : option string :=
  match tag, s with
  | EmptyString, _ => Some s
  | String t tag', String c s' =>
      if decide (lower_char t = lower_char c) then match_tag tag' s' else None
  | String _ _, EmptyString => None
  end.

Definition match_colon (s : string) : option string :=
  match lstrip s with
  | String ":"%char r => Some (lstrip r)
  | _ => None
  end.

Definition match_reply_tag (tag s : string) : option string :=
  match_tag tag s ≫= match_colon.

(** [re.sub(r'^(Re|Fwd|FW|Fw)\s*:\s*', '', s, flags=re.IGNORECASE)]: the
    alternatives are tried in the order of the pattern, and the pattern is
    anchored, so at most one prefix goes. *)
Definition strip_reply_prefix (s : string) : string :=
  default s
    (match_reply_tag "Re" s ∪ match_reply_tag "Fwd" s ∪
     match_reply_tag "FW" s ∪ match_reply_tag "Fw" s).

End PyStr.


(** ** Checkpoints: [save_checkpoint] and [load_checkpoint]

    The file system holds the content of every file that exists.  A save is
    the sequence of its system calls, so that a crash is a prefix of that
    sequence.  [json.dump] writes its output piece by piece; the pieces, and
    [json.load], are parameters. *)
Module Checkpoint.

(** A path, split the way [pathlib] does. *)
Record path := Path {
  parent : string;
  stem : string;
  suffix : string;
}.

Global Instance path_eq_dec : EqDecision path.
Proof. solve_decision. Defined.

Global Program Instance path_countable : Countable path :=
  inj_countable' (λ p, (parent p, stem p, suffix p))
    (λ t, Path t.1.1 t.1.2 t.2) _.
Next Obligation. by intros []. Qed.

(** [path.with_suffix(sfx)] *)
Definition with_suffix (p : path) (sfx : string) : path :=
  Path (parent p) (stem p) sfx.

Inductive fs_op :=
  | Create (p : path)                  (* open(p, "w"): create or truncate *)
  | Write (p : path) (piece : string)  (* a write that reached the file *)
  | Rename (src dst : path).           (* os.rename: atomic replacement *)

Definition step (fs : gmap path string) (op : fs_op) : gmap path string :=
  match op with
  | Create p => <[p := ""]> fs
  | Write p piece => alter (λ content, content +:+ piece) p fs
  | Rename src dst =>
      match fs !! src with
      | Some content => <[dst := content]> (delete src fs)
      | None => fs
      end
  end.

Definition run (ops : list fs_op) (fs : gmap path string) : gmap path string :=
  foldl step fs ops.

Definition joined (pieces : list string) : string :=
  foldr String.append "" pieces.

Section Save.

Context {data : Type}.

(** [data["timestamp"] = datetime.now(timezone.utc).isoformat()] *)
Variable set_timestamp : string → data → data.
(** What [json.dump(data, f, default=str)] writes, in order. *)
Variable json_dump : data → list string.
(** [json.load]; [None] stands for [JSONDecodeError]. *)
Variable json_load : string → option data.

Definition save_checkpoint_ops (now : string) (p : path) (d : data)
    : list fs_op :=
  let d := set_timestamp now d in
  let tmp := with_suffix p ".tmp" in
  Create tmp :: (Write tmp <$> json_dump d) ++ [Rename tmp p].

Definition save_checkpoint (now : string) (p : path) (d : data)
    (fs : gmap path string) : gmap path string :=
  run (save_checkpoint_ops now p d) fs.

(** [None] when the file is absent or does not decode. *)
Definition load_checkpoint (p : path) (fs : gmap path string) : option data :=
  match fs !! p with
  | None => None
  | Some content => json_load content
  end.

(** The text of a complete snapshot of [d] taken at [now]. *)
Definition snapshot (now : string) (d : data) : string :=
  joined (json_dump (set_timestamp now d)).

Lemma append_cons ch (a b : string) : String ch a +:+ b = String ch (a +:+ b).
Proof. reflexivity. Qed.

Lemma append_assoc (a b c : string) : (a +:+ b) +:+ c = a +:+ (b +:+ c).
Proof.
  induction a as [|ch a IH]; [reflexivity|]. by rewrite !append_cons, IH.
Qed.

Lemma append_empty_r (a : string) : a +:+ "" = a.
Proof.
  induction a as [|ch a IH]; [reflexivity|]. by rewrite append_cons, IH.
Qed.

Lemma run_app ops1 ops2 fs : run (ops1 ++ ops2) fs = run ops2 (run ops1 fs).
Proof. apply foldl_app. Qed.

(** Writing to the temporary file touches that file only. *)
Lemma run_writes tmp pieces fs content :
  fs !! tmp = Some content →
  run (Write tmp <$> pieces) fs !! tmp = Some (content +:+ joined pieces)
  ∧ ∀ q, q ≠ tmp → run (Write tmp <$> pieces) fs !! q = fs !! q.
Proof.
  revert fs content. induction pieces as [|piece pieces IH];
    intros fs content Hc; simpl.
  - by rewrite append_empty_r.
  - destruct (IH (alter (λ c, c +:+ piece) tmp fs) (content +:+ piece))
      as [Htmp Hother].
    { by rewrite lookup_alter_eq, Hc. }
    split.
    + rewrite <- append_assoc. exact Htmp.
    + intros q Hq. etrans; [exact (Hother q Hq)|by apply lookup_alter_ne].
Qed.

Lemma take_writes_prefix n tmp (pieces : list string) :
  take n (Write tmp <$> pieces) = Write tmp <$> take n pieces.
Proof. by rewrite fmap_take. Qed.

Section Calls.

Variables (now : string) (p : path) (d : data) (fs : gmap path string).
Hypothesis suffix_not_tmp : suffix p ≠ ".tmp".

Let tmp : path := with_suffix p ".tmp".
Let pieces : list string := json_dump (set_timestamp now d).

Lemma tmp_is_another_file : p ≠ tmp.
Proof. intros Heq. apply suffix_not_tmp. by rewrite Heq. Qed.

(** After the creation of the temporary file and some of the writes, the
    checkpoint is untouched and the temporary file holds what was written. *)
Lemma run_create_writes k :
  run (Create tmp :: (Write tmp <$> take k pieces)) fs !! p = fs !! p
  ∧ run (Create tmp :: (Write tmp <$> take k pieces)) fs !! tmp
    = Some (joined (take k pieces)).
Proof.
  unfold run; simpl.
  destruct (run_writes tmp (take k pieces) (<[tmp := ""]> fs) "")
    as [Htmp Hother]; [by rewrite lookup_insert_eq|].
  unfold run in Htmp, Hother. split.
  - rewrite Hother by apply tmp_is_another_file.
    apply lookup_insert_ne. intros Heq. by apply tmp_is_another_file.
  - by rewrite Htmp.
Qed.

(** A save that runs to its end leaves the complete snapshot. *)
Lemma save_checkpoint_complete :
  save_checkpoint now p d fs !! p = Some (snapshot now d).
Proof.
  unfold save_checkpoint, save_checkpoint_ops. fold tmp pieces.
  change (Create tmp :: (Write tmp <$> pieces) ++ [Rename tmp p])
    with ((Create tmp :: (Write tmp <$> pieces)) ++ [Rename tmp p]).
  rewrite run_app. destruct (run_create_writes (length pieces)) as [_ Htmp].
  rewrite firstn_all in Htmp. unfold run at 1. cbn [foldl step].
  rewrite Htmp. by rewrite lookup_insert_eq.
Qed.

(** Another file than the checkpoint and its temporary file is untouched. *)
Lemma save_checkpoint_other q :
  q ≠ p → q ≠ tmp → save_checkpoint now p d fs !! q = fs !! q.
Proof.
  intros Hp Htmp. unfold save_checkpoint, save_checkpoint_ops.
  fold tmp pieces.
  change (Create tmp :: (Write tmp <$> pieces) ++ [Rename tmp p])
    with ((Create tmp :: (Write tmp <$> pieces)) ++ [Rename tmp p]).
  rewrite run_app. destruct (run_create_writes (length pieces)) as [_ Hfile].
  rewrite firstn_all in Hfile. unfold run at 1. cbn [foldl step].
  rewrite Hfile, lookup_insert_ne, lookup_delete_ne by done.
  unfold run; simpl.
  destruct (run_writes tmp pieces (<[tmp := ""]> fs) "")
    as [_ Hother]; [by rewrite lookup_insert_eq|].
  unfold run in Hother. by rewrite Hother, lookup_insert_ne.
Qed.

Lemma save_checkpoint_prefix n :
  let during := run (take n (save_checkpoint_ops now p d)) fs in
  during !! p = fs !! p ∨ during !! p = Some (snapshot now d).
Proof.
  unfold save_checkpoint_ops. fold tmp pieces.
  destruct n as [|n]; [by left|]. rewrite firstn_cons.
  destruct (decide (n ≤ length pieces)%nat) as [Hle|Hgt].
  - left. rewrite take_app_le by by rewrite length_fmap.
    rewrite take_writes_prefix.
    by destruct (run_create_writes n) as [Hp _].
  - right. rewrite take_ge by (rewrite length_app, length_fmap; simpl; lia).
    exact save_checkpoint_complete.
Qed.

End Calls.

(** C3: during a save, and so after a crash at any point of it, the
    checkpoint file holds what it held before the save (nothing, if it was
    absent) or the complete new snapshot, and a reader loads accordingly; a
    save that runs to its end leaves the new snapshot.  The temporary file
    is another file than the checkpoint, which is the case for every path
    whose suffix is not [.tmp]. *)
Theorem checkpoint_never_partial (now : string) (p : path) (d : data)
    (fs : gmap path string) (n : nat) :
  suffix p ≠ ".tmp" →
  let during := run (take n (save_checkpoint_ops now p d)) fs in
  (during !! p = fs !! p ∨ during !! p = Some (snapshot now d))
  ∧ (load_checkpoint p during = load_checkpoint p fs
     ∨ load_checkpoint p during = json_load (snapshot now d))
  ∧ save_checkpoint now p d fs !! p = Some (snapshot now d).
Proof.
  intros Hsfx during.
  pose proof (save_checkpoint_prefix now p d fs Hsfx n) as Hcontent.
  split_and!; [done| |by apply save_checkpoint_complete].
  unfold load_checkpoint. fold during in Hcontent.
  destruct Hcontent as [-> | ->]; [by left|by right].
Qed.

End Save.

(** The two checkpoint files of the pipeline. *)
Definition checkpoint_metadata (output_dir : string) : path :=
  Path output_dir "checkpoint_metadata" ".json".

Definition checkpoint_bodies (output_dir : string) : path :=
  Path output_dir "checkpoint_bodies" ".json".

(** A save over an older snapshot, cut after the second of its five system
    calls; the data is a string, written in three pieces. *)
Lemma checkpoint_never_partial_witness :
  let p := checkpoint_metadata "triage_output/work" in
  let stamp (now d : string) := d +:+ "@" +:+ now in
  let dump (d : string) := ["{"; d; "}"] in
  let fs : gmap path string := {[ p := "{old@t0}" ]} in
  let during := run (take 2 (save_checkpoint_ops stamp dump "t1" p "new")) fs in
  suffix p ≠ ".tmp"
  ∧ (during !! p = fs !! p ∨ during !! p = Some (snapshot stamp dump "t1" "new"))
  ∧ (load_checkpoint Some p during = load_checkpoint Some p fs
     ∨ load_checkpoint Some p during = Some (snapshot stamp dump "t1" "new"))
  ∧ save_checkpoint stamp dump "t1" p "new" fs !! p
    = Some (snapshot stamp dump "t1" "new").
Proof.
  cbv zeta. split; [discriminate|].
  apply (checkpoint_never_partial (λ now d, d +:+ "@" +:+ now)
           (λ d, ["{"; d; "}"]) Some "t1"
           (checkpoint_metadata "triage_output/work") "new"
           {[ checkpoint_metadata "triage_output/work" := "{old@t0}" ]} 2).
  discriminate.
Defined.

End Checkpoint.


(** ** Pass 1 and pass 2 fetches: [fetch_metadata], [fetch_bodies_batch]

    The mailbox does not change while a fetch runs or between a run and its
    resumption, so the server is a function from a request to its reply.
    The parsing of a header block ([email.message_from_bytes] and
    [decode_header]) and of a date ([parsedate_to_datetime]) is library code:
    a reply carries the decoded headers, and the date parser is a
    parameter. *)
Module Fetch.
Import PyStr Checkpoint.

(** The headers asked for, decoded; [None] for an absent one. *)
Record headers := Headers {
  h_from : option string;
  h_subject : option string;
  h_date : option string;
}.

(** An element of the data of a FETCH reply as [imaplib] hands it over: a
    pair of the line that opens the message (its first word is the sequence
    number the server answers for) and the literal, or a lone line such as
    the closing parenthesis. *)
Inductive item (payload : Type) :=
  | Line (text : string)
  | Tuple (seq_info : string) (literal : payload).
Arguments Line {payload} text.
Arguments Tuple {payload} seq_info literal.

(** An entry of [messages], of a metadata checkpoint and of
    [all_messages.json]. *)
Record record := Record {
  msg_id : string;
  from_email : string;
  from_name : string;
  subject : string;
  date : string;
  is_unread : bool;
}.

(** The dictionary given to [save_checkpoint], with the keys the code uses. *)
Record checkpoint := Cp {
  cp_messages : option (list record);
  cp_bodies : option (gmap string string);
  cp_timestamp : option string;
}.

Definition set_timestamp (now : string) (cp : checkpoint) : checkpoint :=
  Cp (cp_messages cp) (cp_bodies cp) (Some now).

Definition double_quote : ascii := "034".

Definition get_sender_email (from_header : string) : string :=
  if contains "<" from_header && contains ">" from_header
  then lower (before ">" (before "<" (after "<" from_header)))
  else strip (lower from_header).

Definition get_sender_name (from_header : string) : string :=
  if contains "<" from_header then
    let name := strip_char "'" (strip_char double_quote
                                  (strip (before "<" from_header))) in
    if decide (name = "") then get_sender_email from_header else name
  else strip from_header.

(** [for i in range(0, len(ids), size): batch = ids[i:i + size]]; the fuel
    bounds the number of turns by the number of ids. *)
Fixpoint slices {A} (fuel size : nat) (ids : list A) : list (list A) :=
  match fuel, ids with
  | S fuel, _ :: _ => take size ids :: slices fuel size (drop size ids)
  | _, _ => []
  end.

Definition batches {A} (size : nat) (ids : list A) : list (list A) :=
  slices (length ids) size ids.

(** What a fetch leaves: its result, the disk, and the batches it asked the
    server for, in order. *)
Record outcome (result : Type) := Outcome {
  returned : result;
  disk : gmap path string;
  requested : list (list string);
}.
Arguments Outcome {result} returned disk requested.
Arguments returned {result} o.
Arguments disk {result} o.
Arguments requested {result} o.

Section Metadata.

(** [parsedate_to_datetime(date_raw).isoformat()]; [None] when it raises. *)
Variable parsedate_iso : string → option string.
Variable json_dump : checkpoint → list string.
Variable json_load : string → option checkpoint.
(** The reply to [FETCH ids (FLAGS BODY.PEEK[HEADER.FIELDS (FROM SUBJECT
    DATE)])]. *)
Variable fetch : list string → list (item (option headers)).
(** The clock reading at the save that follows the turn of each number. *)
Variable clock : nat → string.

(** The body of [for item in batch_data]: [None] where the code
    [continue]s.  The literal is [None] when [message_from_bytes] raises. *)
Definition parse_item (it : item (option headers)) : option record :=
  match it with
  | Line _ => None
  | Tuple seq_info None => None
  | Tuple seq_info (Some msg) =>
      let seq_num := before " " seq_info in
      let from_raw := default "" (h_from msg) in
      let subject := default "(no subject)" (h_subject msg) in
      let date_raw := default "" (h_date msg) in
      let is_unread := negb (contains "\Seen" seq_info) in
      Some (Record seq_num (get_sender_email from_raw)
              (get_sender_name from_raw) subject
              (default date_raw (parsedate_iso date_raw)) is_unread)
  end.

Definition parse_items (batch_data : list (item (option headers)))
    : list record :=
  omap parse_item batch_data.

(** The messages of the checkpoint, when there is one with that key. *)
Definition resume_from (checkpoint_path : option path)
    (fs : gmap path string) : list record :=
  default []
    (p ← checkpoint_path; cp ← load_checkpoint json_load p fs;
     cp_messages cp).

Definition fetched_ids (messages : list record) : gset string :=
  list_to_set (msg_id <$> messages).

Definition remaining_ids (msg_ids : list string) (messages : list record)
    : list string :=
  filter (λ mid, mid ∉ fetched_ids messages) msg_ids.

(** One turn of the loop over the batches. *)
Definition metadata_turn (checkpoint_path : option path)
    (st : outcome (list record)) (batch : list string)
    : outcome (list record) :=
  let messages := returned st ++ parse_items (fetch batch) in
  Outcome messages
    (match checkpoint_path with
     | Some p =>
         save_checkpoint set_timestamp json_dump
           (clock (length (requested st))) p (Cp (Some messages) None None)
           (disk st)
     | None => disk st
     end)
    (requested st ++ [batch]).

(** The loop, stopped after [turns] turns when [turns] is given: the state
    in which an interruption after that batch leaves the disk. *)
Definition metadata_loop (turns : option nat) (checkpoint_path : option path)
    (msg_ids : list string) (fs : gmap path string) : outcome (list record) :=
  let messages := resume_from checkpoint_path fs in
  let todo := batches 500 (remaining_ids msg_ids messages) in
  foldl (metadata_turn checkpoint_path) (Outcome messages fs [])
    (match turns with Some k => take k todo | None => todo end).

(** [fetch_metadata(mail, checkpoint_path)], where [msg_ids] is the reply to
    [SEARCH ALL]. *)
Definition fetch_metadata (checkpoint_path : option path)
    (msg_ids : list string) (fs : gmap path string) : outcome (list record) :=
  match msg_ids with
  | [] => Outcome [] fs []
  | _ => metadata_loop None checkpoint_path msg_ids fs
  end.

Definition fetch_metadata_interrupted (turns : nat)
    (checkpoint_path : option path) (msg_ids : list string)
    (fs : gmap path string) : gmap path string :=
  match msg_ids with
  | [] => fs
  | _ => disk (metadata_loop (Some turns) checkpoint_path msg_ids fs)
  end.

(** *** Resumption of the metadata fetch *)

Lemma concat_slices {A} fuel size (ids : list A) :
  (0 < size)%nat → (length ids ≤ fuel)%nat →
  concat (slices fuel size ids) = ids.
Proof.
  intros Hsize. revert ids. induction fuel as [|fuel IH]; intros ids Hlen.
  - destruct ids; [done|simpl in Hlen; lia].
  - destruct ids as [|x ids]; [done|]. cbn [slices concat].
    rewrite IH; [by rewrite take_drop|].
    rewrite length_drop. simpl in *. lia.
Qed.

Lemma concat_batches {A} size (ids : list A) :
  (0 < size)%nat → concat (batches size ids) = ids.
Proof. intros. by apply concat_slices. Qed.

(** The records the server has for one id. *)
Definition records_of (mid : string) : list record :=
  parse_items (fetch [mid]).

Hypothesis json_round_trip :
  ∀ cp, json_load (joined (json_dump cp)) = Some cp.
(** The reply to a request is made of the replies for its ids, in order. *)
Hypothesis fetch_per_message :
  ∀ ids1 ids2, fetch (ids1 ++ ids2) = fetch ids1 ++ fetch ids2.
(** The server answers for the id it was asked for. *)
Hypothesis fetch_answers_request :
  ∀ mid r, r ∈ records_of mid → msg_id r = mid.

Lemma fetch_nil : fetch [] = [].
Proof.
  pose proof (fetch_per_message [] []) as H. simpl in H.
  apply (f_equal length) in H. rewrite length_app in H.
  apply length_zero_iff_nil. lia.
Qed.

Lemma parse_items_fetch batch :
  parse_items (fetch batch) = batch ≫= records_of.
Proof.
  induction batch as [|mid batch IH]; simpl.
  - by rewrite fetch_nil.
  - change (mid :: batch) with ([mid] ++ batch).
    rewrite fetch_per_message. unfold parse_items at 1.
    rewrite omap_app. fold (parse_items (fetch batch)). by rewrite IH.
Qed.

Lemma records_of_ids batch r :
  r ∈ batch ≫= records_of → msg_id r ∈ batch.
Proof.
  intros (mid & Hr & Hmid)%list_elem_of_bind.
  by rewrite (fetch_answers_request mid r Hr).
Qed.

Section Loop.

Variable p : path.
Hypothesis suffix_not_tmp : suffix p ≠ ".tmp".

Lemma load_after_save now messages fs :
  load_checkpoint json_load p
    (save_checkpoint set_timestamp json_dump now p
       (Cp (Some messages) None None) fs)
  = Some (Cp (Some messages) None (Some now)).
Proof.
  unfold load_checkpoint. rewrite save_checkpoint_complete by done.
  unfold snapshot. by rewrite json_round_trip.
Qed.

(** What the loop leaves after the batches [todo]. *)
Lemma metadata_turns todo st :
  let st' := foldl (metadata_turn (Some p)) st todo in
  returned st' = returned st ++ (concat todo ≫= records_of)
  ∧ requested st' = requested st ++ todo
  ∧ resume_from (Some p) (disk st')
    = match todo with
      | [] => resume_from (Some p) (disk st)
      | _ => returned st'
      end.
Proof.
  revert st. induction todo as [|batch todo IH]; intros st; simpl.
  - by rewrite !app_nil_r.
  - destruct (IH (metadata_turn (Some p) st batch)) as (Hret & Hreq & Hdisk).
    split_and!.
    + rewrite Hret. simpl. rewrite parse_items_fetch, bind_app.
      by rewrite app_assoc.
    + rewrite Hreq. simpl. by rewrite <- app_assoc.
    + rewrite Hdisk. destruct todo as [|b todo]; [|done]. simpl.
      unfold resume_from. simpl. by rewrite load_after_save.
Qed.

End Loop.

Lemma remaining_ids_nil msg_ids : remaining_ids msg_ids [] = msg_ids.
Proof.
  unfold remaining_ids, fetched_ids. simpl.
  induction msg_ids as [|mid msg_ids IH]; [done|].
  rewrite filter_cons_True by apply not_elem_of_empty. by rewrite IH.
Qed.

Lemma elem_of_fetched_ids messages mid :
  mid ∈ fetched_ids messages ↔ ∃ r, r ∈ messages ∧ msg_id r = mid.
Proof.
  unfold fetched_ids. rewrite elem_of_list_to_set, list_elem_of_fmap.
  split; intros (r & ? & ?); by exists r.
Qed.

(** The ids asked for again although their batch was done are those the
    server gave no record for. *)
Lemma refetched_give_nothing (ids : list string) (saved : list record) :
  (∀ mid r, mid ∈ ids → r ∈ records_of mid → r ∈ saved) →
  filter (λ mid, mid ∉ fetched_ids saved) ids ≫= records_of = [].
Proof.
  induction ids as [|mid ids IH]; intros Hsaved; [done|].
  rewrite filter_cons.
  assert (Hrest : filter (λ mid, mid ∉ fetched_ids saved) ids ≫= records_of
                  = []).
  { apply IH. intros m r Hm. apply Hsaved. by right. }
  destruct (decide (mid ∉ fetched_ids saved)) as [Hmid|_]; [|done].
  rewrite bind_cons, Hrest, app_nil_r.
  destruct (records_of mid) as [|r rs] eqn:Hrs; [done|].
  exfalso. apply Hmid. apply elem_of_fetched_ids. exists r.
  assert (Hr : r ∈ records_of mid) by (rewrite Hrs; by left).
  split; [|by apply fetch_answers_request].
  apply (Hsaved mid r); [by left|done].
Qed.

(** The ids of the batches that were not done are all asked for. *)
Lemma unfetched_are_asked (done todo : list string) :
  (∀ mid, mid ∈ done → mid ∉ todo) →
  filter (λ mid, mid ∉ fetched_ids (done ≫= records_of)) todo = todo.
Proof.
  intros Hdisjoint. induction todo as [|mid todo IH]; [done|].
  rewrite filter_cons_True.
  - rewrite IH; [done|]. intros m Hm Hin. apply (Hdisjoint m Hm). by right.
  - intros (r & Hr%records_of_ids & Heq)%elem_of_fetched_ids.
    apply (Hdisjoint (msg_id r) Hr). rewrite Heq. by left.
Qed.

Lemma remaining_after (done todo : list string) :
  NoDup (done ++ todo) →
  remaining_ids (done ++ todo) (done ≫= records_of) ≫= records_of
  = todo ≫= records_of.
Proof.
  intros (_ & Hdisjoint & _)%NoDup_app.
  unfold remaining_ids. rewrite filter_app, bind_app.
  rewrite refetched_give_nothing, unfetched_are_asked; [done|done|].
  intros mid r Hmid Hr. apply list_elem_of_bind. by exists mid.
Qed.

Section Resume.

Variable p : path.
Hypothesis suffix_not_tmp : suffix p ≠ ".tmp".

(** A run of [fetch_metadata] keeps what the checkpoint holds, asks for the
    ids that are in none of its records, and adds what the server gives. *)
Lemma fetch_metadata_resumes msg_ids fs :
  msg_ids ≠ [] →
  let saved := resume_from (Some p) fs in
  let run := fetch_metadata (Some p) msg_ids fs in
  returned run = saved ++ (remaining_ids msg_ids saved ≫= records_of)
  ∧ concat (requested run) = remaining_ids msg_ids saved.
Proof.
  intros Hne saved run. unfold run, fetch_metadata.
  destruct msg_ids as [|mid msg_ids]; [done|]. unfold metadata_loop.
  fold saved.
  destruct (metadata_turns p suffix_not_tmp
              (batches 500 (remaining_ids (mid :: msg_ids) saved))
              (Outcome saved fs [])) as (Hret & Hreq & _).
  rewrite Hret, Hreq. simpl returned. simpl requested.
  rewrite app_nil_l, concat_batches by lia. done.
Qed.

(** The checkpoint an interruption after [turns] batches leaves. *)
Lemma interrupted_checkpoint turns msg_ids fs :
  fs !! p = None →
  resume_from (Some p) (fetch_metadata_interrupted turns (Some p) msg_ids fs)
  = concat (take turns (batches 500 msg_ids)) ≫= records_of.
Proof.
  intros Habsent.
  assert (Hfresh : resume_from (Some p) fs = []).
  { unfold resume_from, load_checkpoint. simpl. by rewrite Habsent. }
  unfold fetch_metadata_interrupted.
  destruct msg_ids as [|mid msg_ids].
  { rewrite Hfresh. by destruct turns. }
  unfold metadata_loop. rewrite Hfresh, remaining_ids_nil.
  destruct (metadata_turns p suffix_not_tmp
              (take turns (batches 500 (mid :: msg_ids)))
              (Outcome [] fs [])) as (Hret & _ & Hdisk).
  rewrite Hdisk. simpl disk. rewrite Hfresh.
  destruct (take turns (batches 500 (mid :: msg_ids))); [done|].
  by rewrite Hret.
Qed.

End Resume.

End Metadata.

Section Bodies.

(** [extract_plain_text(raw, max_chars)], which never raises. *)
Variable extract_plain_text : string → string.
Variable json_dump : checkpoint → list string.
Variable json_load : string → option checkpoint.

(** How the fetch of a batch under its timeout of 120 seconds ends. *)
Inductive batch_reply :=
  | Data (batch_data : list (item string))
  | TimedOut                (* TimeoutError or OSError *)
  | Failed.                 (* any other exception *)

(** The reply to [FETCH ids (BODY.PEEK[TEXT])]. *)
Variable fetch_text : list string → batch_reply.
(** The retry of one id under 60 seconds; [None] when it raises. *)
Variable fetch_text_single : string → option (list (item string)).
Variable clock : nat → string.

(** [for item in batch_data: ... results[seq_num] = extract_plain_text(...)] *)
Definition store_items (results : gmap string string)
    (batch_data : list (item string)) : gmap string string :=
  foldl (λ results it,
           match it with
           | Line _ => results
           | Tuple seq_info raw =>
               <[before " " seq_info := extract_plain_text raw]> results
           end) results batch_data.

(** The retry of a batch, one id at a time. *)
Definition retry_singly (results : gmap string string) (batch : list string)
    : gmap string string :=
  foldl (λ results single_id,
           match fetch_text_single single_id with
           | Some single_data => store_items results single_data
           | None => results
           end) results batch.

Definition save_bodies (checkpoint_path : option path) (turn : nat)
    (results : gmap string string) (fs : gmap path string)
    : gmap path string :=
  match checkpoint_path with
  | Some p =>
      save_checkpoint set_timestamp json_dump (clock turn) p
        (Cp None (Some results) None) fs
  | None => fs
  end.

(** One turn of the loop over the batches. *)
Definition bodies_turn (checkpoint_path : option path)
    (st : outcome (gmap string string)) (batch : list string)
    : outcome (gmap string string) :=
  let turn := length (requested st) in
  match fetch_text batch with
  | Data batch_data =>
      let results := store_items (returned st) batch_data in
      Outcome results (save_bodies checkpoint_path turn results (disk st))
        (requested st ++ [batch])
  | TimedOut =>
      let results := retry_singly (returned st) batch in
      Outcome results (save_bodies checkpoint_path turn results (disk st))
        (requested st ++ [batch])
  | Failed => Outcome (returned st) (disk st) (requested st ++ [batch])
  end.

(** The bodies of the checkpoint, when there is one with that key. *)
Definition resume_bodies (checkpoint_path : option path)
    (fs : gmap path string) : option (gmap string string) :=
  p ← checkpoint_path; cp ← load_checkpoint json_load p fs; cp_bodies cp.

Definition remaining_bodies (msg_ids : list string)
    (saved : option (gmap string string)) : list string :=
  match saved with
  | Some results => filter (λ mid, mid ∉ dom results) msg_ids
  | None => msg_ids
  end.

(** The loop, stopped after [turns] turns when [turns] is given. *)
Definition bodies_loop (turns : option nat) (checkpoint_path : option path)
    (msg_ids : list string) (fs : gmap path string)
    : outcome (gmap string string) :=
  let saved := resume_bodies checkpoint_path fs in
  let todo := batches 50 (remaining_bodies msg_ids saved) in
  foldl (bodies_turn checkpoint_path) (Outcome (default ∅ saved) fs [])
    (match turns with Some k => take k todo | None => todo end).

(** [fetch_bodies_batch(mail, msg_ids, checkpoint_path=...)] with the default
    sizes. *)
Definition fetch_bodies_batch (checkpoint_path : option path)
    (msg_ids : list string) (fs : gmap path string)
    : outcome (gmap string string) :=
  let st := bodies_loop None checkpoint_path msg_ids fs in
  Outcome (returned st)
    (save_bodies checkpoint_path (length (requested st)) (returned st)
       (disk st))
    (requested st).

Definition fetch_bodies_interrupted (turns : nat)
    (checkpoint_path : option path) (msg_ids : list string)
    (fs : gmap path string) : gmap path string :=
  disk (bodies_loop (Some turns) checkpoint_path msg_ids fs).

(** *** Resumption of the body fetch *)

(** The reply of the server for one id. *)
Variable text_of : string → list (item string).

Hypothesis bodies_round_trip :
  ∀ cp, json_load (joined (json_dump cp)) = Some cp.
(** No request fails, and the reply to a request is made of the replies for
    its ids, in order. *)
Hypothesis fetch_text_data :
  ∀ batch, fetch_text batch = Data (batch ≫= text_of).
(** The server answers for the id it was asked for. *)
Hypothesis text_answers_request :
  ∀ mid seq_info raw,
    Tuple seq_info raw ∈ text_of mid → before " " seq_info = mid.

Lemma store_items_app results items1 items2 :
  store_items results (items1 ++ items2)
  = store_items (store_items results items1) items2.
Proof. apply foldl_app. Qed.

Lemma dom_store_items results items k :
  k ∈ dom (store_items results items) ↔
  k ∈ dom results
  ∨ ∃ seq_info raw, Tuple seq_info raw ∈ items ∧ before " " seq_info = k.
Proof.
  revert results. induction items as [|it items IH]; intros results; simpl.
  - split; [by left|]. intros [?|(? & ? & []%elem_of_nil & _)]; done.
  - rewrite IH. destruct it as [text|seq_info raw].
    + split.
      * intros [?|(s' & r' & ? & ?)]; [by left|right].
        exists s', r'. split; [by right|done].
      * intros [?|(s' & r' & [Heq|?]%elem_of_cons & ?)]; [by left|done|right].
        by exists s', r'.
    + rewrite dom_insert, elem_of_union, elem_of_singleton. split.
      * intros [[->|?]|(s' & r' & ? & ?)]; [right|by left|right].
        -- exists seq_info, raw. split; [by left|done].
        -- exists s', r'. split; [by right|done].
      * intros [?|(s' & r' & [Heq|?]%elem_of_cons & Hk)].
        -- left. by right.
        -- simplify_eq. left. by left.
        -- right. by exists s', r'.
Qed.

Lemma lookup_store_items_other results items k :
  (∀ seq_info raw, Tuple seq_info raw ∈ items → before " " seq_info ≠ k) →
  store_items results items !! k = results !! k.
Proof.
  revert results. induction items as [|it items IH]; intros results Hk;
    simpl; [done|].
  rewrite IH by (intros s' r' ?; apply (Hk s' r'); by right).
  destruct it as [text|seq_info raw]; [done|].
  apply lookup_insert_ne. apply (Hk seq_info raw). by left.
Qed.

Lemma store_items_nothing results items :
  (∀ seq_info raw, Tuple seq_info raw ∉ items) →
  store_items results items = results.
Proof.
  revert results. induction items as [|it items IH]; intros results Hno;
    simpl; [done|].
  rewrite IH by (intros s' r' ?; apply (Hno s' r'); by right).
  destruct it as [text|seq_info raw]; [done|].
  destruct (Hno seq_info raw). by left.
Qed.

(** The keys stored for a list of ids are among these ids. *)
Lemma dom_stored results ids k :
  k ∈ dom (store_items results (ids ≫= text_of)) → k ∈ dom results ∨ k ∈ ids.
Proof.
  rewrite dom_store_items.
  intros [?|(seq_info & raw & (mid & Hin & Hmid)%list_elem_of_bind & <-)];
    [by left|right].
  by rewrite (text_answers_request mid seq_info raw Hin).
Qed.

Section Loop.

Variable p : path.
Hypothesis suffix_not_tmp : suffix p ≠ ".tmp".

Lemma resume_after_save turn results fs :
  resume_bodies (Some p) (save_bodies (Some p) turn results fs)
  = Some results.
Proof.
  unfold resume_bodies, save_bodies, load_checkpoint. simpl.
  rewrite save_checkpoint_complete by done.
  unfold snapshot. by rewrite bodies_round_trip.
Qed.

Lemma bodies_turns todo st :
  let st' := foldl (bodies_turn (Some p)) st todo in
  returned st' = store_items (returned st) (concat todo ≫= text_of)
  ∧ requested st' = requested st ++ todo
  ∧ resume_bodies (Some p) (disk st')
    = match todo with
      | [] => resume_bodies (Some p) (disk st)
      | _ => Some (returned st')
      end.
Proof.
  revert st. induction todo as [|batch todo IH]; intros st.
  { simpl. by rewrite app_nil_r. }
  assert (Hturn : bodies_turn (Some p) st batch
                  = Outcome (store_items (returned st) (batch ≫= text_of))
                      (save_bodies (Some p) (length (requested st))
                         (store_items (returned st) (batch ≫= text_of))
                         (disk st))
                      (requested st ++ [batch])).
  { unfold bodies_turn. by rewrite fetch_text_data. }
  cbn [foldl]. rewrite Hturn.
  match goal with
  | |- context [foldl _ ?st1 todo] =>
      destruct (IH st1) as (Hret & Hreq & Hdisk)
  end.
  cbn [returned requested disk] in Hret, Hreq, Hdisk.
  assert (Hall : store_items (store_items (returned st) (batch ≫= text_of))
                   (concat todo ≫= text_of)
                 = store_items (returned st)
                     (concat (batch :: todo) ≫= text_of)).
  { cbn [concat]. by rewrite bind_app, store_items_app. }
  rewrite Hall in Hret. cbn zeta. rewrite Hreq, Hdisk. split_and!.
  - exact Hret.
  - by rewrite <- app_assoc.
  - destruct todo as [|b todo]; [|by rewrite Hret].
    by rewrite resume_after_save.
Qed.

End Loop.

Lemma bodies_remaining_after (done todo : list string) :
  NoDup (done ++ todo) →
  let saved := store_items ∅ (done ≫= text_of) in
  store_items saved
    (filter (λ mid, mid ∉ dom saved) (done ++ todo) ≫= text_of)
  = store_items ∅ ((done ++ todo) ≫= text_of)
  ∧ ∀ k, k ∈ dom saved →
      store_items ∅ ((done ++ todo) ≫= text_of) !! k = saved !! k.
Proof.
  intros (_ & Hdisjoint & _)%NoDup_app saved.
  assert (Hkeys : ∀ k, k ∈ dom saved → k ∈ done).
  { intros k [Hk|Hk]%dom_stored; [|done]. by rewrite dom_empty in Hk. }
  assert (Htodo : filter (λ mid, mid ∉ dom saved) todo = todo).
  { clear -Hdisjoint Hkeys. induction todo as [|mid todo IH]; [done|].
    rewrite filter_cons_True.
    - rewrite IH; [done|]. intros m Hm Hin. apply (Hdisjoint m Hm). by right.
    - intros Hin%Hkeys. apply (Hdisjoint mid Hin). by left. }
  assert (Hdone : store_items saved
                    (filter (λ mid, mid ∉ dom saved) done ≫= text_of)
                  = saved).
  { apply store_items_nothing. intros seq_info raw.
    intros (mid & Hin & [Hmid Hd]%list_elem_of_filter)%list_elem_of_bind.
    apply Hmid. unfold saved. apply dom_store_items. right.
    exists seq_info, raw. split.
    - apply list_elem_of_bind. by exists mid.
    - by apply (text_answers_request mid seq_info raw). }
  split.
  - rewrite filter_app, bind_app, store_items_app, Hdone, Htodo.
    by rewrite bind_app, store_items_app.
  - intros k Hk. rewrite bind_app, store_items_app. fold saved.
    apply lookup_store_items_other. intros seq_info raw.
    intros (mid & Hin & Hmid)%list_elem_of_bind Heq.
    rewrite (text_answers_request mid seq_info raw Hin) in Heq. subst k.
    by apply (Hdisjoint mid (Hkeys mid Hk)).
Qed.

Section Resume.

Variable p : path.
Hypothesis suffix_not_tmp : suffix p ≠ ".tmp".

(** A run of [fetch_bodies_batch] starts from what the checkpoint holds,
    asks for the ids that are not among its keys, and stores what the server
    gives. *)
Lemma fetch_bodies_resumes msg_ids fs :
  let saved := resume_bodies (Some p) fs in
  let run := fetch_bodies_batch (Some p) msg_ids fs in
  returned run
  = store_items (default ∅ saved) (remaining_bodies msg_ids saved ≫= text_of)
  ∧ concat (requested run) = remaining_bodies msg_ids saved.
Proof.
  intros saved run. unfold run, fetch_bodies_batch, bodies_loop. fold saved.
  cbn [returned requested].
  destruct (bodies_turns p suffix_not_tmp
              (batches 50 (remaining_bodies msg_ids saved))
              (Outcome (default ∅ saved) fs [])) as (Hret & Hreq & _).
  rewrite Hret, Hreq. cbn [returned requested].
  rewrite app_nil_l, concat_batches by lia. done.
Qed.

(** The checkpoint an interruption after [turns] batches leaves. *)
Lemma bodies_interrupted_checkpoint turns msg_ids fs :
  fs !! p = None →
  resume_bodies (Some p)
    (fetch_bodies_interrupted turns (Some p) msg_ids fs)
  = match take turns (batches 50 msg_ids) with
    | [] => None
    | done => Some (store_items ∅ (concat done ≫= text_of))
    end.
Proof.
  intros Habsent.
  assert (Hfresh : resume_bodies (Some p) fs = None).
  { unfold resume_bodies, load_checkpoint. simpl. by rewrite Habsent. }
  unfold fetch_bodies_interrupted, bodies_loop. rewrite Hfresh.
  cbn [remaining_bodies default from_option id].
  destruct (bodies_turns p suffix_not_tmp
              (take turns (batches 50 msg_ids))
              (Outcome ∅ fs [])) as (Hret & _ & Hdisk).
  rewrite Hdisk. cbn [disk returned] in *. rewrite Hfresh.
  destruct (take turns (batches 50 msg_ids)); [done|]. by rewrite Hret.
Qed.

End Resume.

End Bodies.

(** C2: a fetch that is interrupted after any number of completed batches
    and run again from the checkpoint it left returns what the uninterrupted
    fetch returns; the second run asks for exactly the ids that the
    checkpoint does not hold, and keeps everything the checkpoint holds.
    For the metadata fetch and for the body fetch, against a mailbox that
    does not change: the ids are distinct, the server answers every request
    id by id, for the ids it is asked for, and the checkpoint file decodes to
    what was encoded. *)
Theorem resume_equals_uninterrupted :
  (∀ parsedate_iso json_dump json_load fetch clock clock'
     (p : path) (msg_ids : list string) (fs : gmap path string) (turns : nat),
     suffix p ≠ ".tmp" →
     (∀ cp, json_load (joined (json_dump cp)) = Some cp) →
     (∀ ids1 ids2, fetch (ids1 ++ ids2) = fetch ids1 ++ fetch ids2) →
     (∀ mid r, r ∈ records_of parsedate_iso fetch mid → msg_id r = mid) →
     NoDup msg_ids →
     fs !! p = None →
     let full :=
       fetch_metadata parsedate_iso json_dump json_load fetch clock
         (Some p) msg_ids fs in
     let crashed :=
       fetch_metadata_interrupted parsedate_iso json_dump json_load fetch
         clock turns (Some p) msg_ids fs in
     let saved := resume_from json_load (Some p) crashed in
     let resumed :=
       fetch_metadata parsedate_iso json_dump json_load fetch clock'
         (Some p) msg_ids crashed in
     returned resumed = returned full
     ∧ concat (requested resumed)
       = filter (λ mid, mid ∉ fetched_ids saved) msg_ids
     ∧ saved `prefix_of` returned resumed)
  ∧ (∀ extract_plain_text json_dump json_load fetch_text fetch_text_single
       text_of clock clock'
       (p : path) (msg_ids : list string) (fs : gmap path string)
       (turns : nat),
       suffix p ≠ ".tmp" →
       (∀ cp, json_load (joined (json_dump cp)) = Some cp) →
       (∀ batch, fetch_text batch = Data (batch ≫= text_of)) →
       (∀ mid seq_info raw,
          Tuple seq_info raw ∈ text_of mid → before " " seq_info = mid) →
       NoDup msg_ids →
       fs !! p = None →
       let full :=
         fetch_bodies_batch extract_plain_text json_dump json_load fetch_text
           fetch_text_single clock (Some p) msg_ids fs in
       let crashed :=
         fetch_bodies_interrupted extract_plain_text json_dump json_load
           fetch_text fetch_text_single clock turns (Some p) msg_ids fs in
       let saved := resume_bodies json_load (Some p) crashed in
       let resumed :=
         fetch_bodies_batch extract_plain_text json_dump json_load fetch_text
           fetch_text_single clock' (Some p) msg_ids crashed in
       returned resumed = returned full
       ∧ concat (requested resumed)
         = match saved with
           | Some results => filter (λ mid, mid ∉ dom results) msg_ids
           | None => msg_ids
           end
       ∧ ∀ results k, saved = Some results → k ∈ dom results →
           returned resumed !! k = results !! k).
Proof.
  split.
  - intros parsedate_iso json_dump json_load fetch clock clock' p msg_ids fs
      turns Hsfx Hjson Hper Hans Hnodup Habsent full crashed saved resumed.
    assert (Hfresh : resume_from json_load (Some p) fs = []).
    { unfold resume_from, load_checkpoint. simpl. by rewrite Habsent. }
    destruct (decide (msg_ids = [])) as [->|Hne].
    { unfold saved, crashed, resumed, full. simpl. rewrite Hfresh.
      split_and!; done. }
    pose proof (interrupted_checkpoint parsedate_iso json_dump json_load
                  fetch clock Hjson Hper p Hsfx turns msg_ids fs Habsent)
      as Hsaved.
    fold crashed in Hsaved. fold saved in Hsaved.
    destruct (fetch_metadata_resumes parsedate_iso json_dump json_load fetch
                clock Hjson Hper p Hsfx msg_ids fs Hne) as [Hfull _].
    destruct (fetch_metadata_resumes parsedate_iso json_dump json_load fetch
                clock' Hjson Hper p Hsfx msg_ids crashed Hne)
      as [Hres Hreq].
    fold full in Hfull. fold resumed in Hres, Hreq. fold saved in Hres, Hreq.
    rewrite Hfresh, remaining_ids_nil in Hfull. simpl in Hfull.
    split_and!; [|exact Hreq|rewrite Hres; by eexists].
    rewrite Hres, Hfull, Hsaved.
    set (bs := batches 500 msg_ids).
    assert (Hsplit : msg_ids = concat (take turns bs) ++ concat (drop turns bs)).
    { rewrite <- concat_app, take_drop. unfold bs.
      by rewrite concat_batches by lia. }
    rewrite Hsplit at 1.
    rewrite (remaining_after parsedate_iso fetch Hans) by
      by rewrite <- Hsplit.
    by rewrite <- bind_app, <- Hsplit.
  - intros extract_plain_text json_dump json_load fetch_text
      fetch_text_single text_of clock clock' p msg_ids fs turns Hsfx Hjson
      Hdata Hans Hnodup Habsent full crashed saved resumed.
    assert (Hfresh : resume_bodies json_load (Some p) fs = None).
    { unfold resume_bodies, load_checkpoint. simpl. by rewrite Habsent. }
    pose proof (bodies_interrupted_checkpoint extract_plain_text json_dump
                  json_load fetch_text fetch_text_single clock text_of Hjson
                  Hdata p Hsfx turns msg_ids fs Habsent) as Hsaved.
    fold crashed in Hsaved. fold saved in Hsaved.
    destruct (fetch_bodies_resumes extract_plain_text json_dump json_load
                fetch_text fetch_text_single clock text_of Hjson Hdata p
                Hsfx msg_ids fs) as [Hfull _].
    destruct (fetch_bodies_resumes extract_plain_text json_dump json_load
                fetch_text fetch_text_single clock' text_of Hjson Hdata p
                Hsfx msg_ids crashed) as [Hres Hreq].
    fold full in Hfull. fold resumed in Hres, Hreq. fold saved in Hres, Hreq.
    rewrite Hfresh in Hfull. cbn [remaining_bodies default from_option id] in Hfull.
    split_and!; [|exact Hreq|].
    + rewrite Hres, Hfull, Hsaved.
      set (bs := batches 50 msg_ids).
      assert (Hsplit : msg_ids
                       = concat (take turns bs) ++ concat (drop turns bs)).
      { rewrite <- concat_app, take_drop. unfold bs.
        by rewrite concat_batches by lia. }
      destruct (take turns bs) as [|b bs'] eqn:Hdone; [done|].
      cbn [remaining_bodies default from_option id]. rewrite Hsplit at 1 2.
      rewrite Hsplit in Hnodup.
      by destruct (bodies_remaining_after extract_plain_text text_of Hans
                     _ _ Hnodup) as [-> _].
    + intros results k Hresults Hk. rewrite Hres, Hsaved.
      rewrite Hsaved in Hresults.
      set (bs := batches 50 msg_ids) in *.
      assert (Hsplit : msg_ids
                       = concat (take turns bs) ++ concat (drop turns bs)).
      { rewrite <- concat_app, take_drop. unfold bs.
        by rewrite concat_batches by lia. }
      destruct (take turns bs) as [|b bs'] eqn:Hdone; [done|].
      injection Hresults as <-. cbn [remaining_bodies default from_option id].
      rewrite Hsplit in Hnodup.
      destruct (bodies_remaining_after extract_plain_text text_of Hans
                  _ _ Hnodup) as [Hsame Hkeep].
      rewrite Hsplit at 1. cbv zeta in Hsame. rewrite Hsame.
      by apply Hkeep.
Qed.

(** *** A concrete run

    The checkpoints of the example are encoded in binary digits; the mailbox
    holds three messages. *)

Global Instance record_eq_dec : EqDecision record.
Proof. solve_decision. Defined.

Global Program Instance record_countable : Countable record :=
  inj_countable'
    (λ r, (msg_id r, from_email r, from_name r, subject r, date r,
           is_unread r))
    (λ t, Record t.1.1.1.1.1 t.1.1.1.1.2 t.1.1.1.2 t.1.1.2 t.1.2 t.2) _.
Next Obligation. by intros []. Qed.

Global Instance checkpoint_eq_dec : EqDecision checkpoint.
Proof. solve_decision. Defined.

Global Program Instance checkpoint_countable : Countable checkpoint :=
  inj_countable' (λ cp, (cp_messages cp, cp_bodies cp, cp_timestamp cp))
    (λ t, Cp t.1.1 t.1.2 t.2) _.
Next Obligation. by intros []. Qed.

Fixpoint bits (q : positive) : string :=
  match q with
  | xH => EmptyString
  | xO q => String "0" (bits q)
  | xI q => String "1" (bits q)
  end.

Fixpoint unbits (s : string) : option positive :=
  match s with
  | EmptyString => Some xH
  | String c r =>
      if decide (c = "0"%char) then xO <$> unbits r
      else if decide (c = "1"%char) then xI <$> unbits r
      else None
  end.

Definition binary_dump (cp : checkpoint) : list string := [bits (encode cp)].

Definition binary_load (s : string) : option checkpoint :=
  unbits s ≫= decode.

Lemma unbits_bits q : unbits (bits q) = Some q.
Proof. induction q as [q IH|q IH|]; simpl; by rewrite ?IH. Qed.

Lemma binary_round_trip cp : binary_load (joined (binary_dump cp)) = Some cp.
Proof.
  unfold binary_load, binary_dump, joined. simpl.
  rewrite append_empty_r, unbits_bits. simpl. apply decode_encode.
Qed.

Definition reply_for (mid : string) : list (item (option headers)) :=
  if decide (mid = "1") then
    [Tuple "1 (FLAGS (\Seen) BODY[HEADER.FIELDS (FROM SUBJECT DATE)] {70}"
       (Some (Headers (Some "Ann <ann@example.org>") (Some "Hello")
                (Some "Mon, 2 Nov 2026 10:00:00 +0000")));
     Line ")"]
  else if decide (mid = "2") then
    [Tuple "2 (FLAGS () BODY[HEADER.FIELDS (FROM SUBJECT DATE)] {64}" None;
     Line ")"]
  else if decide (mid = "3") then
    [Tuple "3 (FLAGS () BODY[HEADER.FIELDS (FROM SUBJECT DATE)] {58}"
       (Some (Headers (Some "noreply@shop.example.com") None None));
     Line ")"]
  else [].

Definition small_mailbox (ids : list string) : list (item (option headers)) :=
  ids ≫= reply_for.

Lemma resume_equals_uninterrupted_witness :
  let p := checkpoint_metadata "triage_output/work" in
  let run clock fs :=
    fetch_metadata (λ _, None) binary_dump binary_load small_mailbox clock
      (Some p) ["1"; "2"; "3"] fs in
  let crashed :=
    fetch_metadata_interrupted (λ _, None) binary_dump binary_load
      small_mailbox (λ _, "t0") 1 (Some p) ["1"; "2"; "3"] ∅ in
  suffix p ≠ ".tmp"
  ∧ NoDup ["1"; "2"; "3"]
  ∧ returned (run (λ _, "t1") crashed) = returned (run (λ _, "t0") ∅).
Proof.
  cbv zeta. split; [discriminate|]. split; [by apply (bool_decide_unpack _)|].
  destruct resume_equals_uninterrupted as [Hmetadata _].
  apply (Hmetadata (λ _, None) binary_dump binary_load small_mailbox
           (λ _, "t0") (λ _, "t1") (checkpoint_metadata "triage_output/work")
           ["1"; "2"; "3"] ∅ 1%nat).
  - discriminate.
  - apply binary_round_trip.
  - intros ids1 ids2. apply bind_app.
  - intros mid r. unfold records_of, small_mailbox, reply_for.
    rewrite bind_singleton.
    repeat case_decide; subst; simpl;
      rewrite ?elem_of_cons, ?elem_of_nil; intros Hr;
      intuition (subst; reflexivity).
  - by apply (bool_decide_unpack _).
  - apply lookup_empty.
Defined.

End Fetch.

(** ** The IMAP session

    A function of the pipeline that talks to the server is a tree of
    requests: each request waits for its answer, which is a reply or an
    exception of [imaplib]; what the function prints is kept as notices.
    Running a tree against a server gives the result, the server state, the
    requests with their answers, and the notices. *)
Module Imap.
Import PyStr Fetch.

Inductive command :=
  | SELECT (mailbox : string) (readonly : bool)
  | SEARCH_ALL                                  (* sequence numbers *)
  | UID_SEARCH_ALL
  | UID_FETCH (uid_set : list string) (parts : string)
  | UID_COPY (uid_set : list string) (folder : string)
  | UID_STORE_DELETED (uid_set : list string)   (* +FLAGS \Deleted *)
  | EXPUNGE
  | LIST
  | CREATE (folder : string).

(** [(typ, data)], with the data read the way the caller of each command
    reads it: the ids of a search ([data[0].split()]), the elements of a
    fetch, the lines of a list. *)
Record reply := Reply {
  typ : string;
  ids : list string;
  items : list (item (option headers));
  lines : list string;
}.

Inductive answer :=
  | Raised
  | Answered (r : reply).

(** What the archiver prints, one constructor for each [print]. *)
Inductive notice :=
  | Scanning
  | ScanningForMatches
  | Scanned (upto total matched : nat)
  | NoMessagesToArchive
  | NoMatchingMessages
  | Targeting (count : nat)
  | DryRunWouldArchive (count : nat)
  | RunWithExecute
  | CouldNotCreateArchiveFolder
  | UsingFolder (folder : string)
  | CopyFailed (offset : nat)
  | StoreFailed (offset : nat)
  | Flagged (archived total : nat)
  | Expunging
  | WarningAllMailDecreased
  | SafetyCheckPassed
  | Archived (count : nat).

Inductive prog (A : Type) :=
  | Ret (a : A)
  | Raise
  | Ask (c : command) (k : answer → prog A)
  | Print (n : notice) (k : prog A).
Arguments Ret {A} a.
Arguments Raise {A}.
Arguments Ask {A} c k.
Arguments Print {A} n k.

Fixpoint bind {A B} (m : prog A) (f : A → prog B) : prog B :=
  match m with
  | Ret a => f a
  | Raise => Raise
  | Ask c k => Ask c (λ a, bind (k a) f)
  | Print n k => Print n (bind k f)
  end.

Global Instance prog_ret : MRet prog := λ A, Ret.
Global Instance prog_bind : MBind prog := λ A B f m, bind m f.

(** [try: body except Exception: handler] *)
Fixpoint catch {A} (body handler : prog A) : prog A :=
  match body with
  | Ret a => Ret a
  | Raise => handler
  | Ask c k => Ask c (λ a, catch (k a) handler)
  | Print n k => Print n (catch k handler)
  end.

(** A call of a method of the session: its exception propagates. *)
Definition call (c : command) : prog reply :=
  Ask c (λ a, match a with Raised => Raise | Answered r => Ret r end).

Definition print (n : notice) : prog unit := Print n (Ret ()).

(** A [for] loop that carries its variables in [st]. *)
Fixpoint for_each {X St} (xs : list X) (body : St → X → prog St) (st : St)
    : prog St :=
  match xs with
  | [] => Ret st
  | x :: xs => st ← body st x; for_each xs body st
  end.

(** The batches of a loop [for i in range(0, len(l), size)], each with its
    offset [i]. *)
Definition batches_at {A} (size : nat) (l : list A) : list (nat * list A) :=
  imap (λ k batch, (k * size, batch)%nat) (batches size l).

(** *** Running against a server *)

Record ran (A S : Type) := Ran {
  result : option A;          (* [None]: an exception came out *)
  server : S;
  trace : list (command * answer);
  printed : list notice;
}.
Arguments Ran {A S} result server trace printed.
Arguments result {A S} r.
Arguments server {A S} r.
Arguments trace {A S} r.
Arguments printed {A S} r.

Fixpoint run {A S} (exec : command → S → answer * S) (m : prog A) (s : S)
    : ran A S :=
  match m with
  | Ret a => Ran (Some a) s [] []
  | Raise => Ran None s [] []
  | Ask c k =>
      let r := run exec (k (exec c s).1) (exec c s).2 in
      Ran (result r) (server r) ((c, (exec c s).1) :: trace r) (printed r)
  | Print n k =>
      let r := run exec k s in
      Ran (result r) (server r) (trace r) (n :: printed r)
  end.

Definition sent {A S} (r : ran A S) : list command := (trace r).*1.

(** *** Reasoning about runs *)

Definition and_then {A B S} (exec : command → S → answer * S)
    (r1 : ran A S) (f : A → prog B) : ran B S :=
  match result r1 with
  | None => Ran None (server r1) (trace r1) (printed r1)
  | Some a =>
      let r2 := run exec (f a) (server r1) in
      Ran (result r2) (server r2) (trace r1 ++ trace r2)
        (printed r1 ++ printed r2)
  end.

Lemma run_bind {A B S} (exec : command → S → answer * S)
    (m : prog A) (f : A → prog B) s :
  run exec (m ≫= f) s = and_then exec (run exec m s) f.
Proof.
  revert s. induction m as [a| |c k IH|n k IH]; intros s.
  - unfold and_then. simpl. by destruct (run exec (f a) s).
  - done.
  - change (run exec (Ask c k ≫= f) s)
      with (let r := run exec (k (exec c s).1 ≫= f) (exec c s).2 in
            Ran (result r) (server r) ((c, (exec c s).1) :: trace r)
              (printed r)).
    cbv zeta. rewrite IH. unfold and_then. simpl.
    by destruct (result (run exec (k (exec c s).1) (exec c s).2)).
  - change (run exec (Print n k ≫= f) s)
      with (let r := run exec (k ≫= f) s in
            Ran (result r) (server r) (trace r) (n :: printed r)).
    cbv zeta. rewrite IH. unfold and_then. simpl.
    by destruct (result (run exec k s)).
Qed.

(** A property of every request a tree can send, and of every value it can
    return. *)
Fixpoint sends {A} (P : command → Prop) (m : prog A) : Prop :=
  match m with
  | Ret _ | Raise => True
  | Ask c k => P c ∧ ∀ a, sends P (k a)
  | Print _ k => sends P k
  end.

Fixpoint returns {A} (Q : A → Prop) (m : prog A) : Prop :=
  match m with
  | Ret a => Q a
  | Raise => True
  | Ask _ k => ∀ a, returns Q (k a)
  | Print _ k => returns Q k
  end.

Lemma sends_run {A S} P (exec : command → S → answer * S) (m : prog A) s :
  sends P m → Forall P (sent (run exec m s)).
Proof.
  revert s. induction m as [a| |c k IH|n k IH]; intros s; simpl.
  - constructor.
  - constructor.
  - intros [Hc Hk]. unfold sent. simpl. constructor; [done|].
    by apply IH.
  - apply IH.
Qed.

Lemma returns_run {A S} Q (exec : command → S → answer * S) (m : prog A) s a :
  returns Q m → result (run exec m s) = Some a → Q a.
Proof.
  revert s. induction m as [a'| |c k IH|n k IH]; intros s; simpl.
  - by intros ? [= <-].
  - done.
  - intros Hk. by apply IH.
  - apply IH.
Qed.

Lemma sends_bind {A B} P (m : prog A) (f : A → prog B) :
  sends P m → (∀ a, sends P (f a)) → sends P (m ≫= f).
Proof.
  intros Hm Hf. induction m as [a| |c k IH|n k IH]; simpl in *.
  - apply Hf.
  - done.
  - destruct Hm as [Hc Hk]. split; [done|]. intros a. by apply IH.
  - by apply IH.
Qed.

Lemma returns_bind {A B} (Q : A → Prop) (R : B → Prop) (m : prog A)
    (f : A → prog B) :
  returns Q m → (∀ a, Q a → returns R (f a)) → returns R (m ≫= f).
Proof.
  intros Hm Hf. induction m as [a| |c k IH|n k IH]; simpl in *.
  - by apply Hf.
  - done.
  - intros a. by apply IH.
  - by apply IH.
Qed.

Lemma returns_weaken {A} (Q R : A → Prop) (m : prog A) :
  (∀ a, Q a → R a) → returns Q m → returns R m.
Proof.
  intros HQR. induction m as [a| |c k IH|n k IH]; simpl; [auto|done|..].
  - intros Hk a. by apply IH.
  - apply IH.
Qed.

Lemma sends_call P c : P c → sends P (call c).
Proof. intros Hc. split; [done|]. by intros []. Qed.

Lemma sends_for_each {X St} P (xs : list X) (body : St → X → prog St) st :
  (∀ st x, sends P (body st x)) → sends P (for_each xs body st).
Proof.
  intros Hbody. revert st. induction xs as [|x xs IH]; intros st; [done|].
  apply sends_bind; [apply Hbody|]. intros st'. apply IH.
Qed.

Lemma sends_catch {A} P (body handler : prog A) :
  sends P body → sends P handler → sends P (catch body handler).
Proof.
  intros Hb Hh. induction body as [a| |c k IH|n k IH]; simpl in *;
    [done|done|..].
  - destruct Hb as [Hc Hk]. split; [done|]. intros a. by apply IH.
  - by apply IH.
Qed.

(** A server that answers every request. *)
Definition never_raises {S} (exec : command → S → answer * S) : Prop :=
  ∀ c s, (exec c s).1 ≠ Raised.

Lemma run_call {S} (exec : command → S → answer * S) c s :
  never_raises exec →
  ∃ rep, (exec c s).1 = Answered rep
         ∧ run exec (call c) s
           = Ran (Some rep) (exec c s).2 [(c, Answered rep)] [].
Proof.
  intros Hnever. specialize (Hnever c s). unfold call. simpl.
  destruct (exec c s).1 as [|rep] eqn:Hanswer; [done|]. by exists rep.
Qed.

(** The result of a tree when the server answers every request, given what
    the replies to each command are known to satisfy. *)
Fixpoint completes {A} (G : command → reply → Prop) (Q : A → Prop)
    (m : prog A) : Prop :=
  match m with
  | Ret a => Q a
  | Raise => False
  | Ask c k => ∀ rep, G c rep → completes G Q (k (Answered rep))
  | Print _ k => completes G Q k
  end.

Lemma completes_run {A S} G (Q : A → Prop) (inv : S → Prop)
    (exec : command → S → answer * S) (m : prog A) s :
  (∀ c s, inv s →
     inv (exec c s).2 ∧ ∃ rep, (exec c s).1 = Answered rep ∧ G c rep) →
  inv s → completes G Q m → ∃ a, result (run exec m s) = Some a ∧ Q a.
Proof.
  intros Hexec. revert s. induction m as [a| |c k IH|n k IH]; intros s Hs;
    simpl.
  - intros. by exists a.
  - done.
  - intros Hk. destruct (Hexec c s Hs) as (Hs' & rep & Hrep & HG).
    rewrite Hrep. apply IH; [done|]. by apply Hk.
  - by apply IH.
Qed.

Lemma completes_bind {A B} G (Q : A → Prop) (R : B → Prop) (m : prog A)
    (f : A → prog B) :
  completes G Q m → (∀ a, Q a → completes G R (f a)) →
  completes G R (m ≫= f).
Proof.
  intros Hm Hf. induction m as [a| |c k IH|n k IH]; simpl in *.
  - by apply Hf.
  - done.
  - intros rep Hrep. by apply IH, Hm.
  - by apply IH.
Qed.

Lemma completes_call G (Q : reply → Prop) c :
  (∀ rep, G c rep → Q rep) → completes G Q (call c).
Proof. intros HQ rep Hrep. by apply HQ. Qed.

Lemma completes_for_each {X St} G (I : St → Prop) (xs : list X)
    (body : St → X → prog St) st :
  (∀ st x, I st → completes G I (body st x)) →
  I st → completes G I (for_each xs body st).
Proof.
  intros Hbody. revert st. induction xs as [|x xs IH]; intros st Hst; [done|].
  eapply completes_bind; [by apply Hbody|]. apply IH.
Qed.

(** Requests that leave a part of the server as it is leave it so over a
    whole run. *)
Lemma run_frame {A S V} P (view : S → V) (exec : command → S → answer * S)
    (m : prog A) s :
  (∀ c s, P c → view (exec c s).2 = view s) →
  sends P m → view (server (run exec m s)) = view s.
Proof.
  intros Hframe. revert s. induction m as [a| |c k IH|n k IH]; intros s; simpl;
    [done|done|..].
  - intros [Hc Hk]. rewrite IH by done. by apply Hframe.
  - apply IH.
Qed.

(** What a tree returns, together with the exchanges that led to it. *)
Fixpoint yields {A} (Q : list (command * answer) → A → Prop) (m : prog A)
    : Prop :=
  match m with
  | Ret a => Q [] a
  | Raise => True
  | Ask c k => ∀ a, yields (λ t, Q ((c, a) :: t)) (k a)
  | Print _ k => yields Q k
  end.

Lemma yields_run {A S} Q (exec : command → S → answer * S) (m : prog A) s a :
  yields Q m → result (run exec m s) = Some a → Q (trace (run exec m s)) a.
Proof.
  revert Q s. induction m as [a'| |c k IH|n k IH]; intros Q s; simpl.
  - by intros ? [= <-].
  - done.
  - intros Hk Ha. by apply (IH _ (λ t, Q ((c, (exec c s).1) :: t))).
  - apply IH.
Qed.

Lemma yields_weaken {A} (Q R : list (command * answer) → A → Prop)
    (m : prog A) :
  (∀ t a, Q t a → R t a) → yields Q m → yields R m.
Proof.
  revert Q R. induction m as [a| |c k IH|n k IH]; intros Q R HQR; simpl;
    [auto|done|..].
  - intros Hk a. apply (IH a (λ t, Q ((c, a) :: t))); [|done].
    intros t b. apply HQR.
  - by apply IH.
Qed.

Lemma yields_bind {A B} (Q : list (command * answer) → A → Prop)
    (R : list (command * answer) → B → Prop) (m : prog A) (f : A → prog B) :
  yields Q m → (∀ t a, Q t a → yields (λ t', R (t ++ t')) (f a)) →
  yields R (m ≫= f).
Proof.
  revert Q R. induction m as [a| |c k IH|n k IH]; intros Q R Hm Hf;
    simpl in *.
  - by apply (Hf []).
  - done.
  - intros a. apply (IH a (λ t, Q ((c, a) :: t))); [done|].
    intros t b Hb. by apply (Hf ((c, a) :: t)).
  - by apply (IH Q).
Qed.

Lemma yields_call (Q : list (command * answer) → reply → Prop) c :
  (∀ rep, Q [(c, Answered rep)] rep) → yields Q (call c).
Proof. intros HQ [|rep]; simpl; [done|apply HQ]. Qed.

Lemma yields_for_each {X St} (I : list (command * answer) → St → Prop)
    (xs : list X) (body : St → X → prog St) t st :
  (∀ t st x, I t st → yields (λ t' st', I (t ++ t') st') (body st x)) →
  I t st → yields (λ t' st', I (t ++ t') st') (for_each xs body st).
Proof.
  intros Hbody. revert t st. induction xs as [|x xs IH]; intros t st Hst.
  - simpl. by rewrite app_nil_r.
  - change (for_each (x :: xs) body st)
      with (body st x ≫= λ st', for_each xs body st').
    eapply yields_bind; [by apply Hbody|].
    intros t' st' Hst'. simpl in Hst'.
    eapply yields_weaken; [|by apply (IH (t ++ t') st')].
    intros t'' st''. simpl. by rewrite (assoc_L (++)).
Qed.

End Imap.

(** ** A mailbox to run against

    A small server in the manner of Gmail, for the concrete runs of this
    development: sequence numbers are positions in the selected view, as in
    RFC 3501, so they shift when a message is expunged; UIDs stay.  Whether
    an expunged message stays in the All Mail view is a setting of the
    server. *)
Module Mailbox.
Import PyStr Fetch Imap.

Record stored := Stored {
  uid : string;
  msg : headers;
  deleted : bool;
}.

Record state := State {
  inbox : list stored;
  all_mail : list string;
  selected : string;
  keeps_archived : bool;
}.

Definition numbers (n : nat) : list string := pretty <$> seq 1 n.

Definition done : reply := Reply "OK" [] [] [].

Definition numbered (st : state) : list (nat * stored) :=
  zip (seq 1 (length (inbox st))) (inbox st).

Definition uid_items (st : state) (uid_set : list string)
    : list (item (option headers)) :=
  filter (λ e, uid e.2 ∈ uid_set) (numbered st) ≫=
    λ e, [Tuple (pretty e.1 +:+ " (UID " +:+ uid e.2
                 +:+ " BODY[HEADER.FIELDS (FROM SUBJECT)] {60}")
            (Some (msg e.2));
          Line ")"].

(** The reply to a FETCH by sequence numbers, as [fetch_metadata] sends. *)
Definition seq_items (st : state) (msg_ids : list string)
    : list (item (option headers)) :=
  msg_ids ≫= λ mid,
    filter (λ e, pretty e.1 = mid) (numbered st) ≫=
      λ e, [Tuple (mid +:+ " (FLAGS () BODY[HEADER.FIELDS (FROM SUBJECT DATE)] {80}")
              (Some (msg e.2));
            Line ")"].

Definition exec (c : command) (st : state) : answer * state :=
  match c with
  | SELECT mailbox _ =>
      (Answered done,
       State (inbox st) (all_mail st) mailbox (keeps_archived st))
  | SEARCH_ALL =>
      (Answered (Reply "OK"
                   (numbers (if decide (selected st = "INBOX")
                             then length (inbox st)
                             else length (all_mail st))) [] []), st)
  | UID_SEARCH_ALL => (Answered (Reply "OK" (uid <$> inbox st) [] []), st)
  | UID_FETCH uid_set _ =>
      (Answered (Reply "OK" [] (uid_items st uid_set) []), st)
  | UID_STORE_DELETED uid_set =>
      (Answered done,
       State ((λ m, if decide (uid m ∈ uid_set)
                    then Stored (uid m) (msg m) true else m) <$> inbox st)
         (all_mail st) (selected st) (keeps_archived st))
  | EXPUNGE =>
      (Answered done,
       State (filter (λ m, deleted m = false) (inbox st))
         (if keeps_archived st then all_mail st
          else filter (λ u, u ∉ uid <$> filter (λ m, deleted m = true)
                                          (inbox st)) (all_mail st))
         (selected st) (keeps_archived st))
  | UID_COPY _ _ | CREATE _ => (Answered done, st)
  | LIST => (Answered (Reply "OK" [] [] []), st)
  end.

(** Two messages in the inbox, three in all. *)
Definition deals : headers :=
  Headers (Some "Deals <deals@shop.example.com>") (Some "50% off today")
    (Some "Mon, 2 Nov 2026 10:00:00 +0000").

Definition ann : headers :=
  Headers (Some "Ann <ann@example.org>") (Some "Lunch on Friday?")
    (Some "Mon, 2 Nov 2026 11:00:00 +0000").

Definition two_messages (keeps : bool) : state :=
  State [Stored "101" deals false; Stored "102" ann false]
    ["77"; "101"; "102"] "INBOX" keeps.

End Mailbox.

(** ** Archiving: [archive_messages] and its helpers *)
Module Archive.
Import PyStr Fetch Imap.

Definition IMAP_SERVER : string := "imap.gmail.com".

(** An entry of [accounts.json]; only the server matters here. *)
Record account := Account {
  name : string;
  email : string;
  imap_server : option string;
}.

(** [is_gmail(account)]; the empty dictionary of [account or {}] has the
    default server. *)
Definition is_gmail (acct : option account) : bool :=
  let server := default IMAP_SERVER (acct ≫= imap_server) in
  contains "gmail" (lower server) || contains "google" (lower server).

Definition ALL_MAIL : string :=
  String double_quote ("[Gmail]/All Mail" +:+ String double_quote "").

Definition OK (r : reply) : bool := bool_decide (typ r = "OK").

(** [resp_line.split("UID ")[1].split(" ")[0].split(")")[0]], when the
    line has a UID and it is not empty. *)
Definition uid_of (resp_line : string) : option string :=
  if contains "UID " resp_line then
    let uid_val :=
      before ")" (before " " (before_str "UID " (after_str "UID " resp_line)))
    in if decide (uid_val = "") then None else Some uid_val
  else None.

(** The body of [for item in batch_data] in [scan_inbox_uids_by_sender]:
    the UID to append, if any. *)
Definition sender_match (target_senders : gset string)
    (it : item (option headers)) : option string :=
  match it with
  | Line _ => None
  | Tuple resp_line literal =>
      uid_val ← uid_of resp_line;
      msg ← literal;
      let sender := get_sender_email (default "" (h_from msg)) in
      if decide (sender ∈ target_senders) then Some uid_val else None
  end.

(** The scan shared by the two resolutions: [matches] is the test of one
    element of a reply, [parts] the headers asked for. *)
Definition scan_inbox (parts : string)
    (matches : item (option headers) → option string) : prog (list string) :=
  _ ← call (SELECT "INBOX" true);
  found ← call UID_SEARCH_ALL;
  let all_uids := ids found in
  for_each (batches_at 500 all_uids)
    (λ matched_uids '(i, batch),
       fetched ← call (UID_FETCH batch parts);
       let matched_uids := matched_uids ++ omap matches (items fetched) in
       _ ← print (Scanned (min (i + 500) (length all_uids))
                    (length all_uids) (length matched_uids));
       Ret matched_uids)
    [].

Definition scan_inbox_uids_by_sender (target_senders : gset string)
    : prog (list string) :=
  scan_inbox "(BODY.PEEK[HEADER.FIELDS (FROM)])" (sender_match target_senders).

(** The count of the All Mail view: [len(data[0].split())]. *)
Definition count_all_mail : prog nat :=
  _ ← call (SELECT ALL_MAIL true);
  found ← call SEARCH_ALL;
  Ret (length (ids found)).

Definition verify_archive_safety (pre_allmail_count : nat)
    (acct : option account) : prog bool :=
  if negb (is_gmail acct) then Ret true
  else
    catch
      (post_count ← count_all_mail;
       _ ← call (SELECT "INBOX" false);
       Ret (bool_decide (pre_allmail_count ≤ post_count)%nat))
      (_ ← call (SELECT "INBOX" false); Ret false).

Definition names_archive (decoded : string) : bool :=
  contains (String double_quote ("Archive" +:+ String double_quote "")) decoded
  || endswith " Archive" (rstrip decoded)
  || endswith "/Archive" (rstrip decoded).

Definition ensure_archive_folder : prog (option string) :=
  listed ← call LIST;
  if existsb names_archive (lines listed) then Ret (Some "Archive")
  else
    made ← call (CREATE "Archive");
    if OK made then Ret (Some "Archive")
    else
      made ← call (CREATE "INBOX.Archive");
      if OK made then Ret (Some "INBOX.Archive") else Ret None.

(** One turn of the flagging loop: [archived] after it. *)
Definition flag_batch (gmail : bool) (archive_folder : string) (total : nat)
    (archived : nat) (entry : nat * list string) : prog nat :=
  let '(i, batch) := entry in
  copied ←
    (if gmail then Ret true
     else r ← call (UID_COPY batch archive_folder); Ret (OK r));
  if negb copied then _ ← print (CopyFailed i); Ret archived
  else
    stored ← call (UID_STORE_DELETED batch);
    if negb (OK stored) then _ ← print (StoreFailed i); Ret archived
    else
      let archived := (archived + length batch)%nat in
      if bool_decide (archived `mod` 1000 = 0)%nat
         || bool_decide (total ≤ i + 200)%nat
      then _ ← print (Flagged archived total); Ret archived
      else Ret archived.

(** The end of an archive run, after the single [EXPUNGE]: the safety
    check, its notice, and the count. *)
Definition check_and_report (pre_allmail_count : nat) (acct : option account)
    (archived : nat) : prog nat :=
  safe ← verify_archive_safety pre_allmail_count acct;
  _ ← print (if safe : bool then SafetyCheckPassed
             else WarningAllMailDecreased);
  _ ← print (Archived archived);
  Ret archived.

(** What follows the resolution, in [archive_messages] and, with the same
    text but for one notice, in [phase2_archive]: from the dry-run test to
    the end. *)
Definition archive_matched (no_match : notice) (matched_uids : list string)
    (dry_run : bool) (acct : option account) : prog nat :=
  let gmail := is_gmail acct in
  match matched_uids with
  | [] => _ ← print no_match; Ret 0%nat
  | _ =>
      if dry_run then
        _ ← print (DryRunWouldArchive (length matched_uids));
        _ ← print RunWithExecute;
        Ret 0%nat
      else
        prepared ←
          (if gmail then
             pre_allmail_count ← count_all_mail;
             Ret (Some (pre_allmail_count, ""))
           else
             archive_folder ← ensure_archive_folder;
             match archive_folder with
             | None => _ ← print CouldNotCreateArchiveFolder; Ret None
             | Some folder =>
                 _ ← print (UsingFolder folder); Ret (Some (0%nat, folder))
             end);
        match prepared with
        | None => Ret 0%nat
        | Some (pre_allmail_count, archive_folder) =>
            _ ← call (SELECT "INBOX" false);
            archived ←
              for_each (batches_at 200 matched_uids)
                (flag_batch gmail archive_folder (length matched_uids)) 0%nat;
            _ ← print Expunging;
            _ ← call EXPUNGE;
            check_and_report pre_allmail_count acct archived
        end
  end.

(** [archive_messages(mail, archive_senders, dry_run, account=account)] *)
Definition archive_messages (archive_senders : list string) (dry_run : bool)
    (acct : option account) : prog nat :=
  _ ← print Scanning;
  let target : gset string := list_to_set (lower <$> archive_senders) in
  matched_uids ← scan_inbox_uids_by_sender target;
  archive_matched NoMessagesToArchive matched_uids dry_run acct.

Global Instance notice_eq_dec : EqDecision notice.
Proof. solve_decision. Defined.

Ltac by_compute := apply (bool_decide_unpack _); vm_compute; exact I.

(** *** What the archiver sends *)

(** The requests that leave the mailbox as it is: read-only selections,
    searches, listings, and fetches that peek. *)
Definition read_only (c : command) : Prop :=
  match c with
  | SELECT _ readonly => readonly = true
  | SEARCH_ALL | UID_SEARCH_ALL | LIST => True
  | UID_FETCH _ parts => String.prefix "(BODY.PEEK[" parts = true
  | UID_COPY _ _ | UID_STORE_DELETED _ | EXPUNGE | CREATE _ => False
  end.

Lemma scan_inbox_reads_only parts matches :
  String.prefix "(BODY.PEEK[" parts = true →
  sends read_only (scan_inbox parts matches).
Proof.
  intros Hparts. unfold scan_inbox.
  apply sends_bind; [by apply sends_call|]. intros _.
  apply sends_bind; [by apply sends_call|]. intros found.
  apply sends_for_each. intros matched [i batch].
  apply sends_bind; [by apply sends_call|]. intros fetched. done.
Qed.

(** A scan in which no element of a reply matches finds nothing. *)
Lemma scan_inbox_nothing parts matches :
  completes
    (λ c rep, match c with
              | UID_FETCH _ _ => omap matches (items rep) = []
              | _ => True
              end)
    (λ matched_uids, matched_uids = []) (scan_inbox parts matches).
Proof.
  unfold scan_inbox.
  eapply completes_bind; [by apply (completes_call _ (λ _, True))|].
  intros _ _.
  eapply completes_bind; [by apply (completes_call _ (λ _, True))|].
  intros found _.
  apply completes_for_each; [|done]. intros matched [i batch] ->.
  eapply completes_bind.
  - apply (completes_call _ (λ rep, omap matches (items rep) = [])).
    by intros rep.
  - intros fetched ->. done.
Qed.

(** A run of [archive_messages] is the scan, then what follows it. *)
Lemma run_archive_messages {S} (exec : command → S → answer * S) s
    archive_senders dry_run acct :
  run exec (archive_messages archive_senders dry_run acct) s
  = let scan :=
      run exec (scan_inbox_uids_by_sender
                  (list_to_set (lower <$> archive_senders))) s in
    match result scan with
    | None => Ran None (server scan) (trace scan) (Scanning :: printed scan)
    | Some matched_uids =>
        let rest :=
          run exec (archive_matched NoMessagesToArchive matched_uids dry_run
                      acct) (server scan) in
        Ran (result rest) (server rest) (trace scan ++ trace rest)
          (Scanning :: printed scan ++ printed rest)
    end.
Proof.
  unfold archive_messages.
  change (run exec (_ ← print Scanning; ?m) s)
    with (let r := run exec m s in
          Ran (result r) (server r) (trace r) (Scanning :: printed r)).
  cbv zeta. rewrite run_bind. unfold and_then.
  by destruct (result (run exec _ s)).
Qed.

Lemma run_archive_matched_nil {S} (exec : command → S → answer * S) s
    no_match dry_run acct :
  run exec (archive_matched no_match [] dry_run acct) s
  = Ran (Some 0%nat) s [] [no_match].
Proof. reflexivity. Qed.

(** C9: when the server answers every request and no message it reports is
    from a sender of the target set (the invariant [inv] of its states says
    so), the resolution matches nothing and the archiver returns 0, without
    an exception and with nothing sent but read-only requests, dry run or
    not. *)
Theorem rerun_matches_nothing {S} (exec : command → S → answer * S)
    (inv : S → Prop) (s : S) (archive_senders : list string)
    (dry_run : bool) (acct : option account) :
  let target : gset string := list_to_set (lower <$> archive_senders) in
  (∀ c s, inv s →
     inv (exec c s).2
     ∧ ∃ rep, (exec c s).1 = Answered rep
              ∧ omap (sender_match target) (items rep) = []) →
  inv s →
  let r := run exec (archive_messages archive_senders dry_run acct) s in
  result (run exec (scan_inbox_uids_by_sender target) s) = Some []
  ∧ result r = Some 0%nat
  ∧ Forall read_only (sent r)
  ∧ NoMessagesToArchive ∈ printed r.
Proof.
  intros target Hexec Hs r.
  destruct (completes_run
              (λ c rep, match c with
                        | UID_FETCH _ _ =>
                            omap (sender_match target) (items rep) = []
                        | _ => True
                        end)
              (λ matched_uids, matched_uids = []) inv exec
              (scan_inbox_uids_by_sender target) s)
    as (matched & Hscan & ->).
  { intros c s' Hs'. destruct (Hexec c s' Hs') as (? & rep & ? & ?).
    split; [done|]. exists rep. split; [done|]. by destruct c. }
  { done. }
  { apply scan_inbox_nothing. }
  split; [done|]. unfold r. rewrite run_archive_messages. fold target.
  cbv zeta. rewrite Hscan, run_archive_matched_nil.
  cbn [result trace printed sent].
  split_and!; [done| |by right; apply elem_of_app; right; left].
  unfold sent. cbn [trace]. rewrite app_nil_r.
  by apply (sends_run read_only), scan_inbox_reads_only.
Qed.

(** The archive of the [deals] message of the small mailbox, run twice. *)
Lemma rerun_matches_nothing_witness :
  let first :=
    run Mailbox.exec
      (archive_messages ["Deals@shop.example.com"] false None)
      (Mailbox.two_messages true) in
  let again :=
    run Mailbox.exec
      (archive_messages ["Deals@shop.example.com"] false None)
      (server first) in
  result first = Some 1%nat
  ∧ Mailbox.uid <$> Mailbox.inbox (server first) = ["102"]
  ∧ result again = Some 0%nat
  ∧ Forall read_only (sent again)
  ∧ NoMessagesToArchive ∈ printed again.
Proof.
  cbv zeta. split; [by vm_compute|]. split; [by vm_compute|].
  set (inv := λ st : Mailbox.state,
         Mailbox.inbox st = []
         ∨ ∃ d, Mailbox.inbox st = [Mailbox.Stored "102" Mailbox.ann d]).
  apply (rerun_matches_nothing Mailbox.exec inv).
  - intros c [inb am sel keeps] Hinv. unfold inv in *. simpl in Hinv.
    destruct Hinv as [->|[d ->]].
    + destruct c; simpl; (split; [by left|]); by eexists.
    + destruct c; simpl; try (split; [by right; eexists|]; by eexists).
      * split; [by right; eexists|]. eexists. split; [reflexivity|]. simpl.
        unfold Mailbox.uid_items, Mailbox.numbered. simpl.
        rewrite filter_cons, filter_nil. simpl. by case_decide.
      * split; [|by eexists]. right. case_decide; by eexists.
      * split; [|by eexists]. rewrite filter_cons, filter_nil. simpl.
        case_decide; [right; by eexists|by left].
  - right. by exists false.
Defined.

(** *** A Gmail run that mutates *)

(** The messages a flagging request accounts for: those of its set when the
    server says [OK], none otherwise. *)
Definition flagged_by (entry : command * answer) : nat :=
  match entry with
  | (UID_STORE_DELETED uid_set, Answered rep) =>
      if OK rep then length uid_set else 0%nat
  | _ => 0%nat
  end.

Definition flagged (stores : list (command * answer)) : nat :=
  sum_list_with flagged_by stores.

Lemma flagged_cons entry stores :
  flagged (entry :: stores) = (flagged_by entry + flagged stores)%nat.
Proof. reflexivity. Qed.

Definition is_progress (n : notice) : Prop :=
  match n with
  | CopyFailed _ | StoreFailed _ | Flagged _ _ => True
  | _ => False
  end.

Definition verdict (pre post : nat) : notice :=
  if bool_decide (pre ≤ post)%nat then SafetyCheckPassed
  else WarningAllMailDecreased.

Section Answering.

Context {S : Type} (exec : command → S → answer * S).
Hypothesis answers : never_raises exec.

Lemma run_count_all_mail s :
  ∃ a found s',
    run exec count_all_mail s
    = Ran (Some (length (ids found))) s'
        [(SELECT ALL_MAIL true, Answered a); (SEARCH_ALL, Answered found)] [].
Proof.
  unfold count_all_mail. simpl.
  destruct (exec (SELECT ALL_MAIL true) s) as [a1 s1] eqn:H1.
  pose proof (answers (SELECT ALL_MAIL true) s) as Ha1. rewrite H1 in Ha1.
  destruct a1 as [|a]; [done|]. simpl.
  destruct (exec SEARCH_ALL s1) as [a2 s2] eqn:H2.
  pose proof (answers SEARCH_ALL s1) as Ha2. rewrite H2 in Ha2.
  destruct a2 as [|found]; [done|]. simpl. by exists a, found, s2.
Qed.

Lemma run_flag_batch_gmail folder total archived i batch s :
  ∃ rep progress s',
    run exec (flag_batch true folder total archived (i, batch)) s
    = Ran (Some (archived
                 + flagged_by (UID_STORE_DELETED batch, Answered rep))%nat)
        s' [(UID_STORE_DELETED batch, Answered rep)] progress
    ∧ Forall is_progress progress.
Proof.
  unfold flag_batch. simpl.
  destruct (exec (UID_STORE_DELETED batch) s) as [a1 s1] eqn:H1.
  pose proof (answers (UID_STORE_DELETED batch) s) as Ha1. rewrite H1 in Ha1.
  destruct a1 as [|rep]; [done|]. simpl. exists rep.
  unfold flagged_by. destruct (OK rep); simpl.
  - match goal with
    | |- context [if ?b then Print (Flagged _ _) _ else _] => destruct b
    end; simpl; eexists _, s1; (split; [reflexivity|]);
      by repeat constructor.
  - eexists _, s1. rewrite Nat.add_0_r. split; [reflexivity|].
    by repeat constructor.
Qed.

Lemma run_flag_loop_gmail folder total entries archived s :
  ∃ stores progress s',
    run exec (for_each entries (flag_batch true folder total) archived) s
    = Ran (Some (archived + flagged stores)%nat) s' stores progress
    ∧ stores.*1 = UID_STORE_DELETED <$> entries.*2
    ∧ Forall (λ e, ∃ rep, e.2 = Answered rep) stores
    ∧ Forall is_progress progress.
Proof.
  revert archived s. induction entries as [|[i batch] entries IH];
    intros archived s.
  { exists [], [], s. simpl. unfold flagged. simpl. rewrite Nat.add_0_r.
    by split_and!. }
  cbn [for_each]. rewrite run_bind.
  destruct (run_flag_batch_gmail folder total archived i batch s)
    as (rep & progress1 & s1 & -> & Hprogress1).
  unfold and_then. cbn [result server trace printed].
  destruct (IH (archived
                + flagged_by (UID_STORE_DELETED batch, Answered rep))%nat s1)
    as (stores & progress & s' & -> & Hsent & Hanswered & Hprogress).
  exists ((UID_STORE_DELETED batch, Answered rep) :: stores),
    (progress1 ++ progress), s'.
  cbn [result server trace printed]. split_and!.
  - f_equal. f_equal. rewrite flagged_cons. lia.
  - rewrite !fmap_cons. by rewrite Hsent.
  - constructor; [by exists rep|done].
  - by apply Forall_app.
Qed.

Lemma run_verify_gmail pre acct s :
  is_gmail acct = true →
  ∃ a4 post a5 s',
    run exec (verify_archive_safety pre acct) s
    = Ran (Some (bool_decide (pre ≤ length (ids post))%nat)) s'
        [(SELECT ALL_MAIL true, Answered a4); (SEARCH_ALL, Answered post);
         (SELECT "INBOX" false, Answered a5)] [].
Proof.
  intros Hgmail. unfold verify_archive_safety, count_all_mail.
  rewrite Hgmail. simpl.
  destruct (exec (SELECT ALL_MAIL true) s) as [a1 s1] eqn:H1.
  pose proof (answers (SELECT ALL_MAIL true) s) as Ha1. rewrite H1 in Ha1.
  destruct a1 as [|a4]; [done|]. simpl.
  destruct (exec SEARCH_ALL s1) as [a2 s2] eqn:H2.
  pose proof (answers SEARCH_ALL s1) as Ha2. rewrite H2 in Ha2.
  destruct a2 as [|post]; [done|]. simpl.
  destruct (exec (SELECT "INBOX" false) s2) as [a3 s3] eqn:H3.
  pose proof (answers (SELECT "INBOX" false) s2) as Ha3. rewrite H3 in Ha3.
  destruct a3 as [|a5]; [done|]. simpl. by exists a4, post, a5, s3.
Qed.

End Answering.

Lemma imap_snd {A B} (g : nat → B) (l : list A) :
  (imap (λ k x, (g k, x)) l).*2 = l.
Proof.
  revert g. induction l as [|x l IH]; intros g; [done|].
  cbn. f_equal. apply (IH (g ∘ Datatypes.S)).
Qed.

Lemma batches_at_batches {A} size (l : list A) :
  (batches_at size l).*2 = batches size l.
Proof. unfold batches_at. apply (imap_snd (λ k, (k * size)%nat)). Qed.

(** The end of a run returns the count it was given, whatever the check
    finds; an exception comes out of it only when the server raises in the
    check and again in the recovery that follows. *)
Lemma check_and_report_count {S} (exec : command → S → answer * S)
    pre acct archived s :
  let r := run exec (check_and_report pre acct archived) s in
  (∀ n, result r = Some n →
        n = archived ∧ Archived archived ∈ printed r
        ∧ (SafetyCheckPassed ∈ printed r ∨ WarningAllMailDecreased ∈ printed r))
  ∧ (result r = None →
     ∃ t c, trace r = t ++ [(c, Raised); (SELECT "INBOX" false, Raised)]).
Proof.
  unfold check_and_report, verify_archive_safety, count_all_mail.
  destruct (is_gmail acct); simpl.
  - repeat match goal with
           | |- context [match (exec ?c ?st).1 with _ => _ end] =>
               destruct (exec c st).1 eqn:?; simpl
           end;
      (split;
       [intros n [= <-] || (intros n ?; discriminate)
       |try (intros; discriminate)]).
    all: try (split; [done|]; split;
              [by repeat constructor
              |match goal with
               | |- context [bool_decide ?P] =>
                   destruct (bool_decide P); simpl
               | _ => idtac
               end; first [left; by repeat constructor
                          |right; by repeat constructor]]).
    all: intros _.
    + by eexists [], _.
    + by eexists [_], _.
    + by eexists [_; _], _.
  - split; [|done]. intros n [= <-]. split; [done|].
    split; [by repeat constructor|left; by repeat constructor].
Qed.

Lemma run_print_then {A S} (exec : command → S → answer * S) n
    (m : prog A) s :
  run exec (_ ← print n; m) s
  = let r := run exec m s in
    Ran (result r) (server r) (trace r) (n :: printed r).
Proof. reflexivity. Qed.

Lemma run_call_then {A S} (exec : command → S → answer * S) c
    (f : reply → prog A) s rep :
  (exec c s).1 = Answered rep →
  run exec (call c ≫= f) s
  = let r := run exec (f rep) (exec c s).2 in
    Ran (result r) (server r) ((c, Answered rep) :: trace r) (printed r).
Proof.
  intros Hrep.
  change (run exec (call c ≫= f) s)
    with (let r := run exec (match (exec c s).1 with
                             | Raised => Raise
                             | Answered r => Ret r
                             end ≫= f) (exec c s).2 in
          Ran (result r) (server r) ((c, (exec c s).1) :: trace r)
            (printed r)).
  by rewrite Hrep.
Qed.

(** The part of a mutating Gmail run that follows the scan, request by
    request, when the server answers them all. *)
Lemma run_archive_matched_gmail {S} (exec : command → S → answer * S)
    no_match matched_uids acct s :
  never_raises exec → is_gmail acct = true → matched_uids ≠ [] →
  ∃ a1 pre a2 stores a3 a4 post a5 progress s',
    run exec (archive_matched no_match matched_uids false acct) s
    = Ran (Some (flagged stores)) s'
        ([(SELECT ALL_MAIL true, Answered a1); (SEARCH_ALL, Answered pre);
          (SELECT "INBOX" false, Answered a2)]
         ++ stores
         ++ [(EXPUNGE, Answered a3); (SELECT ALL_MAIL true, Answered a4);
             (SEARCH_ALL, Answered post);
             (SELECT "INBOX" false, Answered a5)])
        (progress
         ++ [Expunging; verdict (length (ids pre)) (length (ids post));
             Archived (flagged stores)])
    ∧ stores.*1 = UID_STORE_DELETED <$> batches 200 matched_uids
    ∧ Forall is_progress progress.
Proof.
  intros Hanswers Hgmail Hne.
  destruct matched_uids as [|u rest]; [done|].
  unfold archive_matched. rewrite Hgmail. cbv beta iota.
  set (matched_uids := u :: rest).
  rewrite run_bind, run_bind.
  destruct (run_count_all_mail exec Hanswers s) as (a1 & pre & s1 & ->).
  unfold and_then at 2. cbn [result server trace printed].
  unfold and_then at 1. cbn [result server trace printed run].
  destruct (run_call exec (SELECT "INBOX" false) s1 Hanswers)
    as (a2 & Ha2 & _).
  rewrite (run_call_then exec _ _ s1 a2 Ha2). cbv zeta.
  rewrite run_bind.
  destruct (run_flag_loop_gmail exec Hanswers "" (length matched_uids)
              (batches_at 200 matched_uids) 0%nat
              (exec (SELECT "INBOX" false) s1).2)
    as (stores & progress & s2 & -> & Hstores & _ & Hprogress).
  unfold and_then. cbn [result server trace printed].
  rewrite run_print_then. cbv zeta.
  destruct (run_call exec EXPUNGE s2 Hanswers) as (a3 & Ha3 & _).
  rewrite (run_call_then exec _ _ s2 a3 Ha3). cbv zeta.
  unfold check_and_report. rewrite run_bind.
  destruct (run_verify_gmail exec Hanswers (length (ids pre)) acct
              (exec EXPUNGE s2).2 Hgmail) as (a4 & post & a5 & s3 & ->).
  unfold and_then. cbn [result server trace printed].
  rewrite !run_print_then. cbn [result server trace printed run].
  exists a1, pre, a2, stores, a3, a4, post, a5, progress, s3.
  split_and!; [|by rewrite Hstores, batches_at_batches|done].
  rewrite Nat.add_0_l. f_equal.
Qed.

(** C6: a Gmail run that mutates asks for the count of All Mail before it
    flags anything, flags batch by batch, expunges once, and asks for the
    count again; it returns the number of messages of the batches that the
    server flagged, and prints the warning exactly when the second count is
    lower than the first.  The end of the run returns the count it is given
    whatever the check finds (an exception comes out only if the server
    raises in the check and again in the recovery).  For an account that is
    not Gmail the check passes without a request. *)
Theorem safety_check_only_warns {S} (exec : command → S → answer * S) (s : S)
    (archive_senders : list string) (acct : option account) :
  let target : gset string := list_to_set (lower <$> archive_senders) in
  let scan := run exec (scan_inbox_uids_by_sender target) s in
  let r := run exec (archive_messages archive_senders false acct) s in
  (is_gmail acct = false →
   ∀ pre s', run exec (verify_archive_safety pre acct) s'
             = Ran (Some true) s' [] [])
  ∧ (∀ pre archived s',
       let ending := run exec (check_and_report pre acct archived) s' in
       (∀ n, result ending = Some n →
             n = archived ∧ Archived archived ∈ printed ending
             ∧ (SafetyCheckPassed ∈ printed ending
                ∨ WarningAllMailDecreased ∈ printed ending))
       ∧ (result ending = None →
          ∃ t c, trace ending
                 = t ++ [(c, Raised); (SELECT "INBOX" false, Raised)]))
  ∧ (never_raises exec → is_gmail acct = true →
     ∀ matched_uids, result scan = Some matched_uids → matched_uids ≠ [] →
     ∃ a1 pre a2 stores a3 a4 post a5 progress,
       trace r
       = trace scan
         ++ [(SELECT ALL_MAIL true, Answered a1); (SEARCH_ALL, Answered pre);
             (SELECT "INBOX" false, Answered a2)]
         ++ stores
         ++ [(EXPUNGE, Answered a3); (SELECT ALL_MAIL true, Answered a4);
             (SEARCH_ALL, Answered post);
             (SELECT "INBOX" false, Answered a5)]
       ∧ stores.*1 = UID_STORE_DELETED <$> batches 200 matched_uids
       ∧ result r = Some (flagged stores)
       ∧ printed r
         = Scanning :: printed scan ++ progress
           ++ [Expunging; verdict (length (ids pre)) (length (ids post));
               Archived (flagged stores)]
       ∧ Forall is_progress progress).
Proof.
  intros target scan r. split_and!.
  - intros Hother pre s'. unfold verify_archive_safety. by rewrite Hother.
  - intros pre archived s'. apply check_and_report_count.
  - intros Hanswers Hgmail matched_uids Hscan Hne.
    destruct (run_archive_matched_gmail exec NoMessagesToArchive matched_uids
                acct (server scan) Hanswers Hgmail Hne)
      as (a1 & pre & a2 & stores & a3 & a4 & post & a5 & progress & s'
          & Hrest & Hstores & Hprogress).
    exists a1, pre, a2, stores, a3, a4, post, a5, progress.
    unfold r. rewrite run_archive_messages. fold target. fold scan.
    cbv zeta. rewrite Hscan, Hrest. cbn [result server trace printed].
    by split_and!.
Qed.

(** A server that drops an expunged message from All Mail: the run warns,
    and returns the one message it flagged. *)
Lemma safety_check_only_warns_witness :
  let r :=
    run Mailbox.exec (archive_messages ["Deals@shop.example.com"] false None)
      (Mailbox.two_messages false) in
  never_raises Mailbox.exec
  ∧ is_gmail None = true
  ∧ result r = Some 1%nat
  ∧ WarningAllMailDecreased ∈ printed r
  ∧ ∃ stores, stores.*1 = UID_STORE_DELETED <$> batches 200 ["101"]
              ∧ result r = Some (flagged stores).
Proof.
  cbv zeta.
  assert (Hanswers : never_raises Mailbox.exec).
  { intros c st. by destruct c. }
  split; [done|]. split; [done|]. split; [by vm_compute|].
  split; [by_compute|].
  destruct (safety_check_only_warns Mailbox.exec (Mailbox.two_messages false)
              ["Deals@shop.example.com"] None) as (_ & _ & Hrun).
  destruct (Hrun Hanswers eq_refl ["101"])
    as (a1 & pre & a2 & stores & a3 & a4 & post & a5 & progress
        & _ & Hstores & Hresult & _); [by vm_compute|done|].
  by exists stores.
Defined.

(** *** Which messages an archive run addresses *)

(** The UIDs a request copies or flags. *)
Definition targets (c : command) : list string :=
  match c with
  | UID_COPY uid_set _ | UID_STORE_DELETED uid_set => uid_set
  | _ => []
  end.

(** [uid] is read off the line of a message in a reply to a [UID FETCH]
    among the exchanges [t]. *)
Definition revealed (t : list (command * answer)) (uid : string) : Prop :=
  ∃ batch parts rep resp_line literal,
    (UID_FETCH batch parts, Answered rep) ∈ t
    ∧ Tuple resp_line literal ∈ items rep
    ∧ uid_of resp_line = Some uid.

(** A test of a reply's element that answers with the UID of its line. *)
Definition reads_uid (matches : item (option headers) → option string)
    : Prop :=
  ∀ it u, matches it = Some u →
          ∃ resp_line literal,
            it = Tuple resp_line literal ∧ uid_of resp_line = Some u.

Lemma revealed_app_l t t' u : revealed t u → revealed (t ++ t') u.
Proof.
  intros (batch & parts & rep & line & lit & Hin & Hrest).
  exists batch, parts, rep, line, lit. split; [|done].
  apply elem_of_app. by left.
Qed.

Lemma revealed_app_r t t' u : revealed t' u → revealed (t ++ t') u.
Proof.
  intros (batch & parts & rep & line & lit & Hin & Hrest).
  exists batch, parts, rep, line, lit. split; [|done].
  apply elem_of_app. by right.
Qed.

Lemma read_only_targets c : read_only c → targets c = [].
Proof. by destruct c. Qed.

Lemma sender_match_reads_uid target_senders :
  reads_uid (sender_match target_senders).
Proof.
  intros [text|resp_line literal] u; [done|]. simpl.
  destruct (uid_of resp_line) as [uid_val|] eqn:Huid; [|done]. simpl.
  destruct literal as [msg|]; [|done]. simpl.
  case_decide; [|done]. intros [= <-]. by exists resp_line, (Some msg).
Qed.

(** Every UID a scan returns was read off a reply of that scan. *)
Lemma scan_inbox_reveals parts matches :
  reads_uid matches →
  yields (λ t matched_uids, Forall (revealed t) matched_uids)
    (scan_inbox parts matches).
Proof.
  intros Hmatches. unfold scan_inbox.
  eapply (yields_bind (λ _ _, True)); [by apply yields_call|].
  intros t1 _ _.
  eapply (yields_bind (λ _ _, True)); [by apply yields_call|].
  intros t2 found _.
  eapply yields_weaken;
    [|apply (yields_for_each (λ t st, Forall (revealed t) st) _ _ []);
      [|by apply Forall_nil]].
  { intros t matched. simpl. intros Hall.
    eapply Forall_impl; [done|]. intros u Hu.
    by apply revealed_app_r, revealed_app_r. }
  intros t matched [i batch] Hall [|rep]; [done|]. simpl.
  apply Forall_app. split.
  - eapply Forall_impl; [done|]. intros u. apply revealed_app_l.
  - apply Forall_forall. intros u Hu.
    apply list_elem_of_omap in Hu as (it & Hit & Hu).
    destruct (Hmatches it u Hu) as (line & lit & -> & Huid).
    apply revealed_app_r. exists batch, parts, rep, line, lit.
    split; [by left|done].
Qed.

Lemma sends_for_each_in {X St} P (xs : list X) (body : St → X → prog St) st :
  (∀ st x, x ∈ xs → sends P (body st x)) → sends P (for_each xs body st).
Proof.
  revert st. induction xs as [|x xs IH]; intros st Hbody; [done|].
  apply sends_bind; [apply Hbody; by left|]. intros st'.
  apply IH. intros st'' y Hy. apply Hbody. by right.
Qed.

Lemma batches_at_subseteq {A} size (l : list A) i batch :
  (0 < size)%nat → (i, batch) ∈ batches_at size l → batch ⊆ l.
Proof.
  intros Hsize Hin x Hx.
  rewrite <-(concat_batches size l Hsize), <-batches_at_batches.
  apply list_elem_of_In, in_concat. exists batch.
  split; apply list_elem_of_In; [|done].
  apply list_elem_of_fmap. by exists (i, batch).
Qed.

(** What follows the resolution copies and flags matched UIDs only. *)
Lemma archive_matched_targets no_match matched_uids dry_run acct :
  sends (λ c, targets c ⊆ matched_uids)
    (archive_matched no_match matched_uids dry_run acct).
Proof.
  assert (Hnone : ∀ c, targets c = [] → targets c ⊆ matched_uids).
  { intros c ->. apply list_subseteq_nil. }
  unfold archive_matched. destruct matched_uids as [|u us] eqn:Hus; [done|].
  rewrite <-Hus in *. clear Hus. destruct dry_run; [done|].
  apply sends_bind.
  { destruct (is_gmail acct).
    - apply sends_bind; [|done]. unfold count_all_mail.
      apply sends_bind; [by apply sends_call, Hnone|]. intros _.
      apply sends_bind; [by apply sends_call, Hnone|]. done.
    - apply sends_bind; [|by intros [folder|]]. unfold ensure_archive_folder.
      apply sends_bind; [by apply sends_call, Hnone|]. intros listed.
      destruct (existsb _ _); [done|].
      apply sends_bind; [by apply sends_call, Hnone|].
      intros made. destruct (OK made); [done|].
      apply sends_bind; [by apply sends_call, Hnone|]. intros made'.
      by destruct (OK made'). }
  intros [[pre folder]|]; [|done].
  apply sends_bind; [by apply sends_call, Hnone|]. intros _.
  apply sends_bind.
  - apply sends_for_each_in. intros archived [i batch] Hin.
    apply batches_at_subseteq in Hin; [|lia]. unfold flag_batch.
    apply sends_bind.
    { destruct (is_gmail acct); [done|].
      apply sends_bind; [by apply sends_call|]. done. }
    intros copied. destruct (negb copied); [done|].
    apply sends_bind; [by apply sends_call|]. intros stored.
    destruct (negb (OK stored)); [done|]. by destruct (_ || _).
  - intros archived. apply sends_bind; [done|]. intros _.
    apply sends_bind; [by apply sends_call, Hnone|]. intros _.
    unfold check_and_report. apply sends_bind.
    + unfold verify_archive_safety. destruct (negb (is_gmail acct)); [done|].
      apply sends_catch.
      * apply sends_bind.
        { unfold count_all_mail.
          apply sends_bind; [by apply sends_call, Hnone|]. intros _.
          apply sends_bind; [by apply sends_call, Hnone|]. done. }
        intros post. apply sends_bind; [by apply sends_call, Hnone|]. done.
      * apply sends_bind; [by apply sends_call, Hnone|]. done.
    + intros safe. by destruct safe.
Qed.

(** The UIDs a run addresses after a scan were read off replies that came
    before the request. *)
Lemma targets_revealed (scanned rest : list (command * answer)) matched_uids
    t1 c a t2 u :
  Forall read_only scanned.*1 →
  Forall (revealed scanned) matched_uids →
  Forall (λ c, targets c ⊆ matched_uids) rest.*1 →
  scanned ++ rest = t1 ++ (c, a) :: t2 →
  u ∈ targets c → revealed t1 u.
Proof.
  intros Hscan Hmatched Hrest Heq Hu.
  assert (Hin_rest : ∀ l, (c, a) ∈ rest → revealed (scanned ++ l) u).
  { intros l Hin. apply revealed_app_l.
    rewrite Forall_forall in Hmatched. apply Hmatched.
    rewrite Forall_forall in Hrest. apply (Hrest c); [|done].
    apply list_elem_of_fmap. by exists (c, a). }
  assert (Hin_scan : (c, a) ∈ scanned → False).
  { intros Hin. rewrite Forall_forall in Hscan.
    rewrite (read_only_targets c) in Hu; [by apply elem_of_nil in Hu|].
    apply Hscan, list_elem_of_fmap. by exists (c, a). }
  apply app_eq_app in Heq as [l [[-> Heq]|[-> ->]]].
  - destruct l as [|e l].
    + specialize (Hin_rest []). rewrite !app_nil_r in Hin_rest.
      apply Hin_rest. simpl in Heq. rewrite <-Heq. by left.
    + simpl in Heq. injection Heq as <- _. destruct Hin_scan.
      apply elem_of_app. right. by left.
  - apply Hin_rest. apply elem_of_app. right. by left.
Qed.

End Archive.

(** ** The refinement engine: [phase2_analyse]

    Instants are microseconds since the epoch, the resolution of [datetime];
    a [timedelta] is a difference of instants.  The parsing of a date string
    ([datetime.fromisoformat], then [parsedate_to_datetime], then UTC for a
    naive value) is library code and stays a parameter. *)
Module Refine.
Import PyStr.

(** A record of [pass2_classification.json] (or [pass2_remaining.json],
    where [category] and [reason] are absent). *)
Record message := Message {
  msg_id : string;
  from_email : string;
  from_name : string;
  subject : string;
  date : string;
  category : option string;
  reason : option string;
}.

Definition KEEP_CATEGORIES : gset string := {[ "urgent"; "action_needed" ]}.

Definition HOUR : Z := 3600 * 1000000.
Definition DAY : Z := 24 * HOUR.

Definition _normalise_subject (subj : string) : string :=
  collapse_spaces (strip (strip_reply_prefix subj)).

Definition _first_n_words (text : string) (n : nat) : string :=
  join " " (lower <$> take n (split text)).

Definition word_set (s : string) : gset string := list_to_set (split (lower s)).

(** The quotient is a [float] in the source; it is kept exact here.  The one
    use compares it with [0.6]: for fewer than 2^50 words, rounding the
    quotient of two integers and rounding 3/5 preserve the order between
    them, so the comparison is the one on rationals. *)
Definition _jaccard (a b : string) : Q :=
  let sa := word_set a in
  let sb := word_set b in
  if decide (sa = ∅ ∨ sb = ∅) then 0%Q
  else (Z.of_nat (size (sa ∩ sb)) # Pos.of_nat (size (sa ∪ sb)))%Q.

Definition _is_notification_like (msg : message) : bool :=
  let addr := from_email msg in
  let subj := lower (subject msg) in
  any_in ["noreply"; "no-reply"; "notify"; "notification"; "alerts";
          "mailer-daemon"] addr
  || any_in ["notification"; "alert"; "reminder"; "update"; "digest"] subj.

Definition _is_receipt_like (msg : message) : bool :=
  any_in ["receipt"; "confirmation"; "order"; "invoice"; "payment";
          "shipped"; "delivered"] (lower (subject msg)).

Definition _is_newsletter_like (msg : message) : bool :=
  let subj := lower (subject msg) in
  let addr := from_email msg in
  let reason := lower (default "" (reason msg)) in
  (contains "newsletter" subj || contains "digest" subj
   || contains "weekly" subj || contains "monthly" subj)
  || (contains "marketing" reason || contains "newsletter" reason
      || contains "promotional" reason)
  || any_in ["newsletter"; "digest"; "marketing"; "campaign"; "promo"] addr.

Definition _is_security_alert (msg : message) : bool :=
  any_in ["security alert"; "sign-in"; "signin"; "login"; "password";
          "verification code"; "2fa"; "two-factor"] (lower (subject msg)).

Definition _is_financial (msg : message) : bool :=
  let reason := lower (default "" (reason msg)) in
  let subj := lower (subject msg) in
  any_in ["financial"; "tax"; "hmrc"; "bank"; "accountant"; "invoice"] reason
  || any_in ["tax"; "hmrc"; "p60"; "p45"; "self assessment"; "statement";
             "bank"] subj.

(** An entry of a time-decay bucket. *)
Record msg_ref := MsgRef {
  ref_msg_id : string;
  ref_from_email : string;
  ref_subject : string;
  ref_date : string;
  days_old : Z;
}.

(** The dictionary [time_decay], one field per key. *)
Record decay_buckets := Buckets {
  notifications_over_7d : list msg_ref;
  receipts_over_90d : list msg_ref;
  security_over_30d : list msg_ref;
  newsletters_over_14d : list msg_ref;
  older_than_12mo : list msg_ref;
}.

Definition no_decay : decay_buckets := Buckets [] [] [] [] [].

(** An entry of [dedup_groups]. *)
Record burst_group := Group {
  group_key : string;
  sender : string;
  pattern : string;
  total_in_burst : nat;
  keep_msg_id : string;
  archive_msg_ids : list string;
}.

(** The ids and counts of the report [phase2_analysis.json]; the sender
    patterns, which no id set depends on, are left out. *)
Record analysis := Analysis {
  total_remaining : nat;
  time_decay : decay_buckets;
  dedup_groups : list burst_group;
  already_classified_archive : nat;
  time_decay_archive : nat;
  dedup_archive : nat;
  flagged_for_review_12mo : nat;
  archive_ids : gset string;
  keep_ids : gset string;
}.

Section Engine.

(** [datetime.fromisoformat] with its fallbacks; [None] when all fail. *)
Variable parse_datetime : string → option Z.

Definition _parse_date (date_str : string) : option Z :=
  if decide (date_str = "") then None else parse_datetime date_str.

(** [(now - dt).days]: [timedelta] keeps its days floored. *)
Definition _days_old (date_str : string) (now : Z) : option Z :=
  dt ← _parse_date date_str; Some ((now - dt) / DAY).

(** *** Time decay *)

Definition make_ref (msg : message) (days : Z) : msg_ref :=
  MsgRef (msg_id msg) (from_email msg) (subject msg) (date msg) days.

(** The [if / elif] chain: at most one of the four archive buckets. *)
Definition decay_bucket (msg : message) (days : Z) (b : decay_buckets)
    : decay_buckets :=
  let msg_ref := make_ref msg days in
  if _is_notification_like msg && (7 <? days) then
    Buckets (notifications_over_7d b ++ [msg_ref]) (receipts_over_90d b)
      (security_over_30d b) (newsletters_over_14d b) (older_than_12mo b)
  else if _is_receipt_like msg && (90 <? days) && negb (_is_financial msg) then
    Buckets (notifications_over_7d b) (receipts_over_90d b ++ [msg_ref])
      (security_over_30d b) (newsletters_over_14d b) (older_than_12mo b)
  else if _is_security_alert msg && (30 <? days) then
    Buckets (notifications_over_7d b) (receipts_over_90d b)
      (security_over_30d b ++ [msg_ref]) (newsletters_over_14d b)
      (older_than_12mo b)
  else if _is_newsletter_like msg && (14 <? days) then
    Buckets (notifications_over_7d b) (receipts_over_90d b)
      (security_over_30d b) (newsletters_over_14d b ++ [msg_ref])
      (older_than_12mo b)
  else b.

Definition review_bucket (msg : message) (days : Z) (b : decay_buckets)
    : decay_buckets :=
  if 365 <? days then
    Buckets (notifications_over_7d b) (receipts_over_90d b)
      (security_over_30d b) (newsletters_over_14d b)
      (older_than_12mo b ++ [make_ref msg days])
  else b.

(** One turn of [for msg in remaining], with its three [continue]s. *)
Definition decay_step (now : Z) (b : decay_buckets) (msg : message)
    : decay_buckets :=
  let cat := default "" (category msg) in
  if decide (cat ∈ KEEP_CATEGORIES) then b
  else match _days_old (date msg) now with
       | None => b
       | Some days =>
           if _is_financial msg then b
           else review_bucket msg days (decay_bucket msg days b)
       end.

Definition time_decay_of (now : Z) (remaining : list message)
    : decay_buckets :=
  foldl (decay_step now) no_decay remaining.

(** *** Burst dedup *)

(** [sender_groups[msg["from_email"]].append(msg)] on a dictionary that
    keeps its keys in the order of first insertion. *)
Fixpoint group_add (msg : message) (groups : list (string * list message))
    : list (string * list message) :=
  match groups with
  | [] => [(from_email msg, [msg])]
  | (s, msgs) :: rest =>
      if decide (s = from_email msg) then (s, msgs ++ [msg]) :: rest
      else (s, msgs) :: group_add msg rest
  end.

Definition sender_groups_of (remaining : list message)
    : list (string * list message) :=
  foldl (λ groups msg, group_add msg groups) [] remaining.

(** [dated]: the messages with a date that parses, each with its instant. *)
Definition dated_of (msgs : list message) : list (message * Z) :=
  omap (λ m, d ← _parse_date (date m); Some (m, d)) msgs.

(** [list.sort(key=lambda x: x[1])] is stable; so is this insertion sort,
    which puts an element before the equal ones that followed it. *)
Fixpoint insert_by_date (x : message * Z) (l : list (message * Z))
    : list (message * Z) :=
  match l with
  | [] => [x]
  | y :: r => if x.2 <=? y.2 then x :: l else y :: insert_by_date x r
  end.

Definition sort_by_date (l : list (message * Z)) : list (message * Z) :=
  foldr insert_by_date [] l.

Definition similar (mi mj : message) : bool :=
  let subj_i := _normalise_subject (subject mi) in
  let subj_j := _normalise_subject (subject mj) in
  bool_decide (_first_n_words subj_i 4 = _first_n_words subj_j 4)
  || Qle_bool (6 # 10) (_jaccard subj_i subj_j).

(** The inner loop [for j in range(i + 1, len(dated))] for the window that
    starts at [first]: it stops at the first message later than 24 hours. *)
Fixpoint burst_tail (first : message * Z) (rest : list (message * Z))
    : list (message * Z) :=
  match rest with
  | [] => []
  | dj :: rest' =>
      if dj.2 - first.2 <=? 24 * HOUR then
        if similar first.1 dj.1 then dj :: burst_tail first rest'
        else burst_tail first rest'
      else []
  end.

(** The dictionary appended to [dedup_groups] for a burst sorted by date:
    [keep = burst[-1]], [archive = burst[:-1]], and the key built from the
    subject of [burst[0]] as it stands. *)
Definition make_group (sender_email : string) (burst : list (message * Z))
    : option burst_group :=
  match head burst, last burst with
  | Some oldest, Some keep =>
      let archive := take (length burst - 1) burst in
      let pattern := _first_n_words (subject oldest.1) 4 in
      Some (Group (sender_email +:+ "|" +:+ pattern) sender_email pattern
              (length burst) (msg_id keep.1) ((λ a, msg_id a.1) <$> archive))
  | _, _ => None
  end.

(** The body of [if len(burst) >= 5], with its guard on the keys already
    reported. *)
Definition report_burst (sender_email : string) (burst : list (message * Z))
    (groups : list burst_group) : list burst_group :=
  match make_group sender_email (sort_by_date burst) with
  | Some g =>
      if decide (group_key g ∈ group_key <$> groups) then groups
      else groups ++ [g]
  | None => groups
  end.

(** [for i in range(len(dated))]: one window per start. *)
Fixpoint windows (sender_email : string) (dated : list (message * Z))
    (groups : list burst_group) : list burst_group :=
  match dated with
  | [] => groups
  | first :: rest =>
      let burst := first :: burst_tail first rest in
      windows sender_email rest
        (if (5 <=? length burst)%nat then report_burst sender_email burst groups
         else groups)
  end.

Definition dedup_sender (groups : list burst_group)
    (entry : string * list message) : list burst_group :=
  let '(sender_email, msgs) := entry in
  if (length msgs <? 5)%nat then groups
  else windows sender_email (sort_by_date (dated_of msgs)) groups.

Definition dedup_groups_of (remaining : list message) : list burst_group :=
  foldl dedup_sender [] (sender_groups_of remaining).

(** *** The id sets *)

Definition ids_of (msgs : list message) : gset string :=
  list_to_set (msg_id <$> msgs).

Definition ref_ids (bucket : list msg_ref) : gset string :=
  list_to_set (ref_msg_id <$> bucket).

(** [td_ids]: every bucket but [older_than_12mo]. *)
Definition td_ids_of (b : decay_buckets) : gset string :=
  ref_ids (notifications_over_7d b) ∪ ref_ids (receipts_over_90d b)
  ∪ ref_ids (security_over_30d b) ∪ ref_ids (newsletters_over_14d b).

Definition dedup_ids_of (groups : list burst_group) : gset string :=
  ⋃ ((λ g, list_to_set (archive_msg_ids g)) <$> groups).

Definition is_archive (m : message) : Prop := category m = Some "archive".

Global Instance is_archive_dec m : Decision (is_archive m).
Proof. unfold is_archive. apply _. Defined.

(** [phase2_analyse], from the loaded messages and the clock to the report. *)
Definition phase2_analyse (messages : list message) (now : Z) : analysis :=
  let already_archive := filter is_archive messages in
  let remaining := filter (λ m, ¬ is_archive m) messages in
  let time_decay := time_decay_of now remaining in
  let dedup_groups := dedup_groups_of remaining in
  let td_ids := td_ids_of time_decay in
  let dedup_ids := dedup_ids_of dedup_groups in
  let archive_ids := ids_of already_archive ∪ td_ids ∪ dedup_ids in
  let all_ids := ids_of messages in
  let keep_ids := all_ids ∖ archive_ids in
  Analysis (length messages) time_decay dedup_groups
    (length already_archive) (size td_ids) (size dedup_ids)
    (length (older_than_12mo time_decay)) archive_ids keep_ids.

(** *** What the time-decay loop computes *)

(** The age of a message that passes the three [continue]s. *)
Definition eligible (now : Z) (m : message) : option Z :=
  if decide (default "" (category m) ∈ KEEP_CATEGORIES) then None
  else days ← _days_old (date m) now;
       if _is_financial m then None else Some days.

Inductive bucket_name := Notifications | Receipts | Security | Newsletters.

Global Instance bucket_name_eq_dec : EqDecision bucket_name.
Proof. solve_decision. Defined.

(** The branch the [if / elif] chain takes. *)
Definition chosen (m : message) (days : Z) : option bucket_name :=
  if _is_notification_like m && (7 <? days) then Some Notifications
  else if _is_receipt_like m && (90 <? days) && negb (_is_financial m)
  then Some Receipts
  else if _is_security_alert m && (30 <? days) then Some Security
  else if _is_newsletter_like m && (14 <? days) then Some Newsletters
  else None.

(** The entries a selection of the eligible messages leaves, in order. *)
Definition refs_for (now : Z) (sel : message → Z → bool)
    (l : list message) : list msg_ref :=
  omap (λ m, days ← eligible now m;
             if sel m days then Some (make_ref m days) else None) l.

Definition in_bucket (k : bucket_name) (m : message) (days : Z) : bool :=
  bool_decide (chosen m days = Some k).

Definition in_review (_ : message) (days : Z) : bool := 365 <? days.

Definition buckets_app (b1 b2 : decay_buckets) : decay_buckets :=
  Buckets (notifications_over_7d b1 ++ notifications_over_7d b2)
    (receipts_over_90d b1 ++ receipts_over_90d b2)
    (security_over_30d b1 ++ security_over_30d b2)
    (newsletters_over_14d b1 ++ newsletters_over_14d b2)
    (older_than_12mo b1 ++ older_than_12mo b2).

Definition buckets_for (now : Z) (l : list message) : decay_buckets :=
  Buckets (refs_for now (in_bucket Notifications) l)
    (refs_for now (in_bucket Receipts) l)
    (refs_for now (in_bucket Security) l)
    (refs_for now (in_bucket Newsletters) l)
    (refs_for now in_review l).

Lemma buckets_app_nil_r b : buckets_app b no_decay = b.
Proof. destruct b; unfold buckets_app; simpl; by rewrite !app_nil_r. Qed.

Lemma buckets_app_assoc b1 b2 b3 :
  buckets_app (buckets_app b1 b2) b3 = buckets_app b1 (buckets_app b2 b3).
Proof. unfold buckets_app; simpl; by rewrite !app_assoc. Qed.

Lemma decay_step_single now b m :
  decay_step now b m = buckets_app b (buckets_for now [m]).
Proof.
  unfold decay_step, buckets_for, refs_for, eligible. simpl.
  destruct (decide (default "" (category m) ∈ KEEP_CATEGORIES)); simpl;
    [by rewrite buckets_app_nil_r|].
  destruct (_days_old (date m) now) as [days|]; simpl;
    [|by rewrite buckets_app_nil_r].
  destruct (_is_financial m) eqn:Hfin; simpl; [by rewrite buckets_app_nil_r|].
  unfold in_bucket, in_review, chosen, review_bucket, decay_bucket.
  rewrite Hfin.
  destruct b as [bn br bs bw bo]; unfold buckets_app; simpl.
  destruct (_is_notification_like m && (7 <? days));
    [|destruct (_is_receipt_like m && (90 <? days) && true);
      [|destruct (_is_security_alert m && (30 <? days));
        [|destruct (_is_newsletter_like m && (14 <? days))]]];
    destruct (365 <? days); simpl; by rewrite ?app_nil_r.
Qed.

Lemma refs_for_app now sel l1 l2 :
  refs_for now sel (l1 ++ l2) = refs_for now sel l1 ++ refs_for now sel l2.
Proof. apply omap_app. Qed.

Lemma buckets_for_app now l1 l2 :
  buckets_for now (l1 ++ l2)
  = buckets_app (buckets_for now l1) (buckets_for now l2).
Proof. unfold buckets_for, buckets_app; simpl. by rewrite !refs_for_app. Qed.

Lemma foldl_decay_step now l b :
  foldl (decay_step now) b l = buckets_app b (buckets_for now l).
Proof.
  revert b. induction l as [|m l IH]; intros b; simpl.
  - by rewrite buckets_app_nil_r.
  - rewrite IH, decay_step_single, buckets_app_assoc.
    by rewrite <- (buckets_for_app now [m] l).
Qed.

(** The loop leaves, in each bucket, the entries of the eligible messages
    the bucket selects, in the order of the input. *)
Lemma time_decay_of_spec now l : time_decay_of now l = buckets_for now l.
Proof.
  unfold time_decay_of. rewrite foldl_decay_step.
  by destruct (buckets_for now l).
Qed.

Lemma elem_of_refs_for now sel l r :
  r ∈ refs_for now sel l ↔
  ∃ m days, m ∈ l ∧ eligible now m = Some days ∧ sel m days = true
            ∧ r = make_ref m days.
Proof.
  unfold refs_for. rewrite list_elem_of_omap. split.
  - intros (m & Hm & Hr). destruct (eligible now m) as [days|] eqn:He;
      simpl in Hr; [|done].
    destruct (sel m days) eqn:Hs; [|done]. exists m, days. naive_solver.
  - intros (m & days & Hm & He & Hs & ->). exists m. split; [done|].
    rewrite He. simpl. by rewrite Hs.
Qed.

Lemma eligible_financial now m : _is_financial m = true → eligible now m = None.
Proof.
  intros Hfin. unfold eligible. case_decide; [done|].
  destruct (_days_old (date m) now); simpl; [|done]. by rewrite Hfin.
Qed.

Lemma refs_for_financial now sel m :
  _is_financial m = true → refs_for now sel [m] = [].
Proof. intros Hfin. unfold refs_for. simpl. by rewrite eligible_financial. Qed.

Lemma buckets_for_financial now l1 m l2 :
  _is_financial m = true →
  buckets_for now (l1 ++ m :: l2) = buckets_for now (l1 ++ l2).
Proof.
  intros Hfin. unfold buckets_for.
  rewrite !(refs_for_app now _ l1 (m :: l2)), !(refs_for_app now _ l1 l2).
  change (m :: l2) with ([m] ++ l2).
  by rewrite !(refs_for_app now _ [m] l2), !refs_for_financial.
Qed.

(** Every entry of the five buckets, review bucket included. *)
Definition entries (b : decay_buckets) : list msg_ref :=
  notifications_over_7d b ++ receipts_over_90d b ++ security_over_30d b
  ++ newsletters_over_14d b ++ older_than_12mo b.

Lemma entries_eligible now l r :
  r ∈ entries (buckets_for now l) →
  ∃ m days, m ∈ l ∧ eligible now m = Some days ∧ r = make_ref m days.
Proof.
  unfold entries, buckets_for; simpl. rewrite !elem_of_app, !elem_of_refs_for.
  intros [H|[H|[H|[H|H]]]]; destruct H as (m & days & ? & ? & _ & ?);
    by exists m, days.
Qed.

Lemma remaining_app (l1 l2 : list message) :
  filter (λ m, ¬ is_archive m) (l1 ++ l2)
  = filter (λ m, ¬ is_archive m) l1 ++ filter (λ m, ¬ is_archive m) l2.
Proof. apply filter_app. Qed.

(** C8: a message that the financial-record heuristic matches, by its subject
    or by its classification reason, is placed in no time-decay bucket,
    whatever its age: the five buckets are those of the input without it,
    and every entry of a bucket stems from a message the heuristic does not
    match. *)
Theorem financial_in_no_decay_bucket (before after : list message)
    (m : message) (now : Z) :
  _is_financial m = true →
  time_decay (phase2_analyse (before ++ m :: after) now)
  = time_decay (phase2_analyse (before ++ after) now)
  ∧ ∀ r, r ∈ entries (time_decay (phase2_analyse (before ++ m :: after) now)) →
      ∃ m' days, m' ∈ before ++ after ∧ _is_financial m' = false
                 ∧ r = make_ref m' days.
Proof.
  intros Hfin. unfold phase2_analyse; simpl.
  assert (Heq : time_decay_of now
                  (filter (λ m, ¬ is_archive m) (before ++ m :: after))
                = time_decay_of now
                    (filter (λ m, ¬ is_archive m) (before ++ after))).
  { rewrite !time_decay_of_spec, !remaining_app, filter_cons.
    destruct (decide (¬ is_archive m)); [|done].
    by apply buckets_for_financial. }
  split; [done|]. intros r. rewrite Heq, time_decay_of_spec.
  intros (m' & days & Hin & Hel & ->)%entries_eligible.
  exists m', days. split_and!; [|by apply not_true_is_false; intros Hf;
                                  rewrite (eligible_financial _ _ Hf) in Hel|done].
  by apply list_elem_of_filter in Hin as [_ ?].
Qed.

(** *** The id sets, by membership *)

Lemma elem_of_ids_of l x : x ∈ ids_of l ↔ ∃ m, m ∈ l ∧ msg_id m = x.
Proof.
  unfold ids_of. rewrite elem_of_list_to_set, list_elem_of_fmap.
  split; intros (m & ? & ?); by exists m.
Qed.

Lemma elem_of_ref_ids bucket x :
  x ∈ ref_ids bucket ↔ ∃ r, r ∈ bucket ∧ ref_msg_id r = x.
Proof.
  unfold ref_ids. rewrite elem_of_list_to_set, list_elem_of_fmap.
  split; intros (r & ? & ?); by exists r.
Qed.

Lemma elem_of_ref_ids_for now sel l x :
  x ∈ ref_ids (refs_for now sel l) ↔
  ∃ m days, m ∈ l ∧ eligible now m = Some days ∧ sel m days = true
            ∧ msg_id m = x.
Proof.
  rewrite elem_of_ref_ids. split.
  - intros (r & (m & days & ? & ? & ? & ->)%elem_of_refs_for & <-).
    by exists m, days.
  - intros (m & days & ? & ? & ? & <-). exists (make_ref m days).
    split; [|done]. apply elem_of_refs_for. by exists m, days.
Qed.

(** [td_ids] holds the ids of the eligible messages that the [if / elif]
    chain sends to one of the four archive buckets. *)
Lemma elem_of_td_ids now l x :
  x ∈ td_ids_of (buckets_for now l) ↔
  ∃ m days k, m ∈ l ∧ eligible now m = Some days ∧ chosen m days = Some k
              ∧ msg_id m = x.
Proof.
  unfold td_ids_of, buckets_for; simpl.
  rewrite !elem_of_union, !elem_of_ref_ids_for. unfold in_bucket. split.
  - intros [[[H|H]|H]|H]; destruct H as (m & days & ? & ? & Hk & ?);
      apply bool_decide_eq_true in Hk; by eexists m, days, _.
  - intros (m & days & k & ? & ? & Hk & ?).
    assert (bool_decide (chosen m days = Some k) = true)
      by by apply bool_decide_eq_true.
    destruct k; [left; left; left|left; left; right|left; right|right];
      by exists m, days.
Qed.

Lemma elem_of_dedup_ids groups x :
  x ∈ dedup_ids_of groups ↔ ∃ g, g ∈ groups ∧ x ∈ archive_msg_ids g.
Proof.
  unfold dedup_ids_of. rewrite elem_of_union_list. split.
  - intros (X & (g & -> & ?)%list_elem_of_fmap & Hx).
    exists g. split; [done|]. by apply elem_of_list_to_set in Hx.
  - intros (g & ? & ?). exists (list_to_set (archive_msg_ids g)).
    split; [|by apply elem_of_list_to_set].
    apply list_elem_of_fmap. by exists g.
Qed.

(** C1, as the code has it.  The archive set is the union the claim names,
    and the keep set is its complement over the ids of the input.  The review
    bucket holds the messages of the analysed remainder (not classified
    archive) that pass the three guards of the decay loop (category not in
    the never-expire set, a date that parses, not a financial record) and
    are older than 365 days; it feeds the review count only: the id of such
    a message is archived only if it is also the id of a message classified
    archive, of a hit of one of the four archive buckets, or of a member of
    a reported burst other than its keeper. *)
Theorem archive_set_arithmetic (messages : list message) (now : Z) :
  let a := phase2_analyse messages now in
  let remaining := filter (λ m, ¬ is_archive m) messages in
  let classified x := ∃ m, m ∈ messages ∧ is_archive m ∧ msg_id m = x in
  let decayed x :=
    ∃ m days k, m ∈ remaining ∧ eligible now m = Some days
                ∧ chosen m days = Some k ∧ msg_id m = x in
  let duplicate x := ∃ g, g ∈ dedup_groups a ∧ x ∈ archive_msg_ids g in
  (∀ x, x ∈ archive_ids a ↔ classified x ∨ decayed x ∨ duplicate x)
  ∧ (∀ x, x ∈ keep_ids a ↔
          (∃ m, m ∈ messages ∧ msg_id m = x) ∧ x ∉ archive_ids a)
  ∧ older_than_12mo (time_decay a) = refs_for now in_review remaining
  ∧ flagged_for_review_12mo a = length (refs_for now in_review remaining)
  ∧ (∀ m days,
       m ∈ remaining → eligible now m = Some days → 365 < days →
       make_ref m days ∈ older_than_12mo (time_decay a)
       ∧ (¬ classified (msg_id m) → ¬ decayed (msg_id m) →
          ¬ duplicate (msg_id m) →
          (msg_id m ∉ archive_ids a) ∧ msg_id m ∈ keep_ids a)).
Proof.
  intros a remaining classified decayed duplicate.
  assert (Harch : ∀ x, x ∈ archive_ids a ↔
                       classified x ∨ decayed x ∨ duplicate x).
  { intros x. unfold a, phase2_analyse; simpl.
    rewrite !elem_of_union, elem_of_ids_of, time_decay_of_spec,
      elem_of_td_ids, elem_of_dedup_ids.
    unfold classified, decayed, duplicate, a, phase2_analyse; simpl.
    split.
    - intros [[(m & [? ?]%list_elem_of_filter & ?)|?]|?]; eauto 10.
    - intros [(m & ? & ? & ?)|[?|?]]; eauto.
      left; left. exists m. split; [|done]. by apply list_elem_of_filter. }
  assert (Hkeep : ∀ x, x ∈ keep_ids a ↔
                       (∃ m, m ∈ messages ∧ msg_id m = x) ∧ x ∉ archive_ids a).
  { intros x. unfold a, phase2_analyse; simpl.
    by rewrite elem_of_difference, elem_of_ids_of. }
  assert (Hrev : older_than_12mo (time_decay a)
                 = refs_for now in_review remaining).
  { unfold a, phase2_analyse; simpl. by rewrite time_decay_of_spec. }
  split_and!; [done|done|done| |].
  - unfold a, phase2_analyse; simpl. by rewrite time_decay_of_spec.
  - intros m days Hin Hel Hold. split.
    + rewrite Hrev. apply elem_of_refs_for. exists m, days.
      split_and!; [done|done| |done]. unfold in_review. by apply Z.ltb_lt.
    + intros Hc Ht Hd.
      assert (msg_id m ∉ archive_ids a) by (rewrite Harch; tauto).
      split; [done|]. apply Hkeep. split; [|done]. exists m.
      split; [|done]. by apply list_elem_of_filter in Hin as [_ ?].
Qed.

(** *** The sort and the windows of the dedup stage *)

Definition by_date (x y : message * Z) : Prop := x.2 ≤ y.2.

Lemma insert_by_date_perm x l : insert_by_date x l ≡ₚ x :: l.
Proof.
  induction l as [|y l IH]; simpl; [done|].
  destruct (x.2 <=? y.2); [done|]. rewrite IH. apply Permutation_swap.
Qed.

Lemma sort_by_date_perm l : sort_by_date l ≡ₚ l.
Proof.
  induction l as [|x l IH]; simpl; [done|].
  by rewrite insert_by_date_perm, IH.
Qed.

Lemma sort_by_date_length l : length (sort_by_date l) = length l.
Proof. by rewrite sort_by_date_perm. Qed.

Lemma insert_by_date_sorted x l :
  StronglySorted by_date l → StronglySorted by_date (insert_by_date x l).
Proof.
  induction 1 as [|y l Hl IH Hy]; simpl.
  - repeat constructor.
  - destruct (x.2 <=? y.2) eqn:Hxy.
    + apply Z.leb_le in Hxy. constructor; [by constructor|].
      constructor; [done|]. eapply Forall_impl; [exact Hy|].
      unfold by_date. intros; lia.
    + apply Z.leb_gt in Hxy. constructor; [done|].
      rewrite insert_by_date_perm. constructor; [|done].
      unfold by_date. lia.
Qed.

Lemma sort_by_date_sorted l : StronglySorted by_date (sort_by_date l).
Proof.
  induction l; simpl; [constructor|by apply insert_by_date_sorted].
Qed.

(** On a list in date order the sort changes nothing: the second sort, of a
    burst cut out of the sorted messages, is the identity. *)
Lemma sort_by_date_id l : StronglySorted by_date l → sort_by_date l = l.
Proof.
  induction 1 as [|x l Hl IH Hx]; simpl; [done|]. rewrite IH.
  destruct l as [|y l]; simpl; [done|].
  apply Forall_cons in Hx as [Hxy _]. unfold by_date in Hxy.
  by apply Z.leb_le in Hxy as ->.
Qed.

Lemma burst_tail_sublist first rest : burst_tail first rest `sublist_of` rest.
Proof.
  induction rest as [|dj rest IH]; simpl; [done|].
  destruct (dj.2 - first.2 <=? 24 * HOUR); [|apply sublist_nil_l].
  destruct (similar first.1 dj.1); [by apply sublist_skip|by apply sublist_cons].
Qed.

Lemma sorted_sublist (l1 l2 : list (message * Z)) :
  l1 `sublist_of` l2 → StronglySorted by_date l2 → StronglySorted by_date l1.
Proof.
  induction 1 as [|x l1 l2 Hs IH|x l1 l2 Hs IH]; intros Hl2; [done|..].
  - apply StronglySorted_inv in Hl2 as [Hl2 Hx]. constructor; [by apply IH|].
    rewrite Forall_forall in Hx. apply Forall_forall. intros y Hy.
    apply Hx. by eapply elem_of_sublist.
  - apply StronglySorted_inv in Hl2 as [Hl2 _]. by apply IH.
Qed.

Lemma window_sorted first rest :
  StronglySorted by_date (first :: rest) →
  sort_by_date (first :: burst_tail first rest) = first :: burst_tail first rest.
Proof.
  intros Hs. apply sort_by_date_id. eapply sorted_sublist; [|exact Hs].
  apply sublist_skip, burst_tail_sublist.
Qed.

(** When every later message is within the window and similar to the first,
    the window takes them all. *)
Lemma burst_tail_all first rest :
  Forall (λ dj, dj.2 - first.2 ≤ 24 * HOUR ∧ similar first.1 dj.1 = true) rest →
  burst_tail first rest = rest.
Proof.
  induction 1 as [|dj rest [Ht Hsim] _ IH]; simpl; [done|].
  apply Z.leb_le in Ht. by rewrite Ht, Hsim, IH.
Qed.

Lemma make_group_is_Some sender_email burst :
  burst ≠ [] → is_Some (make_group sender_email burst).
Proof.
  intros Hne. unfold make_group.
  destruct burst as [|x burst]; [done|]. simpl.
  destruct (last (x :: burst)) eqn:Hlast; [by eexists|].
  by apply last_None in Hlast.
Qed.

(** A group lists the ids of its burst in date order: the archived ones,
    then the keeper, which is the last, that is the newest. *)
Lemma make_group_ids sender_email burst g :
  make_group sender_email burst = Some g →
  (λ a, msg_id a.1) <$> burst = archive_msg_ids g ++ [keep_msg_id g]
  ∧ total_in_burst g = length burst
  ∧ S (length (archive_msg_ids g)) = length burst
  ∧ sender g = sender_email
  ∧ (∃ oldest, head burst = Some oldest
       ∧ pattern g = _first_n_words (subject oldest.1) 4
       ∧ group_key g = sender_email +:+ "|" +:+ pattern g)
  ∧ (∃ keep, last burst = Some keep ∧ keep_msg_id g = msg_id keep.1).
Proof.
  unfold make_group. intros Hg.
  destruct (head burst) as [oldest|] eqn:Hhead; [|done].
  destruct (last burst) as [keep|] eqn:Hlast; [|done].
  injection Hg as <-. simpl.
  apply last_Some in Hlast as [front ->].
  rewrite length_app, Nat.add_sub; simpl. rewrite take_app_length.
  rewrite fmap_app, length_fmap. simpl.
  split_and!; [done|done|lia|done| |].
  - by exists oldest.
  - by exists keep.
Qed.

(** The burst of the window that starts at [first], as it is reported. *)
Definition burst_of (first : message * Z) (rest : list (message * Z))
    : list (message * Z) :=
  sort_by_date (first :: burst_tail first rest).

(** The window reaches the threshold of five. *)
Definition full (first : message * Z) (rest : list (message * Z)) : Prop :=
  (5 ≤ length (first :: burst_tail first rest))%nat.

Definition keys (groups : list burst_group) : list string :=
  group_key <$> groups.

Lemma report_burst_cases sender_email burst groups :
  burst ≠ [] →
  ∃ g, make_group sender_email (sort_by_date burst) = Some g
       ∧ ((group_key g ∈ keys groups
           ∧ report_burst sender_email burst groups = groups)
          ∨ ((group_key g ∉ keys groups)
             ∧ report_burst sender_email burst groups = groups ++ [g])).
Proof.
  intros Hne. unfold report_burst.
  destruct (make_group_is_Some sender_email (sort_by_date burst)) as [g Hg].
  { intros Hnil. apply Hne. apply length_zero_iff_nil.
    by rewrite <- sort_by_date_length, Hnil. }
  exists g. rewrite Hg. split; [done|]. unfold keys.
  destruct (decide (group_key g ∈ group_key <$> groups)); [by left|by right].
Qed.

Lemma keys_app g1 g2 : keys (g1 ++ g2) = keys g1 ++ keys g2.
Proof. apply fmap_app. Qed.

(** The loop over the window starts only appends to [dedup_groups]; what it
    appends are groups of full windows, with keys that are new; and the key
    of every full window is among the keys at the end. *)
Lemma windows_spec sender_email dated groups :
  ∃ new,
    windows sender_email dated groups = groups ++ new
    ∧ (NoDup (keys groups) → NoDup (keys (groups ++ new)))
    ∧ (∀ g, g ∈ new →
         ∃ pre first rest, dated = pre ++ first :: rest ∧ full first rest
           ∧ make_group sender_email (burst_of first rest) = Some g)
    ∧ (∀ pre first rest, dated = pre ++ first :: rest → full first rest →
         ∃ g, make_group sender_email (burst_of first rest) = Some g
              ∧ group_key g ∈ keys (groups ++ new)).
Proof.
  revert groups. induction dated as [|first rest IH]; intros groups.
  { exists []. simpl. rewrite app_nil_r. split_and!; [done|done|..].
    - by intros g ?%elem_of_nil.
    - by intros [|??] ?? ?. }
  cbn [windows]. set (burst := first :: burst_tail first rest).
  assert (Hcases : ∃ here,
    (if (5 <=? length burst)%nat then report_burst sender_email burst groups
     else groups) = groups ++ here
    ∧ (NoDup (keys groups) → NoDup (keys (groups ++ here)))
    ∧ (∀ g, g ∈ here → full first rest
            ∧ make_group sender_email (burst_of first rest) = Some g)
    ∧ (full first rest →
       ∃ g, make_group sender_email (burst_of first rest) = Some g
            ∧ group_key g ∈ keys (groups ++ here))).
  { destruct (5 <=? length burst)%nat eqn:Hlen.
    - apply Nat.leb_le in Hlen.
      destruct (report_burst_cases sender_email burst groups)
        as (g & Hg & [[Hin ->]|[Hnin ->]]); [done|..].
      + exists []. rewrite app_nil_r. split_and!; [done|done|..].
        * by intros g' ?%elem_of_nil.
        * intros _. by exists g.
      + exists [g]. split_and!; [done|..].
        * intros Hnd. rewrite keys_app. apply NoDup_app. split_and!; [done|..].
          -- intros x Hx ->%list_elem_of_singleton. by apply Hnin.
          -- apply NoDup_singleton.
        * by intros g' ->%list_elem_of_singleton.
        * intros _. exists g. split; [done|]. rewrite keys_app, elem_of_app.
          right. by apply list_elem_of_singleton.
    - apply Nat.leb_gt in Hlen. exists []. rewrite app_nil_r.
      split_and!; [done|done|..].
      + by intros g ?%elem_of_nil.
      + unfold full. fold burst. lia. }
  destruct Hcases as (here & -> & Hnd & Hhere & Hfull).
  destruct (IH (groups ++ here)) as (new & -> & Hnd' & Hnew & Hall).
  exists (here ++ new). rewrite app_assoc. split_and!; [done|auto|..].
  - intros g [Hg|Hg]%elem_of_app.
    + destruct (Hhere g Hg) as [? ?]. by exists [], first, rest.
    + destruct (Hnew g Hg) as (pre & f & r & -> & ? & ?).
      by exists (first :: pre), f, r.
  - intros [|p pre] f r Heq Hf; simplify_eq/=.
    + destruct (Hfull Hf) as (g & ? & Hin). exists g. split; [done|].
      rewrite keys_app, elem_of_app. by left.
    + by eapply Hall.
Qed.

(** A full window of the messages of a sender with at least five of them. *)
Definition window_of (sgs : list (string * list message))
    (sender_email : string) (first : message * Z)
    (rest : list (message * Z)) : Prop :=
  ∃ msgs pre, (sender_email, msgs) ∈ sgs ∧ (5 ≤ length msgs)%nat
              ∧ sort_by_date (dated_of msgs) = pre ++ first :: rest
              ∧ full first rest.

Lemma dedup_fold_spec sgs groups :
  ∃ new,
    foldl dedup_sender groups sgs = groups ++ new
    ∧ (NoDup (keys groups) → NoDup (keys (groups ++ new)))
    ∧ (∀ g, g ∈ new →
         ∃ s first rest, window_of sgs s first rest
           ∧ make_group s (burst_of first rest) = Some g)
    ∧ (∀ s first rest, window_of sgs s first rest →
         ∃ g, make_group s (burst_of first rest) = Some g
              ∧ group_key g ∈ keys (groups ++ new)).
Proof.
  revert groups. induction sgs as [|[s msgs] sgs IH]; intros groups; simpl.
  { exists []. rewrite app_nil_r. split_and!; [done|done|..].
    - by intros g ?%elem_of_nil.
    - by intros s f r (? & ? & ?%elem_of_nil & _). }
  assert (Hcases : ∃ here,
    (if (length msgs <? 5)%nat then groups
     else windows s (sort_by_date (dated_of msgs)) groups) = groups ++ here
    ∧ (NoDup (keys groups) → NoDup (keys (groups ++ here)))
    ∧ (∀ g, g ∈ here →
         ∃ first rest, window_of ((s, msgs) :: sgs) s first rest
           ∧ make_group s (burst_of first rest) = Some g)
    ∧ (∀ pre first rest, (5 ≤ length msgs)%nat →
         sort_by_date (dated_of msgs) = pre ++ first :: rest →
         full first rest →
         ∃ g, make_group s (burst_of first rest) = Some g
              ∧ group_key g ∈ keys (groups ++ here))).
  { destruct (length msgs <? 5)%nat eqn:Hlen.
    - apply Nat.ltb_lt in Hlen. exists []. rewrite app_nil_r.
      split_and!; [done|done|..].
      + by intros g ?%elem_of_nil.
      + intros; lia.
    - apply Nat.ltb_ge in Hlen.
      destruct (windows_spec s (sort_by_date (dated_of msgs)) groups)
        as (here & -> & Hnd & Hhere & Hall).
      exists here. split_and!; [done|done|..].
      + intros g Hg. destruct (Hhere g Hg) as (pre & f & r & ? & ? & ?).
        exists f, r. split; [|done]. exists msgs, pre.
        split_and!; [by left|done..].
      + intros pre f r _ ? ?. by eapply Hall. }
  destruct Hcases as (here & -> & Hnd & Hhere & Hfull).
  destruct (IH (groups ++ here)) as (new & -> & Hnd' & Hnew & Hall).
  exists (here ++ new). rewrite app_assoc. split_and!; [done|auto|..].
  - intros g [Hg|Hg]%elem_of_app.
    + destruct (Hhere g Hg) as (f & r & ? & ?). by exists s, f, r.
    + destruct (Hnew g Hg) as (s' & f & r & (ms & pre & ? & ?) & ?).
      exists s', f, r. split; [|done]. exists ms, pre. split; [by right|done].
  - intros s' f r (ms & pre & [Heq|Hin]%elem_of_cons & Hlen & Hsort & Hf).
    + simplify_eq. destruct (Hfull pre f r) as (g & ? & Hg); [done..|].
      exists g. split; [done|]. rewrite keys_app, elem_of_app. by left.
    + apply Hall. by exists ms, pre.
Qed.

(** In a list in date order, the [break] of the inner loop loses nothing:
    the window holds exactly the later messages within 24 hours of its start
    that are similar to it. *)
Definition in_burst (first dj : message * Z) : Prop :=
  dj.2 - first.2 ≤ 24 * HOUR ∧ similar first.1 dj.1 = true.

Global Instance in_burst_dec first dj : Decision (in_burst first dj).
Proof. unfold in_burst. apply _. Defined.

Lemma filter_none (first : message * Z) rest :
  Forall (λ dj, ¬ in_burst first dj) rest → filter (in_burst first) rest = [].
Proof.
  induction 1 as [|dj rest Hdj _ IH]; [done|].
  by rewrite filter_cons_False.
Qed.

Lemma burst_tail_filter first rest :
  StronglySorted by_date (first :: rest) →
  burst_tail first rest = filter (in_burst first) rest.
Proof.
  intros [Hrest _]%StronglySorted_inv.
  induction Hrest as [|dj rest Hrest IH Hdj]; simpl; [done|].
  rewrite filter_cons.
  destruct (decide (in_burst first dj)) as [[Hw Hs]|Hn].
  - apply Z.leb_le in Hw. by rewrite Hw, Hs, IH.
  - destruct (dj.2 - first.2 <=? 24 * HOUR) eqn:Ht.
    + apply Z.leb_le in Ht.
      destruct (similar first.1 dj.1) eqn:Hsim; [by destruct Hn|done].
    + apply Z.leb_gt in Ht. symmetry.
      apply filter_none, Forall_forall. intros d Hd [Hw _].
      rewrite Forall_forall in Hdj. specialize (Hdj d Hd).
      unfold by_date in Hdj. lia.
Qed.

Lemma elem_of_dated_of msgs d :
  d ∈ dated_of msgs ↔ d.1 ∈ msgs ∧ _parse_date (date d.1) = Some d.2.
Proof.
  unfold dated_of. rewrite list_elem_of_omap. split.
  - intros (m & Hm & Hd). destruct (_parse_date (date m)) eqn:Hp; [|done].
    simpl in Hd. by simplify_eq.
  - intros [Hm Hd]. exists d.1. split; [done|]. rewrite Hd. simpl.
    by destruct d.
Qed.

Lemma dated_of_all msgs :
  Forall (λ m, is_Some (_parse_date (date m))) msgs →
  (dated_of msgs).*1 = msgs.
Proof.
  unfold dated_of. induction 1 as [|m msgs [t Ht] _ IH]; simpl; [done|].
  rewrite Ht. simpl. f_equal. exact IH.
Qed.

(** *** One sender *)

Lemma foldl_group_add_same s acc msgs :
  Forall (λ m, from_email m = s) msgs →
  foldl (λ groups msg, group_add msg groups) [(s, acc)] msgs
  = [(s, acc ++ msgs)].
Proof.
  revert acc. induction msgs as [|m msgs IH]; intros acc Hall; simpl.
  - by rewrite app_nil_r.
  - apply Forall_cons in Hall as [Hm Hall]. rewrite decide_True by done.
    rewrite IH by done. by rewrite <- app_assoc.
Qed.

Lemma sender_groups_single s msgs :
  msgs ≠ [] → Forall (λ m, from_email m = s) msgs →
  sender_groups_of msgs = [(s, msgs)].
Proof.
  destruct msgs as [|m msgs]; [done|]. intros _ [Hm Hall]%Forall_cons.
  unfold sender_groups_of. simpl. rewrite Hm.
  by rewrite foldl_group_add_same.
Qed.

(** *** Six messages of one sender, one subject, within two hours *)

Lemma six_message_burst (msgs : list message) (s : string) :
  length msgs = 6%nat →
  Forall (λ m, from_email m = s) msgs →
  Forall (λ m, is_Some (_parse_date (date m))) msgs →
  (∀ m m', m ∈ msgs → m' ∈ msgs →
     _normalise_subject (subject m) = _normalise_subject (subject m')) →
  (∀ m m' t t', m ∈ msgs → m' ∈ msgs →
     _parse_date (date m) = Some t → _parse_date (date m') = Some t' →
     t' - t ≤ 2 * HOUR) →
  ∃ g more,
    dedup_groups_of msgs = g :: more
    ∧ (λ d, msg_id d.1) <$> sort_by_date (dated_of msgs)
      = archive_msg_ids g ++ [keep_msg_id g]
    ∧ length (archive_msg_ids g) = 5%nat
    ∧ total_in_burst g = 6%nat
    ∧ Forall (λ g', keep_msg_id g' = keep_msg_id g) more
    ∧ dedup_ids_of (g :: more) = list_to_set (archive_msg_ids g).
Proof.
  intros Hlen Hfrom Hdates Hsubj Hspan.
  unfold dedup_groups_of. rewrite (sender_groups_single s) by
    (done || by intros ->). simpl. rewrite Hlen. simpl.
  pose proof (sort_by_date_sorted (dated_of msgs)) as Hsorted.
  assert (Hmem : ∀ d, d ∈ sort_by_date (dated_of msgs) →
                      d.1 ∈ msgs ∧ _parse_date (date d.1) = Some d.2).
  { intros d. rewrite sort_by_date_perm. apply elem_of_dated_of. }
  assert (Hsize : length (sort_by_date (dated_of msgs)) = 6%nat).
  { rewrite sort_by_date_length, <- Hlen.
    rewrite <- (dated_of_all msgs Hdates) at 2. by rewrite length_fmap. }
  assert (Hpair : ∀ d d', d ∈ sort_by_date (dated_of msgs) →
                          d' ∈ sort_by_date (dated_of msgs) → in_burst d d').
  { intros d d' [Hd Ht]%Hmem [Hd' Ht']%Hmem. split.
    - pose proof (Hspan _ _ _ _ Hd Hd' Ht Ht'). unfold HOUR in *. lia.
    - unfold similar. rewrite (Hsubj _ _ Hd Hd').
      by rewrite bool_decide_eq_true_2. }
  destruct (sort_by_date (dated_of msgs))
    as [|d0 [|d1 [|d2 [|d3 [|d4 [|d5 [|]]]]]]]; try discriminate Hsize.
  clear Hsize Hmem.
  assert (Htail : ∀ first rest,
            first ∈ [d0; d1; d2; d3; d4; d5] →
            Forall (λ d, d ∈ [d0; d1; d2; d3; d4; d5]) rest →
            burst_tail first rest = rest).
  { intros first rest Hf Hr. apply burst_tail_all.
    eapply Forall_impl; [exact Hr|]. intros dj Hdj. by apply Hpair. }
  cbn [windows].
  rewrite !Htail by (repeat constructor). cbn [length Nat.leb].
  clear Htail Hpair.
  assert (Hsorted1 : StronglySorted by_date [d1; d2; d3; d4; d5])
    by by apply StronglySorted_inv in Hsorted as [? _].
  destruct (report_burst_cases s [d0; d1; d2; d3; d4; d5] [])
    as (g0 & Hg0 & [[[]%elem_of_nil _]|[_ ->]]); [done|].
  destruct (report_burst_cases s [d1; d2; d3; d4; d5] ([] ++ [g0]))
    as (g1 & Hg1 & Hcase); [done|].
  rewrite sort_by_date_id in Hg0, Hg1 by done.
  apply make_group_ids in Hg0
    as (Hids0 & Htot0 & Hlen0 & _ & _ & keep0 & Hlast0 & Hkeep0).
  apply make_group_ids in Hg1
    as (Hids1 & _ & _ & _ & _ & keep1 & Hlast1 & Hkeep1).
  simpl in Hlast0, Hlast1, Hlen0, Htot0. simplify_eq.
  assert (Harch : archive_msg_ids g0 = msg_id d0.1 :: archive_msg_ids g1).
  { apply (app_inj_tail _ _ (keep_msg_id g0) (keep_msg_id g0)).
    rewrite <- Hids0, Hkeep0, <- Hkeep1.
    change ((msg_id d0.1 :: archive_msg_ids g1) ++ [keep_msg_id g1])
      with (msg_id d0.1 :: (archive_msg_ids g1 ++ [keep_msg_id g1])).
    by rewrite <- Hids1. }
  exists g0. destruct Hcase as [[_ ->]|[_ ->]]; simpl.
  - exists []. split_and!; [done|done|lia|done|done|].
    unfold dedup_ids_of; simpl. apply (right_id_L _ _).
  - exists [g1]. split_and!; [done|done|lia|done| |].
    + constructor; [congruence|done].
    + unfold dedup_ids_of; simpl. rewrite Harch, list_to_set_cons.
      generalize (list_to_set (archive_msg_ids g1) : gset string).
      clear. intros X. apply set_eq. intros y.
      rewrite !elem_of_union, elem_of_empty. tauto.
Qed.

(** C4, as the code has it.  First the reported groups in general: their
    keys never repeat; each is the group of a full window (a start, and the
    later messages of the same sender within 24 hours of it that are similar
    to it, five or more in all) of a sender with at least five messages:
    its ids, in date order, are the archived ones followed by the keeper,
    the newest; and a full window is reported unless its key (the sender and
    the first four words of the subject of its oldest message) is already
    there, in which case nothing of it is marked on its account.  Then the
    six messages of the claim: the five oldest are marked, the newest is
    kept. *)
Theorem burst_dedup (messages : list message) (now : Z) :
  let remaining := filter (λ m, ¬ is_archive m) messages in
  let groups := dedup_groups (phase2_analyse messages now) in
  let sgs := sender_groups_of remaining in
  (NoDup (keys groups)
   ∧ (∀ g, g ∈ groups →
        ∃ s first rest,
          window_of sgs s first rest
          ∧ make_group s (burst_of first rest) = Some g
          ∧ burst_of first rest = first :: filter (in_burst first) rest
          ∧ StronglySorted by_date (burst_of first rest)
          ∧ (λ a, msg_id a.1) <$> burst_of first rest
            = archive_msg_ids g ++ [keep_msg_id g])
   ∧ (∀ s first rest,
        window_of sgs s first rest →
        ∃ g, make_group s (burst_of first rest) = Some g
             ∧ group_key g ∈ keys groups))
  ∧ (∀ s,
       length messages = 6%nat →
       Forall (λ m, ¬ is_archive m ∧ from_email m = s
                    ∧ is_Some (_parse_date (date m))) messages →
       (∀ m m', m ∈ messages → m' ∈ messages →
          _normalise_subject (subject m) = _normalise_subject (subject m')) →
       (∀ m m' t t', m ∈ messages → m' ∈ messages →
          _parse_date (date m) = Some t → _parse_date (date m') = Some t' →
          t' - t ≤ 2 * HOUR) →
       ∃ g more,
         groups = g :: more
         ∧ (sort_by_date (dated_of messages)).*1 ≡ₚ messages
         ∧ StronglySorted by_date (sort_by_date (dated_of messages))
         ∧ (λ d, msg_id d.1) <$> sort_by_date (dated_of messages)
           = archive_msg_ids g ++ [keep_msg_id g]
         ∧ length (archive_msg_ids g) = 5%nat
         ∧ Forall (λ g', keep_msg_id g' = keep_msg_id g) more
         ∧ dedup_ids_of groups = list_to_set (archive_msg_ids g)).
Proof.
  intros remaining groups sgs. split.
  - unfold groups, phase2_analyse; simpl. unfold dedup_groups_of.
    fold remaining. fold sgs.
    destruct (dedup_fold_spec sgs []) as (new & -> & Hnd & Hnew & Hall).
    simpl in *. split_and!.
    + apply Hnd. constructor.
    + intros g Hg.
      destruct (Hnew g Hg) as (s & first & rest & Hwin & Hmk).
      exists s, first, rest.
      assert (Hs : StronglySorted by_date (first :: rest)).
      { destruct Hwin as (msgs & pre & _ & _ & Heq & _).
        pose proof (sort_by_date_sorted (dated_of msgs)) as Hs.
        rewrite Heq in Hs. by apply StronglySorted_app_1_r in Hs. }
      split_and!; [done|done| | |].
      * unfold burst_of. by rewrite window_sorted, burst_tail_filter.
      * apply sort_by_date_sorted.
      * by apply make_group_ids in Hmk as [? _].
    + done.
  - intros s Hlen Hall Hsubj Hspan.
    assert (Hrem : remaining = messages).
    { unfold remaining. clear -Hall.
      induction Hall as [|m l [? _] _ IH]; [done|].
      by rewrite filter_cons_True, IH. }
    assert (Hdates : Forall (λ m, is_Some (_parse_date (date m))) messages).
    { eapply Forall_impl; [exact Hall|]. by intros m (_ & _ & ?). }
    destruct (six_message_burst messages s)
      as (g & more & Hgs & Hids & Hfive & _ & Hkeep & Hset); [done| |done..|].
    { eapply Forall_impl; [exact Hall|]. by intros m (_ & ? & _). }
    exists g, more. unfold groups, phase2_analyse; simpl. fold remaining.
    rewrite Hrem, Hgs. split_and!; [done| |apply sort_by_date_sorted|done..].
    by rewrite sort_by_date_perm, dated_of_all.
Qed.

End Engine.

(** *** Concrete runs

    The clock of the examples reads a date string as a count of hours since
    the epoch, in decimal. *)

Fixpoint decimal (acc : Z) (s : string) : option Z :=
  match s with
  | EmptyString => Some acc
  | String c r =>
      let n := Z.of_N (N_of_ascii c) - 48 in
      if (0 <=? n) && (n <=? 9) then decimal (10 * acc + n) r else None
  end.

Definition hours (s : string) : option Z := (λ h, h * HOUR) <$> decimal 0 s.

Global Instance message_eq_dec : EqDecision message.
Proof. solve_decision. Defined.

Global Instance msg_ref_eq_dec : EqDecision msg_ref.
Proof. solve_decision. Defined.

Global Instance burst_group_eq_dec : EqDecision burst_group.
Proof. solve_decision. Defined.

Global Instance decay_buckets_eq_dec : EqDecision decay_buckets.
Proof. solve_decision. Defined.

Ltac by_evaluation := apply (bool_decide_unpack _); vm_compute; exact I.

(** Five build notifications of one morning, the oldest classified urgent. *)
Definition build_mail (id hour : string) (cat : option string) : message :=
  Message id "noreply@ci.example.com" "CI" "Build failed on main" hour cat
    (Some "automated build report").

Definition morning_burst : list message :=
  [build_mail "1" "0" (Some "urgent"); build_mail "2" "1" (Some "reference");
   build_mail "3" "2" (Some "reference"); build_mail "4" "3" (Some "reference");
   build_mail "5" "4" (Some "reference")].

(** C10: the dedup stage does not look at the category.  Thirty days after
    the five notifications above, the urgent one is left alone by the decay
    stage, which takes its four siblings, and yet it is archived: it is a
    member, not the newest, of the burst that the dedup stage reports. *)
Theorem dedup_ignores_never_expire :
  ∃ (messages : list message) (now : Z) (m : message) (g : burst_group),
    let a := phase2_analyse hours messages now in
    m ∈ messages
    ∧ category m = Some "urgent"
    ∧ default "" (category m) ∈ KEEP_CATEGORIES
    ∧ eligible hours now m = None
    ∧ td_ids_of (time_decay a) = {[ "2"; "3"; "4"; "5" ]}
    ∧ (msg_id m ∉ td_ids_of (time_decay a))
    ∧ g ∈ dedup_groups a
    ∧ msg_id m ∈ archive_msg_ids g
    ∧ keep_msg_id g ≠ msg_id m
    ∧ msg_id m ∈ archive_ids a
    ∧ msg_id m ∉ keep_ids a.
Proof.
  exists morning_burst, (30 * DAY), (build_mail "1" "0" (Some "urgent")),
    (Group "noreply@ci.example.com|build failed on main"
       "noreply@ci.example.com" "build failed on main" 5 "5"
       ["1"; "2"; "3"; "4"]).
  cbv zeta. split_and!; try by_evaluation; try reflexivity.
  all: vm_compute; reflexivity.
Qed.

(** A bank statement from a no-reply address, almost three years old. *)
Definition bank_mail : message :=
  Message "9" "noreply@bank.example.com" "Bank" "Your monthly statement" "0"
    (Some "reference") None.

Lemma financial_in_no_decay_bucket_witness :
  _is_financial bank_mail = true
  ∧ _is_notification_like bank_mail = true
  ∧ _days_old hours (date bank_mail) (1000 * DAY) = Some 1000
  ∧ time_decay (phase2_analyse hours (morning_burst ++ bank_mail :: [])
                  (1000 * DAY))
    = time_decay (phase2_analyse hours (morning_burst ++ []) (1000 * DAY)).
Proof.
  split_and!; [reflexivity..|].
  apply (financial_in_no_decay_bucket hours morning_burst [] bank_mail
           (1000 * DAY)).
  reflexivity.
Defined.

(** Two old messages that match no decay bucket and no burst: one classified
    archive, one urgent. *)
Definition old_mail (id : string) (cat : option string) : message :=
  Message id "alice@example.org" "Alice" "Lunch on Friday?" "0" cat None.

Definition old_mails : list message :=
  [old_mail "7" (Some "archive"); old_mail "8" (Some "urgent")].

(** C1 as stated fails: both messages are older than 365 days and match no
    decay bucket and no burst, yet the review bucket counts neither, and the
    first is in the archive set. *)
Lemma review_bucket_counterexample :
  let a := phase2_analyse hours old_mails (400 * DAY) in
  Forall (λ m, _days_old hours (date m) (400 * DAY) = Some 400
               ∧ chosen m 400 = None) old_mails
  ∧ dedup_groups a = []
  ∧ td_ids_of (time_decay a) = ∅
  ∧ flagged_for_review_12mo a = 0%nat
  ∧ older_than_12mo (time_decay a) = []
  ∧ archive_ids a = {[ "7" ]}
  ∧ keep_ids a = {[ "8" ]}.
Proof. cbv zeta. split_and!; try by_evaluation; vm_compute; reflexivity. Qed.

(** The same old message, left unclassified: now the review bucket counts
    it, and it stays out of the archive set. *)
Lemma archive_set_arithmetic_witness :
  let m := old_mail "7" None in
  let a := phase2_analyse hours [m] (400 * DAY) in
  eligible hours (400 * DAY) m = Some 400
  ∧ make_ref m 400 ∈ older_than_12mo (time_decay a)
  ∧ (msg_id m ∉ archive_ids a)
  ∧ msg_id m ∈ keep_ids a.
Proof.
  cbv zeta.
  destruct (archive_set_arithmetic hours [old_mail "7" None] (400 * DAY))
    as (Harch & _ & _ & _ & Hreview).
  destruct (Hreview (old_mail "7" None) 400) as [Hin Hout].
  - by_evaluation.
  - reflexivity.
  - lia.
  - split; [reflexivity|]. split; [exact Hin|]. apply Hout.
    + intros (m & Hm & Harc & _). apply list_elem_of_singleton in Hm as ->.
      discriminate Harc.
    + intros (m & days & k & Hm & Hel & Hk & _). revert Hm Hel Hk.
      change (filter (λ m0, ¬ is_archive m0) [old_mail "7" None])
        with [old_mail "7" None].
      intros ->%list_elem_of_singleton [= <-]. discriminate.
    + intros (g & Hg & _). revert Hg.
      change (dedup_groups (phase2_analyse hours [old_mail "7" None]
                              (400 * DAY))) with (@nil burst_group).
      apply not_elem_of_nil.
Defined.

(** Daily reports of one sender: five within four hours, and five more, as
    close to one another, ten days later. *)
Definition report_mail (id hour : string) : message :=
  Message id "reports@example.org" "Reports" "Daily report ready" hour
    (Some "reference") None.

Definition two_bursts : list message :=
  [report_mail "1" "0"; report_mail "2" "1"; report_mail "3" "2";
   report_mail "4" "3"; report_mail "5" "4";
   report_mail "6" "240"; report_mail "7" "241"; report_mail "8" "242";
   report_mail "9" "243"; report_mail "10" "244"].

(** C4 as stated fails: the second run is a full window (five messages of
    one sender and one subject within four hours), but its key is the key of
    the first run, so it is not reported and none of its members is marked:
    messages 6 to 9 are kept. *)
Lemma second_burst_counterexample :
  let a := phase2_analyse hours two_bursts (245 * HOUR) in
  let first := (report_mail "6" "240", 240 * HOUR) in
  let rest := [(report_mail "7" "241", 241 * HOUR);
               (report_mail "8" "242", 242 * HOUR);
               (report_mail "9" "243", 243 * HOUR);
               (report_mail "10" "244", 244 * HOUR)] in
  window_of hours (sender_groups_of two_bursts) "reports@example.org"
    first rest
  ∧ burst_of first rest = first :: rest
  ∧ dedup_groups a
    = [Group "reports@example.org|daily report ready" "reports@example.org"
         "daily report ready" 5 "5" ["1"; "2"; "3"; "4"]]
  ∧ time_decay a = no_decay
  ∧ archive_ids a = {[ "1"; "2"; "3"; "4" ]}
  ∧ keep_ids a = {[ "5"; "6"; "7"; "8"; "9"; "10" ]}.
Proof.
  cbv zeta. split_and!; try (vm_compute; reflexivity).
  exists two_bursts,
    [(report_mail "1" "0", 0 * HOUR); (report_mail "2" "1", 1 * HOUR);
     (report_mail "3" "2", 2 * HOUR); (report_mail "4" "3", 3 * HOUR);
     (report_mail "5" "4", 4 * HOUR)].
  split_and!; try by_evaluation. vm_compute; reflexivity.
Qed.

(** Six of these reports within two hours. *)
Definition six_reports : list message :=
  [report_mail "1" "1"; report_mail "2" "0"; report_mail "3" "2";
   report_mail "4" "0"; report_mail "5" "1"; report_mail "6" "2"].

Lemma burst_dedup_witness :
  let groups := dedup_groups (phase2_analyse hours six_reports (3 * HOUR)) in
  length six_reports = 6%nat
  ∧ Forall (λ m, ¬ is_archive m ∧ from_email m = "reports@example.org"
                 ∧ is_Some (_parse_date hours (date m))) six_reports
  ∧ ∃ g more,
      groups = g :: more
      ∧ (λ d, msg_id d.1) <$> sort_by_date (dated_of hours six_reports)
        = archive_msg_ids g ++ [keep_msg_id g]
      ∧ length (archive_msg_ids g) = 5%nat
      ∧ dedup_ids_of groups = list_to_set (archive_msg_ids g).
Proof.
  cbv zeta.
  assert (Hall : Forall (λ m, ¬ is_archive m
                              ∧ from_email m = "reports@example.org"
                              ∧ is_Some (_parse_date hours (date m)))
                   six_reports).
  { repeat constructor; by (discriminate || eexists). }
  split; [reflexivity|]. split; [exact Hall|].
  destruct (burst_dedup hours six_reports (3 * HOUR)) as [_ Hsix].
  destruct (Hsix "reports@example.org")
    as (g & more & Hg & _ & _ & Hids & Hfive & _ & Hset);
    [reflexivity|exact Hall|..].
  - intros m m' Hm Hm'.
    assert (Hsub : Forall (λ x, _normalise_subject (subject x)
                                = "Daily report ready") six_reports).
    { repeat constructor. }
    rewrite Forall_forall in Hsub. by rewrite (Hsub m Hm), (Hsub m' Hm').
  - intros m m' t t' Hm Hm' Ht Ht'.
    assert (Hin : Forall (λ x, ∀ u, _parse_date hours (date x) = Some u →
                                    0 ≤ u ≤ 2 * HOUR) six_reports).
    { repeat (apply Forall_cons; split); try (by apply Forall_nil);
        intros u [= <-]; vm_compute; split; discriminate. }
    rewrite Forall_forall in Hin.
    pose proof (Hin m Hm t Ht). pose proof (Hin m' Hm' t' Ht'). lia.
  - by exists g, more.
Defined.

End Refine.


(** ** Archiving the messages of the analysis: [phase2_archive]

    The report of the analysis names messages by their [msg_id]; the archive
    looks them up in the classified messages and resolves them to UIDs by
    sender and subject. *)
Module Phase2.
Import PyStr Fetch Imap Archive.

(** [{m["msg_id"]: m for m in all_msgs}]: a later entry replaces an earlier
    one with the same id. *)
Definition messages_lookup_of (all_msgs : list Refine.message)
    : gmap string Refine.message :=
  foldl (λ lookup m, <[Refine.msg_id m := m]> lookup) ∅ all_msgs.

Definition target_keys_of (target_msg_ids : gset string)
    (messages_lookup : gmap string Refine.message) : gset (string * string) :=
  list_to_set
    (omap (λ mid,
             msg ← messages_lookup !! mid;
             Some (lower (Refine.from_email msg),
                   lower (Refine._normalise_subject (Refine.subject msg))))
       (elements target_msg_ids)).

(** The body of [for item in batch_data] in [scan_inbox_uids_for_phase2]. *)
Definition subject_match (target_keys : gset (string * string))
    (it : item (option headers)) : option string :=
  match it with
  | Line _ => None
  | Tuple resp_line literal =>
      uid_val ← uid_of resp_line;
      msg ← literal;
      let sender := get_sender_email (default "" (h_from msg)) in
      let subject := Refine._normalise_subject (default "" (h_subject msg)) in
      if decide ((lower sender, lower subject) ∈ target_keys)
      then Some uid_val else None
  end.

Definition scan_inbox_uids_for_phase2 (target_msg_ids : gset string)
    (messages_lookup : gmap string Refine.message) : prog (list string) :=
  scan_inbox "(BODY.PEEK[HEADER.FIELDS (FROM SUBJECT)])"
    (subject_match (target_keys_of target_msg_ids messages_lookup)).

(** [phase2_archive(mail, output_dir, dry_run, account)].  [analysis] is the
    list under [archive_msg_ids] of [phase2_analysis.json] and [pass2] the
    content of [pass2_classification.json] or, without it, of
    [pass2_remaining.json]; [None] stands for files that are not there, for
    which the function exits. *)
Definition phase2_archive (analysis : option (list string))
    (pass2 : option (list Refine.message)) (dry_run : bool)
    (acct : option account) : prog nat :=
  match analysis with
  | None => Raise
  | Some listed =>
      let archive_msg_ids : gset string := list_to_set listed in
      if decide (archive_msg_ids = ∅) then
        _ ← print NoMessagesToArchive; Ret 0%nat
      else
        match pass2 with
        | None => Raise
        | Some all_msgs =>
            let messages_lookup := messages_lookup_of all_msgs in
            _ ← print (Targeting (size archive_msg_ids));
            _ ← print ScanningForMatches;
            matched_uids ←
              scan_inbox_uids_for_phase2 archive_msg_ids messages_lookup;
            archive_matched NoMatchingMessages matched_uids dry_run acct
        end
  end.

(** *** Runs *)

(** What follows a scan in a run: nothing when the scan raised. *)
Definition after_scan {S} (exec : command → S → answer * S)
    (scan : ran (list string) S) (no_match : notice) (dry_run : bool)
    (acct : option account) : ran nat S :=
  match result scan with
  | None => Ran None (server scan) [] []
  | Some matched_uids =>
      run exec (archive_matched no_match matched_uids dry_run acct)
        (server scan)
  end.

Lemma run_by_sender {S} (exec : command → S → answer * S) s archive_senders
    dry_run acct :
  let scan :=
    run exec (scan_inbox_uids_by_sender
                (list_to_set (lower <$> archive_senders))) s in
  let rest := after_scan exec scan NoMessagesToArchive dry_run acct in
  run exec (archive_messages archive_senders dry_run acct) s
  = Ran (result rest) (server rest) (trace scan ++ trace rest)
      (Scanning :: printed scan ++ printed rest).
Proof.
  cbv zeta. rewrite run_archive_messages. cbv zeta. unfold after_scan.
  destruct (result (run exec _ s)); [done|].
  cbn [result server trace printed]. by rewrite !app_nil_r.
Qed.

Lemma run_by_message {S} (exec : command → S → answer * S) s listed all_msgs
    dry_run acct :
  list_to_set listed ≠@{gset string} ∅ →
  let scan :=
    run exec (scan_inbox_uids_for_phase2 (list_to_set listed)
                (messages_lookup_of all_msgs)) s in
  let rest := after_scan exec scan NoMatchingMessages dry_run acct in
  run exec (phase2_archive (Some listed) (Some all_msgs) dry_run acct) s
  = Ran (result rest) (server rest) (trace scan ++ trace rest)
      (Targeting (size (list_to_set listed : gset string))
       :: ScanningForMatches :: printed scan ++ printed rest).
Proof.
  intros Hlisted. cbv zeta. unfold phase2_archive. rewrite decide_False by done.
  change (run exec (_ ← print ?n1; _ ← print ?n2; ?m) s)
    with (let r := run exec m s in
          Ran (result r) (server r) (trace r) (n1 :: n2 :: printed r)).
  cbv zeta. rewrite run_bind. unfold and_then, after_scan.
  destruct (result (run exec _ s)); [done|].
  cbn [result server trace printed]. by rewrite !app_nil_r.
Qed.

Lemma run_archive_matched_dry {S} (exec : command → S → answer * S) s
    no_match matched_uids acct :
  run exec (archive_matched no_match matched_uids true acct) s
  = Ran (Some 0%nat) s []
      (match matched_uids with
       | [] => [no_match]
       | _ => [DryRunWouldArchive (length matched_uids); RunWithExecute]
       end).
Proof. by destruct matched_uids. Qed.

(** *** Dry runs *)

Lemma returns_anything {A} (m : prog A) : returns (λ _, True) m.
Proof. induction m as [a| |c k IH|n k IH]; simpl; auto. Qed.

Lemma archive_matched_dry P no_match matched_uids acct :
  sends P (archive_matched no_match matched_uids true acct)
  ∧ returns (λ n, n = 0%nat) (archive_matched no_match matched_uids true acct).
Proof. by destruct matched_uids. Qed.

Lemma archive_messages_dry archive_senders acct :
  sends read_only (archive_messages archive_senders true acct)
  ∧ returns (λ n, n = 0%nat) (archive_messages archive_senders true acct).
Proof.
  unfold archive_messages. split.
  - apply sends_bind; [done|]. intros _.
    apply sends_bind; [by apply scan_inbox_reads_only|]. intros matched.
    apply archive_matched_dry.
  - eapply returns_bind; [apply returns_anything|]. intros _ _.
    eapply returns_bind; [apply returns_anything|]. intros matched _.
    apply (archive_matched_dry read_only).
Qed.

Lemma phase2_archive_dry analysis pass2 acct :
  sends read_only (phase2_archive analysis pass2 true acct)
  ∧ returns (λ n, n = 0%nat) (phase2_archive analysis pass2 true acct).
Proof.
  unfold phase2_archive. destruct analysis as [listed|]; [|done].
  case_decide; [done|]. destruct pass2 as [all_msgs|]; [|done]. split.
  - apply sends_bind; [done|]. intros _.
    apply sends_bind; [done|]. intros _.
    apply sends_bind; [by apply scan_inbox_reads_only|]. intros matched.
    apply archive_matched_dry.
  - eapply returns_bind; [apply returns_anything|]. intros _ _.
    eapply returns_bind; [apply returns_anything|]. intros _ _.
    eapply returns_bind; [apply returns_anything|]. intros matched _.
    apply (archive_matched_dry read_only).
Qed.

(** C5, as the code has it: a dry run of either archiver sends read-only
    requests only, so it leaves alone every part of the server that such
    requests leave alone; it returns 0, never the number of matches; when
    the scan matches something, that number is printed in the dry-run
    notice. *)
Theorem dry_run_changes_nothing {S V} (exec : command → S → answer * S)
    (view : S → V) (s : S) (archive_senders : list string)
    (analysis : option (list string)) (pass2 : option (list Refine.message))
    (acct : option account) :
  let by_sender := run exec (archive_messages archive_senders true acct) s in
  let by_message := run exec (phase2_archive analysis pass2 true acct) s in
  (Forall read_only (sent by_sender) ∧ Forall read_only (sent by_message))
  ∧ ((∀ c s, read_only c → view (exec c s).2 = view s) →
     view (server by_sender) = view s ∧ view (server by_message) = view s)
  ∧ (∀ n, result by_sender = Some n ∨ result by_message = Some n → n = 0%nat)
  ∧ (∀ matched_uids,
       let scan :=
         run exec (scan_inbox_uids_by_sender
                     (list_to_set (lower <$> archive_senders))) s in
       result scan = Some matched_uids → matched_uids ≠ [] →
       result by_sender = Some 0%nat
       ∧ printed by_sender
         = Scanning :: printed scan
           ++ [DryRunWouldArchive (length matched_uids); RunWithExecute])
  ∧ (∀ listed all_msgs matched_uids,
       let scan :=
         run exec (scan_inbox_uids_for_phase2 (list_to_set listed)
                     (messages_lookup_of all_msgs)) s in
       analysis = Some listed → pass2 = Some all_msgs →
       list_to_set listed ≠@{gset string} ∅ →
       result scan = Some matched_uids → matched_uids ≠ [] →
       result by_message = Some 0%nat
       ∧ printed by_message
         = Targeting (size (list_to_set listed : gset string))
           :: ScanningForMatches :: printed scan
           ++ [DryRunWouldArchive (length matched_uids); RunWithExecute]).
Proof.
  intros by_sender by_message.
  destruct (archive_messages_dry archive_senders acct) as [Hsends1 Hzero1].
  destruct (phase2_archive_dry analysis pass2 acct) as [Hsends2 Hzero2].
  split_and!.
  - by apply sends_run.
  - by apply sends_run.
  - intros Hframe. split; by apply (run_frame read_only).
  - intros n [Hn|Hn].
    + apply (returns_run (λ n, n = 0%nat) exec _ s n Hzero1 Hn).
    + apply (returns_run (λ n, n = 0%nat) exec _ s n Hzero2 Hn).
  - intros matched scan Hscan Hne. unfold by_sender.
    rewrite run_by_sender. cbv zeta. fold scan. unfold after_scan.
    rewrite Hscan, run_archive_matched_dry. cbn [result printed].
    by destruct matched.
  - intros listed all_msgs matched scan -> -> Hlisted Hscan Hne.
    unfold by_message. rewrite run_by_message by done. cbv zeta. fold scan.
    unfold after_scan. rewrite Hscan, run_archive_matched_dry.
    cbn [result printed]. by destruct matched.
Qed.

(** A dry run over the small mailbox: one message matches, and 0 is
    returned. *)
Lemma dry_run_count_counterexample :
  let scan :=
    run Mailbox.exec
      (scan_inbox_uids_by_sender
         (list_to_set (lower <$> ["Deals@shop.example.com"])))
      (Mailbox.two_messages true) in
  let r :=
    run Mailbox.exec (archive_messages ["Deals@shop.example.com"] true None)
      (Mailbox.two_messages true) in
  result scan = Some ["101"]
  ∧ result r = Some 0%nat
  ∧ DryRunWouldArchive 1 ∈ printed r.
Proof.
  cbv zeta. split; [by vm_compute|]. split; [by vm_compute|]. by_compute.
Qed.

(** *** The identifiers that are stored, and those that are sent *)

Lemma subject_match_reads_uid target_keys :
  reads_uid (subject_match target_keys).
Proof.
  intros [text|resp_line literal] u; [done|]. simpl.
  destruct (uid_of resp_line) as [uid_val|] eqn:Huid; [|done]. simpl.
  destruct literal as [msg|]; [|done]. simpl.
  case_decide; [|done]. intros [= <-]. by exists resp_line, (Some msg).
Qed.

Lemma scan_then_archive {S} (exec : command → S → answer * S) s parts matches
    no_match dry_run acct t1 c a t2 u :
  String.prefix "(BODY.PEEK[" parts = true → reads_uid matches →
  let scan := run exec (scan_inbox parts matches) s in
  trace scan ++ trace (after_scan exec scan no_match dry_run acct)
  = t1 ++ (c, a) :: t2 →
  u ∈ targets c → revealed t1 u.
Proof.
  intros Hparts Hmatches scan.
  apply (targets_revealed _ _ (default [] (result scan))).
  - by apply (sends_run read_only), scan_inbox_reads_only.
  - destruct (result scan) as [matched|] eqn:Hscan; [|by apply Forall_nil].
    apply (yields_run (λ t m, Forall (revealed t) m) exec _ s matched);
      [by apply scan_inbox_reveals|done].
  - unfold after_scan.
    destruct (result scan) as [matched|]; [|by apply Forall_nil].
    apply (sends_run (λ c, targets c ⊆ matched)), archive_matched_targets.
Qed.

(** C7, as the code has it: the identifier stored with a message of a
    metadata checkpoint or of the message list is the first word of the
    line that opens the message in the FETCH reply, the sequence number of
    the session that fetched it.  The archivers do not send such stored
    identifiers: every UID that a run of [archive_messages] or of
    [phase2_archive] copies or flags was read off the reply to a UID FETCH
    earlier in that run. *)
Theorem archive_addresses_scanned_uids {S} (exec : command → S → answer * S)
    (s : S) (parsedate_iso : string → option string)
    (archive_senders : list string) (analysis : option (list string))
    (pass2 : option (list Refine.message)) (dry_run : bool)
    (acct : option account) :
  let by_sender :=
    run exec (archive_messages archive_senders dry_run acct) s in
  let by_message := run exec (phase2_archive analysis pass2 dry_run acct) s in
  (∀ it r, parse_item parsedate_iso it = Some r →
           ∃ seq_info literal,
             it = Tuple seq_info literal
             ∧ Fetch.msg_id r = before " " seq_info)
  ∧ (∀ t1 c a t2 u, trace by_sender = t1 ++ (c, a) :: t2 →
                    u ∈ targets c → revealed t1 u)
  ∧ (∀ t1 c a t2 u, trace by_message = t1 ++ (c, a) :: t2 →
                    u ∈ targets c → revealed t1 u).
Proof.
  intros by_sender by_message. split_and!.
  - intros [text|seq_info [msg|]] r; [done| |done]. simpl. intros [= <-].
    by exists seq_info, (Some msg).
  - intros t1 c a t2 u. unfold by_sender. rewrite run_by_sender.
    cbv zeta. cbn [trace].
    apply scan_then_archive; [done|apply sender_match_reads_uid].
  - intros t1 c a t2 u. unfold by_message.
    assert (Hnothing : ∀ m : prog nat,
              trace (run exec m s) = [] →
              trace (run exec m s) = t1 ++ (c, a) :: t2 →
              u ∈ targets c → revealed t1 u).
    { intros m -> Heq. by destruct t1. }
    destruct analysis as [listed|]; [|by apply Hnothing].
    destruct (decide (list_to_set listed =@{gset string} ∅)) as [Hlisted|?].
    { apply Hnothing. unfold phase2_archive. by rewrite decide_True. }
    destruct pass2 as [all_msgs|].
    2: { apply Hnothing. unfold phase2_archive. by rewrite decide_False. }
    rewrite run_by_message by done. cbv zeta. cbn [trace].
    apply scan_then_archive; [done|apply subject_match_reads_uid].
Qed.

(** The message list of the small mailbox, and the mailbox after the
    archive of one message: the second stored identifier names no message
    any more, and the first names another message than before. *)
Lemma stored_ids_shift_counterexample :
  let st := Mailbox.two_messages true in
  let p := Checkpoint.checkpoint_metadata "triage_output/work" in
  let fetched :=
    fetch_metadata (λ _, None) binary_dump binary_load (Mailbox.seq_items st)
      (λ _, "t0") (Some p) (Mailbox.numbers 2) ∅ in
  let later :=
    server (run Mailbox.exec
              (archive_messages ["deals@shop.example.com"] false None) st) in
  (cp ← Checkpoint.load_checkpoint binary_load p (disk fetched);
   cp_messages cp) = Some (returned fetched)
  ∧ Fetch.msg_id <$> returned fetched = ["1"; "2"]
  ∧ Fetch.from_email <$> returned fetched
    = ["deals@shop.example.com"; "ann@example.org"]
  ∧ Mailbox.uid <$> Mailbox.inbox st = ["101"; "102"]
  ∧ Mailbox.uid <$> Mailbox.inbox later = ["102"]
  ∧ Fetch.from_email <$> parse_items (λ _, None) (Mailbox.seq_items later ["1"])
    = ["ann@example.org"]
  ∧ parse_items (λ _, None) (Mailbox.seq_items later ["2"]) = [].
Proof. cbv zeta. split_and!; by vm_compute. Qed.

End Phase2.

(** ** More on the fetches: slicing, checkpoints that do not load, and what
    a run leaves on disk *)
Module FetchFacts.
Import PyStr Checkpoint Fetch.

(** *** Slicing *)

Lemma slices_bounds {A} fuel size (ids : list A) :
  (0 < size)%nat → (length ids ≤ fuel)%nat →
  Forall (λ b, (1 ≤ length b ≤ size)%nat) (slices fuel size ids)
  ∧ (length ids ≤ length (slices fuel size ids) * size < length ids + size)%nat
  ∧ (∀ i b, slices fuel size ids !! i = Some b →
            (S i < length (slices fuel size ids))%nat → length b = size).
Proof.
  intros Hsize. revert ids. induction fuel as [|fuel IH]; intros ids Hlen.
  - destruct ids; [|simpl in Hlen; lia]. simpl.
    split; [by apply Forall_nil|]. split; [lia|done].
  - destruct ids as [|x ids].
    { simpl. split; [by apply Forall_nil|]. split; [lia|done]. }
    cbn [slices].
    destruct (IH (drop size (x :: ids))) as (Hall & Hcount & Hfull).
    { rewrite length_drop. simpl in *. lia. }
    rewrite length_drop in Hcount.
    set (rest := slices fuel size (drop size (x :: ids))) in *.
    assert (Htake : length (take size (x :: ids))
                    = Nat.min size (length (x :: ids)))
      by apply length_take.
    assert (Hone : (1 ≤ length (x :: ids))%nat) by (simpl; lia).
    clear Hlen IH. revert Htake Hcount Hone.
    generalize (length (x :: ids)). intros n Htake Hcount Hone.
    split; [|split].
    + apply Forall_cons. split; [|done]. rewrite Htake. lia.
    + cbn [length]. destruct (le_lt_dec n size) as [Hle|Hlt].
      * replace (n - size)%nat with 0%nat in Hcount by lia.
        destruct (length rest); simpl in *; lia.
      * lia.
    + intros [|i] b Hb Hi.
      * injection Hb as <-. rewrite Htake. cbn [length] in Hi.
        destruct (le_lt_dec n size) as [Hle|Hlt]; [|lia].
        replace (n - size)%nat with 0%nat in Hcount by lia.
        destruct (length rest); simpl in *; lia.
      * apply (Hfull i b Hb). cbn [length] in Hi. lia.
Qed.

(** X1: the batches of every loop of the pipeline (500 ids for metadata
    and scans, 50 for bodies, 200 for flagging) hold every id once, in
    order; no batch is empty or longer than the size, every batch but the
    last is full, and there are as many as the size requires. *)
Theorem batches_cover {A} (size : nat) (ids : list A) :
  (0 < size)%nat →
  concat (batches size ids) = ids
  ∧ Forall (λ b, (1 ≤ length b ≤ size)%nat) (batches size ids)
  ∧ (length ids ≤ length (batches size ids) * size < length ids + size)%nat
  ∧ (∀ i b, batches size ids !! i = Some b →
            (S i < length (batches size ids))%nat → length b = size).
Proof.
  intros Hsize. split; [by apply concat_batches|].
  by apply slices_bounds.
Qed.

Lemma batches_cover_witness :
  (0 < 2)%nat
  ∧ batches 2 ["1"; "2"; "3"; "4"; "5"] = [["1"; "2"]; ["3"; "4"]; ["5"]]
  ∧ concat (batches 2 ["1"; "2"; "3"; "4"; "5"]) = ["1"; "2"; "3"; "4"; "5"]
  ∧ Forall (λ b, (1 ≤ length b ≤ 2)%nat) (batches 2 ["1"; "2"; "3"; "4"; "5"]).
Proof.
  split; [lia|]. split; [reflexivity|].
  destruct (batches_cover 2 ["1"; "2"; "3"; "4"; "5"]) as (Hcat & Hall & _);
    [lia|].
  by split.
Defined.

(** *** The metadata fetch against any server *)

Section AnyServer.

Variable parsedate_iso : string → option string.
Variable json_dump : checkpoint → list string.
Variable json_load : string → option checkpoint.
Variable fetch : list string → list (item (option headers)).
Variable clock : nat → string.

Lemma metadata_turns_any checkpoint_path todo st :
  let st' :=
    foldl (metadata_turn parsedate_iso json_dump fetch clock checkpoint_path)
      st todo in
  returned st'
  = returned st ++ parse_items parsedate_iso (concat (fetch <$> todo))
  ∧ requested st' = requested st ++ todo.
Proof.
  revert st. induction todo as [|batch todo IH]; intros st; simpl.
  - by rewrite !app_nil_r.
  - destruct (IH (metadata_turn parsedate_iso json_dump fetch clock
                    checkpoint_path st batch)) as [Hret Hreq].
    split.
    + rewrite Hret. simpl. unfold parse_items. by rewrite omap_app, app_assoc.
    + rewrite Hreq. simpl. by rewrite <-app_assoc.
Qed.

Lemma metadata_turns_no_path todo st :
  disk (foldl (metadata_turn parsedate_iso json_dump fetch clock None) st todo)
  = disk st.
Proof.
  revert st. induction todo as [|batch todo IH]; intros st; [done|].
  simpl. by rewrite IH.
Qed.

(** X2: whatever the server answers, a run of [fetch_metadata] over a
    mailbox that is not empty returns the records of the checkpoint followed
    by what it reads off the replies, and asks, in batches of 500, for
    exactly the ids of the search that are the [msg_id] of no record of the
    checkpoint.  Over an empty mailbox it returns the empty list, asks for
    nothing and leaves the disk alone, whatever the checkpoint holds. *)
Theorem fetch_metadata_from_checkpoint (p : path) (msg_ids : list string)
    (fs : gmap path string) :
  let saved := resume_from json_load (Some p) fs in
  let run :=
    fetch_metadata parsedate_iso json_dump json_load fetch clock (Some p)
      msg_ids fs in
  (msg_ids = [] → run = Outcome [] fs [])
  ∧ (msg_ids ≠ [] →
     requested run = batches 500 (remaining_ids msg_ids saved)
     ∧ concat (requested run) = filter (λ mid, mid ∉ fetched_ids saved) msg_ids
     ∧ returned run
       = saved ++ parse_items parsedate_iso (concat (fetch <$> requested run))).
Proof.
  intros saved run. split.
  - intros ->. done.
  - intros Hids. unfold run, fetch_metadata.
    destruct msg_ids as [|mid msg_ids]; [done|].
    unfold metadata_loop. fold saved.
    destruct (metadata_turns_any (Some p)
                (batches 500 (remaining_ids (mid :: msg_ids) saved))
                (Outcome saved fs [])) as [Hret Hreq].
    simpl in Hret, Hreq. rewrite Hreq, Hret.
    split; [done|]. split; [|done].
    by rewrite concat_batches by lia.
Qed.

(** X3: a checkpoint that is absent, that does not decode, or that has no
    [messages] is ignored: the run returns and asks for what a run without a
    checkpoint path does, every id of the search in order; and without a
    path nothing is written. *)
Theorem unreadable_checkpoint_is_ignored (p : path) (msg_ids : list string)
    (fs : gmap path string) :
  (fs !! p = None
   ∨ ∃ content, fs !! p = Some content
       ∧ (json_load content = None
          ∨ ∃ cp, json_load content = Some cp ∧ cp_messages cp = None)) →
  let with_path :=
    fetch_metadata parsedate_iso json_dump json_load fetch clock (Some p)
      msg_ids fs in
  let without :=
    fetch_metadata parsedate_iso json_dump json_load fetch clock None
      msg_ids fs in
  returned with_path = returned without
  ∧ requested with_path = requested without
  ∧ concat (requested with_path) = msg_ids
  ∧ disk without = fs.
Proof.
  intros Hbad with_path without.
  assert (Hsaved : resume_from json_load (Some p) fs = []).
  { unfold resume_from, load_checkpoint. simpl.
    destruct Hbad as [->|(content & -> & [->|(cp & -> & Hcp)])]; [done|done|].
    simpl. by rewrite Hcp. }
  unfold with_path, without, fetch_metadata.
  destruct msg_ids as [|mid msg_ids]; [done|].
  unfold metadata_loop. rewrite Hsaved.
  change (resume_from json_load None fs) with (@nil record).
  rewrite remaining_ids_nil.
  destruct (metadata_turns_any (Some p) (batches 500 (mid :: msg_ids))
              (Outcome [] fs [])) as [Hret Hreq].
  destruct (metadata_turns_any None (batches 500 (mid :: msg_ids))
              (Outcome [] fs [])) as [Hret' Hreq'].
  rewrite Hret, Hret', Hreq, Hreq', metadata_turns_no_path.
  split; [done|]. split; [done|]. split; [|done].
  apply (concat_batches 500 (mid :: msg_ids)). lia.
Qed.

End AnyServer.

Lemma unreadable_checkpoint_is_ignored_witness :
  let p := checkpoint_metadata "triage_output/work" in
  let with_path :=
    fetch_metadata (λ _, None) binary_dump binary_load small_mailbox
      (λ _, "t0") (Some p) ["1"; "2"; "3"] ∅ in
  let without :=
    fetch_metadata (λ _, None) binary_dump binary_load small_mailbox
      (λ _, "t0") None ["1"; "2"; "3"] ∅ in
  (∅ : gmap path string) !! p = None
  ∧ returned with_path = returned without
  ∧ requested with_path = requested without
  ∧ concat (requested with_path) = ["1"; "2"; "3"]
  ∧ disk without = ∅.
Proof.
  cbv zeta. split; [done|].
  apply (unreadable_checkpoint_is_ignored (λ _, None) binary_dump binary_load
           small_mailbox (λ _, "t0")
           (checkpoint_metadata "triage_output/work") ["1"; "2"; "3"] ∅).
  by left.
Defined.

(** *** What a fetch leaves on disk, and what the monitor reads there *)

(** [_count_checkpoint_metadata(cp_path)] and
    [_count_checkpoint_bodies(cp_path)]: 0 for a file that is absent or does
    not decode, and for a missing key. *)
Definition _count_checkpoint_metadata (json_load : string → option checkpoint)
    (cp_path : path) (fs : gmap path string) : nat :=
  match fs !! cp_path with
  | None => 0
  | Some content =>
      match json_load content with
      | Some data => length (default [] (cp_messages data))
      | None => 0
      end
  end.

Definition _count_checkpoint_bodies (json_load : string → option checkpoint)
    (cp_path : path) (fs : gmap path string) : nat :=
  match fs !! cp_path with
  | None => 0
  | Some content =>
      match json_load content with
      | Some data => size (default ∅ (cp_bodies data))
      | None => 0
      end
  end.

Section OnDisk.

Variable json_dump : checkpoint → list string.
Variable json_load : string → option checkpoint.
Variable clock : nat → string.
Variable p : path.

Hypothesis json_round_trip :
  ∀ cp, json_load (joined (json_dump cp)) = Some cp.
Hypothesis suffix_not_tmp : suffix p ≠ ".tmp".

Lemma metadata_turns_disk parsedate_iso fetch todo batch st :
  let st' :=
    foldl (metadata_turn parsedate_iso json_dump fetch clock (Some p)) st
      (todo ++ [batch]) in
  load_checkpoint json_load p (disk st')
  = Some (Cp (Some (returned st')) None
            (Some (clock (length (requested st) + length todo)))).
Proof.
  cbv zeta. rewrite foldl_app. cbn [foldl].
  destruct (metadata_turns_any parsedate_iso json_dump fetch clock (Some p)
              todo st) as [_ Hreq].
  unfold metadata_turn at 1 3.
  cbn [disk returned]. rewrite Hreq, length_app.
  by apply load_after_save.
Qed.

(** X4: when [fetch_metadata] has fetched at least one batch, the
    checkpoint file it leaves decodes to the very list it returns, stamped
    at the last save, so the monitor counts as many messages as were
    returned; when every id of the search is in the checkpoint already, the
    disk is left as it is. *)
Theorem metadata_checkpoint_holds_result parsedate_iso fetch
    (msg_ids : list string) (fs : gmap path string) :
  let saved := resume_from json_load (Some p) fs in
  let run :=
    fetch_metadata parsedate_iso json_dump json_load fetch clock (Some p)
      msg_ids fs in
  (remaining_ids msg_ids saved = [] → disk run = fs)
  ∧ (remaining_ids msg_ids saved ≠ [] →
     load_checkpoint json_load p (disk run)
     = Some (Cp (Some (returned run)) None
               (Some (clock (length (requested run) - 1))))
     ∧ resume_from json_load (Some p) (disk run) = returned run
     ∧ _count_checkpoint_metadata json_load p (disk run)
       = length (returned run)).
Proof.
  intros saved run. unfold run, fetch_metadata.
  destruct msg_ids as [|mid msg_ids]; [by split|].
  unfold metadata_loop. fold saved.
  set (ids := remaining_ids (mid :: msg_ids) saved). split.
  - intros ->. done.
  - intros Hids.
    destruct (batches 500 ids) as [|b bs] eqn:Hbs.
    { pose proof (concat_batches 500 ids ltac:(lia)) as Hcat.
      rewrite Hbs in Hcat. by rewrite <-Hcat in Hids. }
    destruct (exists_last (l := b :: bs) ltac:(done)) as (todo & batch & ->).
    pose proof (metadata_turns_disk parsedate_iso fetch todo batch
                  (Outcome saved fs [])) as Hload.
    cbv zeta in Hload.
    destruct (metadata_turns_any parsedate_iso json_dump fetch clock (Some p)
                (todo ++ [batch]) (Outcome saved fs [])) as [_ Hreq].
    assert (Hlast : (length (requested
                       (foldl (metadata_turn parsedate_iso json_dump fetch
                                 clock (Some p))
                          (Outcome saved fs []) (todo ++ [batch]))) - 1
                     = length todo)%nat).
    { rewrite Hreq. cbn [requested]. rewrite app_nil_l, length_app. simpl.
      lia. }
    rewrite Hlast. cbn [requested length] in Hload.
    rewrite Nat.add_0_l in Hload.
    split; [done|]. split.
    + unfold resume_from. simpl. by rewrite Hload.
    + unfold _count_checkpoint_metadata. unfold load_checkpoint in Hload.
      destruct (disk _ !! p) as [content|]; [|done]. by rewrite Hload.
Qed.

End OnDisk.

Lemma metadata_checkpoint_holds_result_witness :
  let p := checkpoint_metadata "triage_output/work" in
  let run :=
    fetch_metadata (λ _, None) binary_dump binary_load small_mailbox
      (λ _, "t0") (Some p) ["1"; "2"; "3"] ∅ in
  (∀ cp, binary_load (joined (binary_dump cp)) = Some cp)
  ∧ suffix p ≠ ".tmp"
  ∧ remaining_ids ["1"; "2"; "3"] (resume_from binary_load (Some p) ∅) ≠ []
  ∧ resume_from binary_load (Some p) (disk run) = returned run
  ∧ _count_checkpoint_metadata binary_load p (disk run) = length (returned run).
Proof.
  cbv zeta. split; [apply binary_round_trip|]. split; [discriminate|].
  assert (Hids : remaining_ids ["1"; "2"; "3"]
                   (resume_from binary_load
                      (Some (checkpoint_metadata "triage_output/work")) ∅)
                 ≠ []) by (vm_compute; discriminate).
  split; [done|].
  destruct (metadata_checkpoint_holds_result binary_dump binary_load
              (λ _, "t0") (checkpoint_metadata "triage_output/work")
              binary_round_trip ltac:(discriminate) (λ _, None) small_mailbox
              ["1"; "2"; "3"] ∅) as [_ Hsome].
  destruct (Hsome Hids) as (_ & Hresume & Hcount).
  split; [exact Hresume|exact Hcount].
Defined.

(** *** The body fetch against any server *)

Section AnyBodies.

Variable extract_plain_text : string → string.
Variable json_dump : checkpoint → list string.
Variable json_load : string → option checkpoint.
Variable fetch_text : list string → batch_reply.
Variable fetch_text_single : string → option (list (item string)).
Variable clock : nat → string.

Lemma dom_retry_singly results batch :
  dom results ⊆ dom (retry_singly extract_plain_text fetch_text_single
                       results batch).
Proof.
  revert results. induction batch as [|single_id batch IH]; intros results;
    [done|].
  simpl. etrans; [|apply IH].
  destruct (fetch_text_single single_id) as [single_data|]; [|done].
  intros k Hk. apply dom_store_items. by left.
Qed.

Lemma bodies_turns_any checkpoint_path todo st :
  let st' :=
    foldl (bodies_turn extract_plain_text json_dump fetch_text
             fetch_text_single clock checkpoint_path) st todo in
  requested st' = requested st ++ todo
  ∧ dom (returned st) ⊆ dom (returned st').
Proof.
  revert st. induction todo as [|batch todo IH]; intros st; simpl.
  - by rewrite app_nil_r.
  - destruct (IH (bodies_turn extract_plain_text json_dump fetch_text
                    fetch_text_single clock checkpoint_path st batch))
      as [Hreq Hdom].
    split.
    + rewrite Hreq. unfold bodies_turn.
      destruct (fetch_text batch); simpl; by rewrite <-app_assoc.
    + etrans; [|exact Hdom]. unfold bodies_turn.
      destruct (fetch_text batch) as [batch_data| |]; simpl; [|..|done].
      * intros k Hk. apply dom_store_items. by left.
      * apply dom_retry_singly.
Qed.

Lemma count_bodies_of_resume fs p results :
  resume_bodies json_load (Some p) fs = Some results →
  _count_checkpoint_bodies json_load p fs = size results.
Proof.
  unfold resume_bodies, load_checkpoint, _count_checkpoint_bodies. simpl.
  destruct (fs !! p) as [content|]; simpl; [|done].
  destruct (json_load content) as [cp|]; simpl; [|done]. by intros ->.
Qed.

(** X5: whatever the server does (answers, time-outs, errors), a run of
    [fetch_bodies_batch] with a checkpoint path asks, in batches of 50, for
    exactly the ids that are not keys of the checkpoint, loses no key of the
    checkpoint, and ends with a save: the file then decodes to the very
    dictionary that is returned, and the monitor counts its keys. *)
Theorem bodies_checkpoint_holds_result (p : path) (msg_ids : list string)
    (fs : gmap path string) :
  suffix p ≠ ".tmp" →
  (∀ cp, json_load (joined (json_dump cp)) = Some cp) →
  let saved := resume_bodies json_load (Some p) fs in
  let run :=
    fetch_bodies_batch extract_plain_text json_dump json_load fetch_text
      fetch_text_single clock (Some p) msg_ids fs in
  requested run = batches 50 (remaining_bodies msg_ids saved)
  ∧ concat (requested run) = remaining_bodies msg_ids saved
  ∧ dom (default ∅ saved) ⊆ dom (returned run)
  ∧ resume_bodies json_load (Some p) (disk run) = Some (returned run)
  ∧ _count_checkpoint_bodies json_load p (disk run) = size (returned run).
Proof.
  intros Hsuffix Hjson saved run. unfold run, fetch_bodies_batch.
  cbn [returned disk requested]. unfold bodies_loop. fold saved.
  destruct (bodies_turns_any (Some p)
              (batches 50 (remaining_bodies msg_ids saved))
              (Outcome (default ∅ saved) fs [])) as [Hreq Hdom].
  cbn [requested returned] in Hreq, Hdom. rewrite app_nil_l in Hreq.
  rewrite Hreq. split; [done|]. split; [by rewrite concat_batches by lia|].
  split; [done|].
  pose proof (resume_after_save json_dump json_load clock Hjson p Hsuffix)
    as Hsave.
  split; [apply Hsave|]. apply count_bodies_of_resume, Hsave.
Qed.

End AnyBodies.

(** A server that times out on the first batch and then answers one id of
    it only. *)
Lemma bodies_checkpoint_holds_result_witness :
  let p := checkpoint_bodies "triage_output/work" in
  let run :=
    fetch_bodies_batch (λ raw, raw) binary_dump binary_load (λ _, TimedOut)
      (λ mid, if decide (mid = "2") then Some [Tuple "2 (BODY[TEXT] {5}" "hello"]
              else None)
      (λ _, "t0") (Some p) ["1"; "2"] ∅ in
  suffix p ≠ ".tmp"
  ∧ (∀ cp, binary_load (joined (binary_dump cp)) = Some cp)
  ∧ returned run = {[ "2" := "hello" ]}
  ∧ resume_bodies binary_load (Some p) (disk run) = Some (returned run)
  ∧ _count_checkpoint_bodies binary_load p (disk run) = size (returned run).
Proof.
  cbv zeta. split; [discriminate|]. split; [apply binary_round_trip|].
  split; [by vm_compute|].
  destruct (bodies_checkpoint_holds_result (λ raw, raw) binary_dump
              binary_load (λ _, TimedOut)
              (λ mid, if decide (mid = "2")
                      then Some [Tuple "2 (BODY[TEXT] {5}" "hello"] else None)
              (λ _, "t0") (checkpoint_bodies "triage_output/work")
              ["1"; "2"] ∅ ltac:(discriminate) binary_round_trip)
    as (_ & _ & _ & Hresume & Hcount).
  split; [exact Hresume|exact Hcount].
Defined.

End FetchFacts.

(** ** Sender addresses: [get_sender_email] and [get_sender_name] *)
Module Sender.
Import PyStr Fetch.

Lemma lower_char_idemp c : lower_char (lower_char c) = lower_char c.
Proof. by destruct c as [[] [] [] [] [] [] [] []]. Qed.

Lemma lower_idemp s : lower (lower s) = lower s.
Proof.
  induction s as [|c s IH]; [done|]. simpl. by rewrite lower_char_idemp, IH.
Qed.

Lemma lower_app a b : lower (a +:+ b) = lower a +:+ lower b.
Proof. induction a as [|c a IH]; [done|]. simpl. by rewrite IH. Qed.

Lemma lower_rev_app s acc :
  lower (String.rev_app s acc) = String.rev_app (lower s) (lower acc).
Proof.
  revert acc. induction s as [|c s IH]; intros acc; [done|]. simpl.
  by rewrite IH.
Qed.

Lemma lower_rev s : lower (String.rev s) = String.rev (lower s).
Proof. apply lower_rev_app. Qed.

Lemma isspace_lower_char c : isspace (lower_char c) = isspace c.
Proof. by destruct c as [[] [] [] [] [] [] [] []]. Qed.

Lemma lower_lstrip s : lower (lstrip_where isspace s)
                       = lstrip_where isspace (lower s).
Proof.
  induction s as [|c s IH]; [done|]. simpl. rewrite isspace_lower_char.
  by destruct (isspace c).
Qed.

Lemma lower_strip s : lower (strip s) = strip (lower s).
Proof.
  unfold strip, strip_where.
  by rewrite lower_rev, lower_lstrip, lower_rev, lower_lstrip.
Qed.

(** A character that lower-casing neither changes nor produces. *)
Definition caseless (sep : ascii) : Prop := ∀ c, lower_char c = sep ↔ c = sep.

Lemma caseless_lt : caseless "<".
Proof.
  intros c. split; [|by intros ->].
  by destruct c as [[] [] [] [] [] [] [] []].
Qed.

Lemma caseless_gt : caseless ">".
Proof.
  intros c. split; [|by intros ->].
  by destruct c as [[] [] [] [] [] [] [] []].
Qed.

Lemma lower_before sep s :
  caseless sep → before sep (lower s) = lower (before sep s).
Proof.
  intros Hsep. unfold caseless in Hsep.
  induction s as [|c s IH]; [done|]. simpl.
  destruct (decide (c = sep)) as [->|Hc].
  - rewrite decide_True; [done|]. by apply Hsep.
  - rewrite decide_False; [|intros Heq; by apply Hc, Hsep]. simpl.
    by rewrite IH.
Qed.

Lemma lower_after sep s :
  caseless sep → after sep (lower s) = lower (after sep s).
Proof.
  intros Hsep. unfold caseless in Hsep.
  induction s as [|c s IH]; [done|]. simpl.
  destruct (decide (c = sep)) as [->|Hc].
  - rewrite decide_True; [done|]. by apply Hsep.
  - rewrite decide_False; [done|]. intros Heq. by apply Hc, Hsep.
Qed.

Lemma contains_char_lower sep s :
  caseless sep →
  contains (String sep "") (lower s) = contains (String sep "") s.
Proof.
  intros Hsep. unfold caseless in Hsep.
  induction s as [|c s IH]; [done|].
  cbn [lower contains]. rewrite IH. f_equal. simpl.
  assert (Hempty : ∀ r, String.prefix "" r = true) by (by intros []).
  rewrite !Hempty.
  destruct (ascii_dec sep (lower_char c)) as [Heq|Hne];
    destruct (ascii_dec sep c) as [Heq'|Hne']; try done.
  - destruct Hne'. symmetry. by apply Hsep.
  - destruct Hne. subst c. symmetry. by apply Hsep.
Qed.

(** X6: the address [get_sender_email] gives is in lower case, and the
    letter case of the header does not change it; so the scan of the inbox
    by sender, which compares it with the lower-cased targets, matches a
    header whatever its letter case. *)
Theorem sender_email_ignores_case (from_header : string) :
  lower (get_sender_email from_header) = get_sender_email from_header
  ∧ get_sender_email (lower from_header) = get_sender_email from_header
  ∧ ∀ target_senders resp_line subj date,
      Archive.sender_match target_senders
        (Tuple resp_line (Some (Headers (Some (lower from_header)) subj date)))
      = Archive.sender_match target_senders
          (Tuple resp_line (Some (Headers (Some from_header) subj date))).
Proof.
  assert (Hcase : get_sender_email (lower from_header)
                  = get_sender_email from_header).
  { unfold get_sender_email.
    rewrite !contains_char_lower by (apply caseless_lt || apply caseless_gt).
    destruct (contains "<" from_header && contains ">" from_header).
    - by rewrite lower_after, lower_before, lower_before, lower_idemp
        by (apply caseless_lt || apply caseless_gt).
    - by rewrite lower_idemp. }
  split_and!; [|done|].
  - unfold get_sender_email.
    destruct (contains "<" from_header && contains ">" from_header).
    + apply lower_idemp.
    + by rewrite lower_strip, lower_idemp.
  - intros target resp_line subj date. unfold Archive.sender_match.
    simpl. by rewrite Hcase.
Qed.

(** *** Headers of the form [Name <address>] *)

Lemma contains_char_cons sep c s :
  contains (String sep "") (String c s)
  = bool_decide (c = sep) || contains (String sep "") s.
Proof.
  cbn [contains]. f_equal. simpl.
  assert (Hempty : ∀ r, String.prefix "" r = true) by (by intros []).
  rewrite Hempty. destruct (ascii_dec sep c) as [->|Hne].
  - by rewrite bool_decide_eq_true_2.
  - by rewrite bool_decide_eq_false_2.
Qed.

Lemma contains_char_app sep a b :
  contains (String sep "") (a +:+ b)
  = contains (String sep "") a || contains (String sep "") b.
Proof.
  induction a as [|c a IH].
  - change ("" +:+ b) with b. by destruct b.
  - rewrite Checkpoint.append_cons, !contains_char_cons, IH.
    by rewrite orb_assoc.
Qed.

Lemma before_app sep a b :
  contains (String sep "") a = false →
  before sep (a +:+ b) = a +:+ before sep b.
Proof.
  induction a as [|c a IH]; [done|].
  rewrite contains_char_cons. intros [Hc Ha]%orb_false_elim.
  apply bool_decide_eq_false in Hc.
  rewrite !Checkpoint.append_cons. simpl. rewrite decide_False by done.
  by rewrite IH.
Qed.

Lemma after_app sep a b :
  contains (String sep "") a = false →
  after sep (a +:+ String sep b) = b.
Proof.
  induction a as [|c a IH].
  - intros _. change ("" +:+ String sep b) with (String sep b). simpl.
    by rewrite decide_True.
  - rewrite contains_char_cons. intros [Hc Ha]%orb_false_elim.
    apply bool_decide_eq_false in Hc.
    rewrite Checkpoint.append_cons. simpl. rewrite decide_False by done.
    by apply IH.
Qed.

Lemma before_sep sep b : before sep (String sep b) = "".
Proof. simpl. by rewrite decide_True. Qed.

(** X7: for a header of the form [name <address> rest], where the name has
    no [<] and the address neither [<] nor [>], the sender's address is the
    address between the brackets in lower case, and the sender's name is the
    name without the white space and the quotes around it, or the address
    when nothing is left of the name. *)
Theorem sender_of_angle_form (name addr rest : string) :
  contains "<" name = false →
  contains "<" addr = false →
  contains ">" addr = false →
  let from_header := name +:+ "<" +:+ addr +:+ ">" +:+ rest in
  let bare := strip_char "'" (strip_char double_quote (strip name)) in
  get_sender_email from_header = lower addr
  ∧ get_sender_name from_header
    = if decide (bare = "") then lower addr else bare.
Proof.
  intros Hname Hlt Hgt from_header bare.
  assert (Hemail : get_sender_email from_header = lower addr).
  { unfold get_sender_email, from_header.
    change ("<" +:+ addr +:+ ">" +:+ rest)
      with (String "<" (addr +:+ String ">" rest)).
    rewrite !contains_char_app, !contains_char_cons, !contains_char_app,
      !contains_char_cons.
    rewrite (bool_decide_eq_true_2 ("<"%char = "<"%char)) by done.
    rewrite (bool_decide_eq_true_2 (">"%char = ">"%char)) by done.
    rewrite !orb_true_r. simpl andb. cbv iota.
    rewrite after_app by done.
    rewrite (before_app "<" addr) by done.
    cbn [before]. rewrite (decide_False (P := ">"%char = "<"%char)) by done.
    rewrite (before_app ">" addr) by done.
    by rewrite before_sep, Checkpoint.append_empty_r. }
  split; [done|]. unfold get_sender_name. fold from_header.
  rewrite Hemail. unfold from_header at 1 2.
  change ("<" +:+ addr +:+ ">" +:+ rest)
    with (String "<" (addr +:+ String ">" rest)).
  rewrite contains_char_app, contains_char_cons.
  rewrite (bool_decide_eq_true_2 ("<"%char = "<"%char)) by done.
  rewrite orb_true_r. cbv iota. unfold from_header.
  change ("<" +:+ addr +:+ ">" +:+ rest)
    with (String "<" (addr +:+ String ">" rest)).
  by rewrite (before_app "<" name), before_sep, Checkpoint.append_empty_r.
Qed.

Lemma sender_of_angle_form_witness :
  contains "<" "'Deals Team' " = false
  ∧ contains "<" "Deals@Shop.Example.com" = false
  ∧ contains ">" "Deals@Shop.Example.com" = false
  ∧ get_sender_email "'Deals Team' <Deals@Shop.Example.com> (via list)"
    = "deals@shop.example.com"
  ∧ get_sender_name "'Deals Team' <Deals@Shop.Example.com> (via list)"
    = "Deals Team".
Proof.
  split; [done|]. split; [done|]. split; [done|].
  apply (sender_of_angle_form "'Deals Team' " "Deals@Shop.Example.com"
           " (via list)"); done.
Defined.

End Sender.

(** ** The two archive backends against any server

    [behaves] relates a program to the exchanges of a run and to its
    result, [None] for an exception; it holds of every run, whatever the
    server answers or raises. *)
Module Backends.
Import PyStr Fetch Imap Archive.

Fixpoint behaves {A} (Q : list (command * answer) → option A → Prop)
    (m : prog A) : Prop :=
  match m with
  | Ret a => Q [] (Some a)
  | Raise => Q [] None
  | Ask c k => ∀ a, behaves (λ t, Q ((c, a) :: t)) (k a)
  | Print _ k => behaves Q k
  end.

Lemma behaves_run {A S} Q (exec : command → S → answer * S) (m : prog A) s :
  behaves Q m → Q (trace (run exec m s)) (result (run exec m s)).
Proof.
  revert Q s. induction m as [a| |c k IH|n k IH]; intros Q s; simpl;
    [done|done|..].
  - intros Hk. by apply (IH _ (λ t, Q ((c, (exec c s).1) :: t))).
  - apply IH.
Qed.

Lemma behaves_weaken {A} (Q R : list (command * answer) → option A → Prop)
    (m : prog A) :
  (∀ t r, Q t r → R t r) → behaves Q m → behaves R m.
Proof.
  revert Q R. induction m as [a| |c k IH|n k IH]; intros Q R HQR; simpl;
    [auto|auto|..].
  - intros Hk a. apply (IH a (λ t, Q ((c, a) :: t))); [|done].
    intros t r. apply HQR.
  - by apply IH.
Qed.

Lemma behaves_bind {A B} (Q : list (command * answer) → option A → Prop)
    (R : list (command * answer) → option B → Prop) (m : prog A)
    (f : A → prog B) :
  behaves Q m →
  (∀ t, Q t None → R t None) →
  (∀ t a, Q t (Some a) → behaves (λ t', R (t ++ t')) (f a)) →
  behaves R (m ≫= f).
Proof.
  revert Q R. induction m as [a| |c k IH|n k IH]; intros Q R Hm Hraise Hf;
    simpl in *.
  - by apply (Hf []).
  - by apply Hraise.
  - intros a. apply (IH a (λ t, Q ((c, a) :: t))); [done|..].
    + intros t. apply Hraise.
    + intros t b Hb. by apply (Hf ((c, a) :: t)).
  - by apply (IH Q).
Qed.

Lemma behaves_call (Q : list (command * answer) → option reply → Prop) c :
  Q [(c, Raised)] None → (∀ rep, Q [(c, Answered rep)] (Some rep)) →
  behaves Q (call c).
Proof. intros Hraise Hrep [|rep]; simpl; [done|apply Hrep]. Qed.

Lemma behaves_print (Q : list (command * answer) → option unit → Prop) n :
  Q [] (Some ()) → behaves Q (print n).
Proof. done. Qed.

Lemma behaves_for_each {X St}
    (I : list (command * answer) → option St → Prop) (xs : list X)
    (body : St → X → prog St) t st :
  (∀ t st x, x ∈ xs → I t (Some st) →
             behaves (λ t', I (t ++ t')) (body st x)) →
  I t (Some st) → behaves (λ t', I (t ++ t')) (for_each xs body st).
Proof.
  revert t st. induction xs as [|x xs IH]; intros t st Hbody Hst.
  - simpl. by rewrite app_nil_r.
  - change (for_each (x :: xs) body st)
      with (body st x ≫= λ st', for_each xs body st').
    eapply behaves_bind; [apply Hbody; [by left|done]|..].
    + done.
    + intros t' st' Hst'.
      eapply behaves_weaken;
        [|apply (IH (t ++ t') st'); [|done]].
      * intros t'' r. simpl. by rewrite (assoc_L (++)).
      * intros t0 st0 y Hy. apply Hbody. by right.
Qed.

Lemma behaves_catch {A} (Q R : list (command * answer) → option A → Prop)
    (body handler : prog A) :
  behaves Q body →
  (∀ t a, Q t (Some a) → R t (Some a)) →
  (∀ t, Q t None → behaves (λ t', R (t ++ t')) handler) →
  behaves R (catch body handler).
Proof.
  revert Q R. induction body as [a| |c k IH|n k IH];
    intros Q R Hbody Hret Hraise; simpl in *.
  - by apply Hret.
  - by apply (Hraise []).
  - intros a. apply (IH a (λ t, Q ((c, a) :: t))); [done|..].
    + intros t b. apply Hret.
    + intros t Ht. by apply (Hraise ((c, a) :: t)).
  - by apply (IH Q).
Qed.

(** *** Copy, then delete *)

(** Every request that flags a set of UIDs comes right after a copy of the
    same set to [folder], which the server answered with [OK]. *)
Definition copied_first (folder : string) (t : list (command * answer))
    : Prop :=
  ∀ t1 uid_set a t2,
    t = t1 ++ (UID_STORE_DELETED uid_set, a) :: t2 →
    ∃ t0 rep,
      t1 = t0 ++ [(UID_COPY uid_set folder, Answered rep)] ∧ OK rep = true.

Definition flags_nothing (t : list (command * answer)) : Prop :=
  Forall (λ e, match e.1 with UID_STORE_DELETED _ => False | _ => True end) t.

Lemma flags_nothing_copied_first folder t :
  flags_nothing t → copied_first folder t.
Proof.
  intros Hnone t1 uid_set a t2 ->. unfold flags_nothing in Hnone.
  rewrite Forall_app, Forall_cons in Hnone. by destruct Hnone as (_ & [] & _).
Qed.

Lemma copied_first_app folder t t' :
  copied_first folder t → copied_first folder t' →
  copied_first folder (t ++ t').
Proof.
  intros Ht Ht' t1 uid_set a t2 Heq.
  apply app_eq_app in Heq as [l [[-> Heq]|[-> ->]]].
  - destruct l as [|e l].
    + simpl in Heq. destruct (Ht' [] uid_set a t2 (eq_sym Heq))
        as (t0 & rep & Hnil & _).
      by destruct t0.
    + simpl in Heq. injection Heq as <- ->.
      by apply (Ht t1 uid_set a l).
  - destruct (Ht' l uid_set a t2 eq_refl) as (t0 & rep & -> & Hok).
    exists (t ++ t0), rep. by rewrite (assoc_L (++)).
Qed.

Lemma copied_first_pair folder uid_set rep a :
  OK rep = true →
  copied_first folder
    [(UID_COPY uid_set folder, Answered rep); (UID_STORE_DELETED uid_set, a)].
Proof.
  intros Hok t1 uid_set' a' t2 Heq.
  destruct t1 as [|e1 [|e2 t1]]; simpl in Heq.
  - done.
  - injection Heq as <- <- <- <-. by exists [], rep.
  - injection Heq as _ _ Heq. by destruct t1.
Qed.

(** One turn of the loop for a server that is not Gmail. *)
Lemma flag_batch_copies_first folder total archived entry :
  behaves (λ t _, copied_first folder t)
    (flag_batch false folder total archived entry).
Proof.
  destruct entry as [i batch]. unfold flag_batch.
  intros [|copied]; simpl.
  - by apply flags_nothing_copied_first, Forall_cons.
  - destruct (OK copied) eqn:Hok; simpl.
    + assert (Hpair : ∀ a, copied_first folder
                [(UID_COPY batch folder, Answered copied);
                 (UID_STORE_DELETED batch, a)])
        by (intros a; by apply copied_first_pair).
      intros [|stored]; simpl; [apply Hpair|].
      destruct (OK stored); simpl; [|apply Hpair].
      destruct (_ || _); simpl; apply Hpair.
    + by apply flags_nothing_copied_first, Forall_cons.
Qed.

Lemma sends_behaves {A} P (m : prog A) :
  sends P m → behaves (λ t _, Forall (λ e, P e.1) t) m.
Proof.
  induction m as [a| |c k IH|n k IH]; simpl.
  - intros _. apply Forall_nil_2.
  - intros _. apply Forall_nil_2.
  - intros [Hc Hk] a.
    apply (behaves_weaken (λ t _, Forall (λ e, P e.1) t)); [|by apply IH].
    intros t _ Ht. by apply Forall_cons.
  - apply IH.
Qed.

Lemma returns_behaves {A} (Q : A → Prop) (m : prog A) :
  returns Q m → behaves (λ _ r, ∀ a, r = Some a → Q a) m.
Proof.
  induction m as [a| |c k IH|n k IH]; simpl.
  - by intros ? ? [= <-].
  - done.
  - intros Hk a. by apply IH.
  - apply IH.
Qed.

Lemma behaves_and {A} (Q Q' : list (command * answer) → option A → Prop)
    (m : prog A) :
  behaves Q m → behaves Q' m → behaves (λ t r, Q t r ∧ Q' t r) m.
Proof.
  revert Q Q'. induction m as [a| |c k IH|n k IH]; intros Q Q'; simpl;
    [done|done|..].
  - intros Hk Hk' a.
    by apply (IH a (λ t, Q ((c, a) :: t)) (λ t, Q' ((c, a) :: t))).
  - apply IH.
Qed.

(** The requests of [ensure_archive_folder], and the names it returns. *)
Lemma ensure_archive_folder_sends :
  sends (λ c, c ∈ [LIST; CREATE "Archive"; CREATE "INBOX.Archive"])
    ensure_archive_folder.
Proof.
  unfold ensure_archive_folder.
  apply sends_bind; [apply sends_call; by left|]. intros listed.
  destruct (existsb _ _); [done|].
  apply sends_bind; [apply sends_call; right; by left|]. intros made.
  destruct (OK made); [done|].
  apply sends_bind; [apply sends_call; right; right; by left|]. intros made'.
  by destruct (OK made').
Qed.

Lemma ensure_archive_folder_returns :
  returns (λ r, ∀ folder, r = Some folder →
                          folder ∈ ["Archive"; "INBOX.Archive"])
    ensure_archive_folder.
Proof.
  unfold ensure_archive_folder.
  eapply returns_bind; [apply Phase2.returns_anything|]. intros listed _.
  destruct (existsb _ _); [by intros ? [= <-]; left|].
  eapply returns_bind; [apply Phase2.returns_anything|]. intros made _.
  destruct (OK made); [by intros ? [= <-]; left|].
  eapply returns_bind; [apply Phase2.returns_anything|]. intros made' _.
  destruct (OK made'); [by intros ? [= <-]; right; left|done].
Qed.

Definition no_flag (c : command) : Prop :=
  match c with UID_STORE_DELETED _ => False | _ => True end.

Lemma no_flag_flags_nothing t :
  Forall (λ e, no_flag e.1) t → flags_nothing t.
Proof. done. Qed.

(** Properties of traces that the empty trace has and that concatenation
    keeps hold of a program when they hold of its parts. *)
Section Closed.

Variable G : list (command * answer) → Prop.
Hypothesis G_nil : G [].
Hypothesis G_app : ∀ t t', G t → G t' → G (t ++ t').

Lemma closed_bind {A B} (m : prog A) (f : A → prog B) :
  behaves (λ t _, G t) m → (∀ a, behaves (λ t _, G t) (f a)) →
  behaves (λ t _, G t) (m ≫= f).
Proof.
  intros Hm Hf. eapply behaves_bind; [exact Hm|done|].
  intros t a Ht. apply (behaves_weaken (λ t' _, G t')); [|apply Hf].
  intros t' _ Ht'. by apply G_app.
Qed.

Lemma closed_for_each {X St} (xs : list X) (body : St → X → prog St) st :
  (∀ st x, behaves (λ t _, G t) (body st x)) →
  behaves (λ t _, G t) (for_each xs body st).
Proof.
  intros Hbody. revert st. induction xs as [|x xs IH]; intros st; [done|].
  change (for_each (x :: xs) body st)
    with (body st x ≫= λ st', for_each xs body st').
  by apply closed_bind.
Qed.

Lemma closed_catch {A} (body handler : prog A) :
  behaves (λ t _, G t) body → behaves (λ t _, G t) handler →
  behaves (λ t _, G t) (catch body handler).
Proof.
  intros Hbody Hhandler. eapply behaves_catch; [exact Hbody|done|].
  intros t Ht. apply (behaves_weaken (λ t' _, G t')); [|exact Hhandler].
  intros t' _ Ht'. by apply G_app.
Qed.

End Closed.

Lemma copied_first_nil folder : copied_first folder [].
Proof. by apply flags_nothing_copied_first, Forall_nil_2. Qed.

Lemma sends_copies_first {A} folder (m : prog A) :
  sends no_flag m → behaves (λ t _, copied_first folder t) m.
Proof.
  intros Hm.
  apply (behaves_weaken (λ t _, Forall (λ e, no_flag e.1) t));
    [|by apply sends_behaves].
  intros t _ Ht. by apply flags_nothing_copied_first.
Qed.

(** What follows the resolution on a server that is not Gmail. *)
Lemma archive_matched_copies_first no_match matched_uids dry_run acct :
  is_gmail acct = false →
  behaves (λ t _, ∃ folder, folder ∈ ["Archive"; "INBOX.Archive"]
                            ∧ copied_first folder t)
    (archive_matched no_match matched_uids dry_run acct).
Proof.
  intros Hother.
  assert (Hnone : ∀ t : list (command * answer),
            flags_nothing t →
            ∃ folder, folder ∈ ["Archive"; "INBOX.Archive"]
                      ∧ copied_first folder t).
  { intros t Ht. exists "Archive". split; [by left|].
    by apply flags_nothing_copied_first. }
  assert (Hensure : ∀ t : list (command * answer),
            Forall (λ e, e.1 ∈ [LIST; CREATE "Archive";
                                CREATE "INBOX.Archive"]) t →
            flags_nothing t).
  { intros t Ht. eapply Forall_impl; [exact Ht|]. intros e He.
    rewrite !elem_of_cons, elem_of_nil in He.
    by destruct He as [->|[->|[->|[]]]]. }
  unfold archive_matched. rewrite Hother.
  destruct matched_uids as [|u us] eqn:Hus;
    [apply Hnone, Forall_nil_2|].
  rewrite <-Hus. clear Hus. destruct dry_run; [apply Hnone, Forall_nil_2|].
  eapply (behaves_bind
            (λ t r, flags_nothing t
                    ∧ ∀ pre folder, r = Some (Some (pre, folder)) →
                        folder ∈ ["Archive"; "INBOX.Archive"])).
  - eapply behaves_bind.
    + apply behaves_and;
        [apply (sends_behaves _ _ ensure_archive_folder_sends)
        |apply (returns_behaves _ _ ensure_archive_folder_returns)].
    + intros t [Ht _]. split; [by apply Hensure|done].
    + intros t [folder|] [Ht Hfolder]; simpl; rewrite app_nil_r;
        (split; [by apply Hensure|]); [|done].
      intros pre f [= _ <-]. by apply (Hfolder _ eq_refl).
  - intros t [Ht _]. by apply Hnone.
  - intros t [[pre folder]|] [Ht Hfolder];
      [|simpl; rewrite app_nil_r; by apply Hnone].
    apply (behaves_weaken (λ t' _, copied_first folder t')).
    { intros t' _ Ht'. exists folder. split; [by apply (Hfolder pre)|].
      apply copied_first_app; [|done].
      by apply flags_nothing_copied_first. }
    cbv beta iota.
    apply (closed_bind _ (copied_first_app folder)).
    { by apply sends_copies_first, sends_call. }
    intros _.
    apply (closed_bind _ (copied_first_app folder)).
    { apply (closed_for_each _ (copied_first_nil folder)
               (copied_first_app folder)).
      intros st x. apply flag_batch_copies_first. }
    intros archived. apply sends_copies_first.
    apply sends_bind; [done|]. intros _.
    apply sends_bind; [by apply sends_call|]. intros _.
    unfold check_and_report, verify_archive_safety. rewrite Hother. done.
Qed.

Lemma sends_weaken {A} (P Q : command → Prop) (m : prog A) :
  (∀ c, P c → Q c) → sends P m → sends Q m.
Proof.
  intros HPQ. induction m as [a| |c k IH|n k IH]; simpl; [done|done|..].
  - intros [Hc Hk]. split; [by apply HPQ|]. intros a. by apply IH.
  - apply IH.
Qed.

Lemma read_only_no_flag c : read_only c → no_flag c.
Proof. by destruct c. Qed.

(** A scan, then what follows it. *)
Lemma resolved_copies_first parts matches no_match dry_run acct :
  String.prefix "(BODY.PEEK[" parts = true →
  is_gmail acct = false →
  behaves (λ t _, ∃ folder, folder ∈ ["Archive"; "INBOX.Archive"]
                            ∧ copied_first folder t)
    (matched_uids ← scan_inbox parts matches;
     archive_matched no_match matched_uids dry_run acct).
Proof.
  intros Hparts Hother.
  assert (Hnone : ∀ t : list (command * answer),
            flags_nothing t →
            ∃ folder, folder ∈ ["Archive"; "INBOX.Archive"]
                      ∧ copied_first folder t).
  { intros t Ht. exists "Archive". split; [by left|].
    by apply flags_nothing_copied_first. }
  eapply (behaves_bind (λ t _, flags_nothing t)).
  - apply (sends_behaves no_flag).
    by eapply sends_weaken, scan_inbox_reads_only; [apply read_only_no_flag|].
  - intros t Ht. by apply Hnone.
  - intros t matched_uids Ht.
    eapply behaves_weaken; [|by apply archive_matched_copies_first].
    intros t' _ (folder & Hfolder & Ht'). exists folder. split; [done|].
    apply copied_first_app; [|done]. by apply flags_nothing_copied_first.
Qed.

(** X8: on an account that is not Gmail, whatever the server answers or
    raises, [archive_messages] and [phase2_archive] never flag a set of
    UIDs as deleted unless the request just before was the copy of that
    very set to the archive folder ([Archive] or [INBOX.Archive]) and the
    server answered it with OK. *)
Theorem copy_comes_first {S} (exec : command → S → answer * S) (s : S)
    (archive_senders : list string) (analysis : option (list string))
    (pass2 : option (list Refine.message)) (dry_run : bool)
    (acct : option account) :
  is_gmail acct = false →
  let by_sender :=
    run exec (archive_messages archive_senders dry_run acct) s in
  let by_message :=
    run exec (Phase2.phase2_archive analysis pass2 dry_run acct) s in
  (∃ folder, folder ∈ ["Archive"; "INBOX.Archive"]
             ∧ copied_first folder (trace by_sender))
  ∧ (∃ folder, folder ∈ ["Archive"; "INBOX.Archive"]
               ∧ copied_first folder (trace by_message)).
Proof.
  intros Hother by_sender by_message. split.
  - apply (behaves_run
             (λ t _, ∃ folder, folder ∈ ["Archive"; "INBOX.Archive"]
                               ∧ copied_first folder t)).
    unfold archive_messages. cbn [behaves mbind prog_bind bind print].
    by apply resolved_copies_first.
  - apply (behaves_run
             (λ t _, ∃ folder, folder ∈ ["Archive"; "INBOX.Archive"]
                               ∧ copied_first folder t)).
    assert (Hnone : ∃ folder, folder ∈ ["Archive"; "INBOX.Archive"]
                              ∧ copied_first folder []).
    { exists "Archive". split; [by left|]. apply copied_first_nil. }
    unfold Phase2.phase2_archive. destruct analysis as [listed|]; [|done].
    case_decide; [done|]. destruct pass2 as [all_msgs|]; [|done].
    cbn [behaves mbind prog_bind bind print].
    by apply resolved_copies_first.
Qed.

(** The small mailbox behind an account of another provider: the folder is
    created, the message copied, then flagged. *)
Lemma copy_comes_first_witness :
  let acct := Some (Account "work" "me@example.org" (Some "mail.example.org")) in
  let r :=
    run Mailbox.exec (archive_messages ["deals@shop.example.com"] false acct)
      (Mailbox.two_messages true) in
  is_gmail acct = false
  ∧ drop 3 (sent r)
    = [LIST; CREATE "Archive"; SELECT "INBOX" false;
       UID_COPY ["101"] "Archive"; UID_STORE_DELETED ["101"]; EXPUNGE]
  ∧ ∃ folder, folder ∈ ["Archive"; "INBOX.Archive"]
              ∧ copied_first folder (trace r).
Proof.
  cbv zeta. split; [reflexivity|]. split; [by vm_compute|].
  apply (copy_comes_first Mailbox.exec (Mailbox.two_messages true)
           ["deals@shop.example.com"] None None false
           (Some (Account "work" "me@example.org" (Some "mail.example.org")))).
  reflexivity.
Defined.

(** *** The archive folder *)

(** The runs of [ensure_archive_folder], one line for each way through. *)
Definition folder_run (t : list (command * answer))
    (r : option (option string)) : Prop :=
  (t = [(LIST, Raised)] ∧ r = None)
  ∨ (∃ listed, existsb names_archive (lines listed) = true
       ∧ t = [(LIST, Answered listed)] ∧ r = Some (Some "Archive"))
  ∨ (∃ listed, existsb names_archive (lines listed) = false
       ∧ ((t = [(LIST, Answered listed); (CREATE "Archive", Raised)]
           ∧ r = None)
          ∨ ∃ made,
              (OK made = true
               ∧ t = [(LIST, Answered listed);
                      (CREATE "Archive", Answered made)]
               ∧ r = Some (Some "Archive"))
              ∨ (OK made = false
                 ∧ ((t = [(LIST, Answered listed);
                          (CREATE "Archive", Answered made);
                          (CREATE "INBOX.Archive", Raised)]
                     ∧ r = None)
                    ∨ ∃ made',
                        t = [(LIST, Answered listed);
                             (CREATE "Archive", Answered made);
                             (CREATE "INBOX.Archive", Answered made')]
                        ∧ ((OK made' = true ∧ r = Some (Some "INBOX.Archive"))
                           ∨ (OK made' = false ∧ r = Some None)))))).

Lemma ensure_archive_folder_runs : behaves folder_run ensure_archive_folder.
Proof.
  unfold ensure_archive_folder, folder_run.
  intros [|listed]; simpl; [by left|].
  destruct (existsb names_archive (lines listed)) eqn:Hlisted; simpl.
  { right; left. by exists listed. }
  intros [|made]; simpl.
  { right; right. exists listed. split; [done|]. by left. }
  destruct (OK made) eqn:Hmade; simpl.
  { right; right. exists listed. split; [done|]. right. exists made.
    by left. }
  intros [|made']; simpl.
  { right; right. exists listed. split; [done|]. right. exists made.
    right. split; [done|]. by left. }
  destruct (OK made') eqn:Hmade'; simpl;
    (right; right; exists listed; split; [done|]; right; exists made;
     right; split; [done|]; right; exists made'; split; [done|]);
    [by left|by right].
Qed.

(** X9: whatever the server answers or raises, [ensure_archive_folder]
    sends a LIST and then at most the two CREATE requests, in this order;
    when a line of the listing names an Archive folder it creates nothing
    and returns [Archive]; a folder it returns was listed or was created
    with an OK; it returns [None] only when the server refused both
    creations. *)
Theorem archive_folder_found_or_made {S} (exec : command → S → answer * S)
    (s : S) :
  let r := run exec ensure_archive_folder s in
  sent r `prefix_of` [LIST; CREATE "Archive"; CREATE "INBOX.Archive"]
  ∧ (∀ listed, (LIST, Answered listed) ∈ trace r →
               existsb names_archive (lines listed) = true →
               sent r = [LIST] ∧ result r = Some (Some "Archive"))
  ∧ (∀ folder, result r = Some (Some folder) →
               (folder = "Archive"
                ∧ ∃ listed, trace r = [(LIST, Answered listed)]
                            ∧ existsb names_archive (lines listed) = true)
               ∨ ∃ made, last (trace r) = Some (CREATE folder, Answered made)
                         ∧ OK made = true)
  ∧ (result r = Some None →
     ∃ listed made made',
       trace r = [(LIST, Answered listed); (CREATE "Archive", Answered made);
                  (CREATE "INBOX.Archive", Answered made')]
       ∧ OK made = false ∧ OK made' = false).
Proof.
  intros r. pose proof (behaves_run folder_run exec ensure_archive_folder s
                          ensure_archive_folder_runs) as Hrun.
  fold r in Hrun. unfold sent.
  destruct Hrun
    as [[-> ->]
       |[(listed & Hlisted & -> & ->)
        |(listed & Hlisted
          & [[-> ->]
            |(made
              & [(Hmade & -> & ->)
                |(Hmade
                  & [[-> ->]
                    |(made' & -> & [[Hmade' ->]|[Hmade' ->]])])])])]].
  - split_and!; [by exists [CREATE "Archive"; CREATE "INBOX.Archive"]
                |by intros ? [[=]|[]%elem_of_nil]%elem_of_cons|done|done].
  - split_and!; [by exists [CREATE "Archive"; CREATE "INBOX.Archive"]
                |done| |done].
    intros folder [= <-]. left. split; [done|]. by exists listed.
  - split_and!; [by exists [CREATE "INBOX.Archive"]| |done|done].
    intros l Hin Hl. rewrite !elem_of_cons, elem_of_nil in Hin.
    destruct Hin as [[= <-]|[[=]|[]]]. congruence.
  - split_and!; [by exists [CREATE "INBOX.Archive"]| | |done].
    + intros l Hin Hl. rewrite !elem_of_cons, elem_of_nil in Hin.
      destruct Hin as [[= <-]|[[=]|[]]]. congruence.
    + intros folder [= <-]. right. by exists made.
  - split_and!; [by exists []| |done|done].
    intros l Hin Hl. rewrite !elem_of_cons, elem_of_nil in Hin.
    destruct Hin as [[= <-]|[[=]|[[=]|[]]]]. congruence.
  - split_and!; [by exists []| | |done].
    + intros l Hin Hl. rewrite !elem_of_cons, elem_of_nil in Hin.
      destruct Hin as [[= <-]|[[=]|[[=]|[]]]]. congruence.
    + intros folder [= <-]. right. by exists made'.
  - split_and!; [by exists []| |done|].
    + intros l Hin Hl. rewrite !elem_of_cons, elem_of_nil in Hin.
      destruct Hin as [[= <-]|[[=]|[[=]|[]]]]. congruence.
    + intros _. by exists listed, made, made'.
Qed.

Lemma run_print_ret {A S} (exec : command → S → answer * S) n (a : A) s :
  run exec (print n ≫= λ _, Ret a) s = Ran (Some a) s [] [n].
Proof. reflexivity. Qed.

(** X10: on an account that is not Gmail, when the scan has matched
    messages and no archive folder can be had (the listing names none and
    the server refuses both creations), [archive_messages] prints the error
    and returns 0: after the scan it has sent the LIST and the two CREATE
    requests and nothing else, so no message is copied, flagged or
    expunged. *)
Theorem no_folder_no_archive {S} (exec : command → S → answer * S) (s : S)
    (archive_senders : list string) (acct : option account)
    (matched_uids : list string) :
  is_gmail acct = false →
  let scan :=
    run exec (scan_inbox_uids_by_sender
                (list_to_set (lower <$> archive_senders))) s in
  let folder := run exec ensure_archive_folder (server scan) in
  result scan = Some matched_uids → matched_uids ≠ [] →
  result folder = Some None →
  run exec (archive_messages archive_senders false acct) s
  = Ran (Some 0%nat) (server folder) (trace scan ++ trace folder)
      (Scanning :: printed scan ++ printed folder
       ++ [CouldNotCreateArchiveFolder])
  ∧ Forall (λ c, read_only c ∨ ∃ name, c = CREATE name)
      (sent scan ++ sent folder).
Proof.
  intros Hother scan folder Hscan Hne Hfolder. split.
  - rewrite run_archive_messages. cbv zeta. fold scan. rewrite Hscan.
    unfold archive_matched. rewrite Hother.
    destruct matched_uids as [|u us]; [done|].
    rewrite !run_bind. unfold and_then. fold folder. rewrite Hfolder.
    rewrite (run_print_ret exec). cbn [run result server trace printed].
    by rewrite !app_nil_r.
  - apply Forall_app. split.
    + eapply Forall_impl;
        [by apply (sends_run read_only), scan_inbox_reads_only|].
      intros c Hc. by left.
    + eapply Forall_impl;
        [apply (sends_run _ exec _ (server scan)
                  ensure_archive_folder_sends)|].
      intros c Hc. simpl in Hc. rewrite !elem_of_cons, elem_of_nil in Hc.
      destruct Hc as [->|[->|[->|[]]]]; [by left|right; by eexists..].
Qed.

(** The small mailbox on a server that refuses to create folders. *)
Definition refusing (c : command) (st : Mailbox.state)
    : answer * Mailbox.state :=
  match c with
  | CREATE _ => (Answered (Reply "NO" [] [] []), st)
  | _ => Mailbox.exec c st
  end.

Lemma no_folder_no_archive_witness :
  let acct := Some (Account "work" "me@example.org" (Some "mail.example.org")) in
  let st := Mailbox.two_messages true in
  let scan :=
    run refusing
      (scan_inbox_uids_by_sender
         (list_to_set (lower <$> ["deals@shop.example.com"]))) st in
  let r :=
    run refusing (archive_messages ["deals@shop.example.com"] false acct) st in
  is_gmail acct = false
  ∧ result scan = Some ["101"]
  ∧ result (run refusing ensure_archive_folder (server scan)) = Some None
  ∧ result r = Some 0%nat
  ∧ server r = st
  ∧ CouldNotCreateArchiveFolder ∈ printed r.
Proof.
  cbv zeta.
  destruct (no_folder_no_archive refusing (Mailbox.two_messages true)
              ["deals@shop.example.com"]
              (Some (Account "work" "me@example.org"
                       (Some "mail.example.org")))
              ["101"]) as [Hrun _];
    [reflexivity|by vm_compute|done|by vm_compute|].
  split; [reflexivity|]. split; [by vm_compute|]. split; [by vm_compute|].
  rewrite Hrun. cbn [result server printed].
  split; [done|]. split; [by vm_compute|].
  right. apply elem_of_app. right. apply elem_of_app. right. by left.
Defined.

(** *** The single EXPUNGE *)

Definition not_expunge (c : command) : Prop := c ≠ EXPUNGE.

(** The requests of the safety check. *)
Definition checking (c : command) : Prop :=
  match c with
  | SELECT _ _ | SEARCH_ALL => True
  | _ => False
  end.

(** A run sends no EXPUNGE and returns 0 if it returns; or it sends one
    EXPUNGE, followed by requests of the safety check only, and returns
    only if the server answered the EXPUNGE. *)
Definition expunges_once (t : list (command * answer)) (r : option nat)
    : Prop :=
  (Forall (λ e, not_expunge e.1) t ∧ ∀ n, r = Some n → n = 0%nat)
  ∨ ∃ t1 a t2,
      t = t1 ++ (EXPUNGE, a) :: t2
      ∧ Forall (λ e, not_expunge e.1) t1
      ∧ Forall (λ e, checking e.1) t2
      ∧ (is_Some r → ∃ rep, a = Answered rep).

Lemma expunges_once_after t t' r :
  Forall (λ e, not_expunge e.1) t → expunges_once t' r →
  expunges_once (t ++ t') r.
Proof.
  intros Ht [[Ht' Hr]|(t1 & a & t2 & -> & Ht1 & Ht2 & Hr)].
  - left. split; [by apply Forall_app|done].
  - right. exists (t ++ t1), a, t2. rewrite (assoc_L (++)).
    split; [done|]. split; [by apply Forall_app|done].
Qed.

Lemma check_and_report_checks pre acct archived :
  sends checking (check_and_report pre acct archived).
Proof.
  unfold check_and_report. apply sends_bind.
  - unfold verify_archive_safety. destruct (negb (is_gmail acct)); [done|].
    apply sends_catch.
    + apply sends_bind.
      { unfold count_all_mail.
        apply sends_bind; [by apply sends_call|]. intros _.
        apply sends_bind; [by apply sends_call|]. done. }
      intros post. apply sends_bind; [by apply sends_call|]. done.
    + apply sends_bind; [by apply sends_call|]. done.
  - intros safe. by destruct safe.
Qed.

Lemma flag_batch_no_expunge gmail folder total archived entry :
  sends not_expunge (flag_batch gmail folder total archived entry).
Proof.
  destruct entry as [i batch]. unfold flag_batch. apply sends_bind.
  { destruct gmail; [done|]. apply sends_bind; [by apply sends_call|]. done. }
  intros copied. destruct (negb copied); [done|].
  apply sends_bind; [by apply sends_call|]. intros stored.
  destruct (negb (OK stored)); [done|]. by destruct (_ || _).
Qed.

Lemma archive_matched_expunges_once no_match matched_uids dry_run acct :
  behaves expunges_once (archive_matched no_match matched_uids dry_run acct).
Proof.
  assert (Hzero : expunges_once [] (Some 0%nat)).
  { left. split; [apply Forall_nil_2|]. by intros n [= <-]. }
  unfold archive_matched.
  destruct matched_uids as [|u us] eqn:Hus; [done|].
  rewrite <-Hus. clear Hus. destruct dry_run; [done|].
  eapply (behaves_bind (λ t _, Forall (λ e, not_expunge e.1) t)).
  - apply (sends_behaves not_expunge). destruct (is_gmail acct).
    + apply sends_bind; [|done]. unfold count_all_mail.
      apply sends_bind; [by apply sends_call|]. intros _.
      apply sends_bind; [by apply sends_call|]. done.
    + apply sends_bind; [|by intros [folder|]].
      eapply sends_weaken; [|apply ensure_archive_folder_sends].
      intros c Hc. rewrite !elem_of_cons, elem_of_nil in Hc.
      by destruct Hc as [->|[->|[->|[]]]].
  - intros t Ht. by left.
  - intros t [[pre folder]|] Ht; [|simpl; rewrite app_nil_r; left; split;
                                   [done|by intros n [= <-]]].
    apply (behaves_weaken expunges_once);
      [intros t' r; by apply expunges_once_after|].
    cbv beta iota.
    eapply (behaves_bind (λ t _, Forall (λ e, not_expunge e.1) t)).
    { apply (sends_behaves not_expunge). by apply sends_call. }
    { intros t1 Ht1. by left. }
    intros t1 _ Ht1.
    apply (behaves_weaken expunges_once);
      [intros t' r; by apply expunges_once_after|].
    eapply (behaves_bind (λ t _, Forall (λ e, not_expunge e.1) t)).
    { apply (sends_behaves not_expunge), sends_for_each.
      intros st x. apply flag_batch_no_expunge. }
    { intros t2 Ht2. by left. }
    intros t2 archived Ht2.
    apply (behaves_weaken expunges_once);
      [intros t' r; by apply expunges_once_after|].
    cbn [mbind prog_bind bind print call behaves].
    intros [|rep]; cbn [bind behaves].
    + right. exists [], Raised, []. split; [done|].
      split; [apply Forall_nil_2|]. split; [apply Forall_nil_2|].
      by intros [? [=]].
    + apply (behaves_weaken (λ t _, Forall (λ e, checking e.1) t));
        [|apply (sends_behaves checking), check_and_report_checks].
      intros t3 r Ht3. right. exists [], (Answered rep), t3.
      split; [done|]. split; [apply Forall_nil_2|]. split; [done|].
      intros _. by exists rep.
Qed.

Lemma resolved_expunges_once parts matches no_match dry_run acct :
  String.prefix "(BODY.PEEK[" parts = true →
  behaves expunges_once
    (matched_uids ← scan_inbox parts matches;
     archive_matched no_match matched_uids dry_run acct).
Proof.
  intros Hparts.
  eapply (behaves_bind (λ t _, Forall (λ e, not_expunge e.1) t)).
  - apply (sends_behaves not_expunge).
    eapply sends_weaken; [|by apply scan_inbox_reads_only].
    intros c Hc ->. done.
  - intros t Ht. by left.
  - intros t matched_uids Ht.
    apply (behaves_weaken expunges_once);
      [intros t' r; by apply expunges_once_after|].
    apply archive_matched_expunges_once.
Qed.

(** X11: whatever the server answers or raises, on either backend, a run
    of [archive_messages] or of [phase2_archive] either sends no EXPUNGE,
    and then returns 0 if it returns at all, or sends exactly one EXPUNGE,
    after which it sends nothing but the selections and the search of the
    safety check; it returns a count only if the server answered that
    EXPUNGE. *)
Theorem expunge_comes_once {S} (exec : command → S → answer * S) (s : S)
    (archive_senders : list string) (analysis : option (list string))
    (pass2 : option (list Refine.message)) (dry_run : bool)
    (acct : option account) :
  let by_sender :=
    run exec (archive_messages archive_senders dry_run acct) s in
  let by_message :=
    run exec (Phase2.phase2_archive analysis pass2 dry_run acct) s in
  expunges_once (trace by_sender) (result by_sender)
  ∧ expunges_once (trace by_message) (result by_message).
Proof.
  intros by_sender by_message. split.
  - apply (behaves_run expunges_once).
    unfold archive_messages. cbn [behaves mbind prog_bind bind print].
    by apply resolved_expunges_once.
  - apply (behaves_run expunges_once).
    unfold Phase2.phase2_archive. destruct analysis as [listed|].
    2: { left. by split; [apply Forall_nil_2|]. }
    case_decide.
    { left. split; [apply Forall_nil_2|]. by intros n [= <-]. }
    destruct pass2 as [all_msgs|].
    2: { left. by split; [apply Forall_nil_2|]. }
    cbn [behaves mbind prog_bind bind print].
    by apply resolved_expunges_once.
Qed.

End Backends.

(** ** Resolving targets to UIDs: the two scans of the inbox *)
Module Resolution.
Import PyStr Fetch Imap Archive Phase2.

(** *** What a scan asks and returns *)

Lemma yields_for_each_indexed {X St}
    (I : list X → list (command * answer) → St → Prop) (xs : list X)
    (body : St → X → prog St) seen t st :
  (∀ seen x t st, I seen t st →
     yields (λ t' st', I (seen ++ [x]) (t ++ t') st') (body st x)) →
  I seen t st →
  yields (λ t' st', I (seen ++ xs) (t ++ t') st') (for_each xs body st).
Proof.
  intros Hbody. revert seen t st.
  induction xs as [|x xs IH]; intros seen t st Hst.
  - simpl. by rewrite !app_nil_r.
  - change (for_each (x :: xs) body st)
      with (body st x ≫= λ st', for_each xs body st').
    eapply yields_bind; [by apply Hbody|].
    intros t' st' Hst'. simpl in Hst'.
    apply (yields_weaken
             (λ t'' st'', I ((seen ++ [x]) ++ xs) ((t ++ t') ++ t'') st''));
      [|by apply IH].
    intros t'' st''. by rewrite <-!(assoc_L (++)).
Qed.

(** The exchanges of the fetches of a scan: one for each batch. *)
Definition fetches (parts : string) (todo : list (list string))
    (replies : list reply) : list (command * answer) :=
  zip_with (λ batch rep, (UID_FETCH batch parts, Answered rep)) todo replies.

Lemma fetches_snoc parts todo replies batch rep :
  length replies = length todo →
  fetches parts (todo ++ [batch]) (replies ++ [rep])
  = fetches parts todo replies ++ [(UID_FETCH batch parts, Answered rep)].
Proof. intros Hlen. unfold fetches. by rewrite zip_with_app. Qed.

Lemma scan_inbox_yields parts matches :
  yields
    (λ t matched_uids,
       ∃ a found replies,
         t = (SELECT "INBOX" true, Answered a)
             :: (UID_SEARCH_ALL, Answered found)
             :: fetches parts (batches 500 (ids found)) replies
         ∧ length replies = length (batches 500 (ids found))
         ∧ matched_uids = omap matches (replies ≫= items))
    (scan_inbox parts matches).
Proof.
  unfold scan_inbox.
  eapply (yields_bind (λ t _, ∃ a, t = [(SELECT "INBOX" true, Answered a)])).
  { apply yields_call. intros rep. by exists rep. }
  intros t1 _ [a ->].
  eapply (yields_bind
            (λ t found, t = [(UID_SEARCH_ALL, Answered found)])).
  { by apply yields_call. }
  intros t2 found ->.
  apply (yields_weaken
           (λ t' st',
              ∃ replies,
                [] ++ t' = fetches parts
                             ([] ++ batches_at 500 (ids found)).*2 replies
                ∧ length replies
                  = length ([] ++ batches_at 500 (ids found))
                ∧ st' = omap matches (replies ≫= items))).
  { intros t' st' (replies & Ht' & Hlen & ->). simpl in Ht', Hlen.
    rewrite batches_at_batches in Ht'.
    exists a, found, replies. rewrite Ht'. split; [done|]. split; [|done].
    by rewrite Hlen, <-batches_at_batches, length_fmap. }
  apply (yields_for_each_indexed
           (λ seen t st,
              ∃ replies,
                t = fetches parts seen.*2 replies
                ∧ length replies = length seen
                ∧ st = omap matches (replies ≫= items))).
  - intros seen [i batch] t st (replies & -> & Hlen & ->).
    apply (yields_bind
             (λ t' fetched, t' = [(UID_FETCH batch parts, Answered fetched)])).
    { by apply yields_call. }
    intros t' fetched ->. simpl. exists (replies ++ [fetched]).
    rewrite fmap_app. simpl.
    rewrite fetches_snoc by (by rewrite length_fmap).
    split; [done|]. split; [rewrite !length_app; simpl; lia|].
    by rewrite bind_app, omap_app, bind_singleton.
  - by exists [].
Qed.

Lemma behaves_anything {A} (m : prog A) : Backends.behaves (λ _ _, True) m.
Proof. induction m as [a| |c k IH|n k IH]; simpl; auto. Qed.

Lemma scan_inbox_nothing_to_fetch parts matches :
  Backends.behaves
    (λ t r, ∀ a found rest,
       t = (SELECT "INBOX" true, a) :: (UID_SEARCH_ALL, Answered found) :: rest →
       ids found = [] → rest = [] ∧ r = Some [])
    (scan_inbox parts matches).
Proof.
  unfold scan_inbox. intros [|a]; simpl; [done|].
  intros [|found]; simpl.
  { intros a' found rest Heq. discriminate Heq. }
  destruct (ids found) as [|uid uids] eqn:Hids.
  - simpl. by intros a' found' rest [= _ <- <-] _.
  - apply (Backends.behaves_weaken (λ _ _, True));
      [|apply behaves_anything].
    intros t r _ a' found' rest [= _ <- _] Hnil. congruence.
Qed.

(** What a run of a scan is, for the headers [parts] it asks for and the
    test [matches] of an element of a reply. *)
Definition scanned {S} (parts : string)
    (matches : item (option headers) → option string)
    (r : ran (list string) S) : Prop :=
  (∀ matched_uids,
     result r = Some matched_uids →
     ∃ a found replies,
       trace r = (SELECT "INBOX" true, Answered a)
                 :: (UID_SEARCH_ALL, Answered found)
                 :: fetches parts (batches 500 (ids found)) replies
       ∧ length replies = length (batches 500 (ids found))
       ∧ matched_uids = omap matches (replies ≫= items))
  ∧ (∀ a found rest,
       trace r = (SELECT "INBOX" true, a)
                 :: (UID_SEARCH_ALL, Answered found) :: rest →
       ids found = [] → rest = [] ∧ result r = Some []).

Lemma scan_inbox_scanned {S} (exec : command → S → answer * S) s parts
    matches :
  scanned parts matches (run exec (scan_inbox parts matches) s).
Proof.
  split.
  - intros matched_uids Hresult.
    by apply (yields_run _ exec (scan_inbox parts matches) s matched_uids
                (scan_inbox_yields parts matches)).
  - apply (Backends.behaves_run _ exec (scan_inbox parts matches) s
             (scan_inbox_nothing_to_fetch parts matches)).
Qed.

(** X12: a scan of the inbox that returns has selected the inbox read-only,
    searched its UIDs, and fetched the headers of each batch of 500 of them
    once, in order; it returns the UIDs of the elements of the replies that
    match, in the order of the replies.  When the search finds no UID it
    fetches nothing and returns the empty list.  This holds of the scan by
    sender and of the scan of phase 2, against any server. *)
Theorem scan_returns_what_matches {S} (exec : command → S → answer * S)
    (s : S) (target_senders : gset string) (target_msg_ids : gset string)
    (messages_lookup : gmap string Refine.message) :
  scanned "(BODY.PEEK[HEADER.FIELDS (FROM)])" (sender_match target_senders)
    (run exec (scan_inbox_uids_by_sender target_senders) s)
  ∧ scanned "(BODY.PEEK[HEADER.FIELDS (FROM SUBJECT)])"
      (subject_match (target_keys_of target_msg_ids messages_lookup))
      (run exec (scan_inbox_uids_for_phase2 target_msg_ids messages_lookup) s).
Proof. split; apply scan_inbox_scanned. Qed.

(** *** The test of phase 2: sender and subject *)

(** The key under which phase 2 looks a message up. *)
Definition key_of (sender subject : string) : string * string :=
  (lower sender, lower (Refine._normalise_subject subject)).

Lemma elem_of_target_keys target_msg_ids messages_lookup k :
  k ∈ target_keys_of target_msg_ids messages_lookup
  ↔ ∃ mid m, mid ∈ target_msg_ids ∧ messages_lookup !! mid = Some m
             ∧ k = key_of (Refine.from_email m) (Refine.subject m).
Proof.
  unfold target_keys_of. rewrite elem_of_list_to_set, list_elem_of_omap.
  split.
  - intros (mid & Hmid%elem_of_elements & Hk).
    destruct (messages_lookup !! mid) as [m|] eqn:Hm; [|done].
    injection Hk as <-. by exists mid, m.
  - intros (mid & m & Hmid & Hm & ->). exists mid.
    split; [by apply elem_of_elements|]. by rewrite Hm.
Qed.

Lemma messages_lookup_snoc all_msgs m :
  messages_lookup_of (all_msgs ++ [m])
  = <[Refine.msg_id m := m]> (messages_lookup_of all_msgs).
Proof. unfold messages_lookup_of. by rewrite foldl_app. Qed.

(** A message found under an id is a message of the list with that id; when
    the ids of the list are distinct, every message is found under its
    id. *)
Lemma messages_lookup_spec all_msgs :
  (∀ mid m, messages_lookup_of all_msgs !! mid = Some m →
            m ∈ all_msgs ∧ Refine.msg_id m = mid)
  ∧ (NoDup (Refine.msg_id <$> all_msgs) →
     ∀ m, m ∈ all_msgs →
          messages_lookup_of all_msgs !! Refine.msg_id m = Some m).
Proof.
  induction all_msgs as [|m0 all_msgs [IH1 IH2]] using rev_ind.
  - split; [done|]. by intros _ m ?%elem_of_nil.
  - rewrite messages_lookup_snoc. split.
    + intros mid m. destruct (decide (Refine.msg_id m0 = mid)) as [<-|Hne].
      * rewrite lookup_insert_eq. intros [= <-].
        split; [|done]. apply elem_of_app. right. by left.
      * rewrite lookup_insert_ne by done. intros [Hin Hid]%IH1.
        split; [|done]. apply elem_of_app. by left.
    + rewrite fmap_app. intros (Hnodup & Hfresh & _)%NoDup_app m.
      intros [Hin|Hin%list_elem_of_singleton]%elem_of_app.
      * rewrite lookup_insert_ne; [by apply IH2|].
        intros Heq. apply (Hfresh (Refine.msg_id m)).
        -- apply list_elem_of_fmap. by exists m.
        -- rewrite <-Heq. by left.
      * subst m. by rewrite lookup_insert_eq.
Qed.

Lemma subject_match_spec (target_msg_ids : gset string)
    (all_msgs : list Refine.message) (resp_line : string) (msg : headers)
    (uid_val : string) :
  let messages_lookup := messages_lookup_of all_msgs in
  subject_match (target_keys_of target_msg_ids messages_lookup)
    (Tuple resp_line (Some msg)) = Some uid_val
  ↔ uid_of resp_line = Some uid_val
    ∧ ∃ mid m,
        mid ∈ target_msg_ids ∧ messages_lookup !! mid = Some m
        ∧ m ∈ all_msgs ∧ Refine.msg_id m = mid
        ∧ key_of (Refine.from_email m) (Refine.subject m)
          = key_of (get_sender_email (default "" (h_from msg)))
              (default "" (h_subject msg)).
Proof.
  intros messages_lookup. unfold subject_match.
  destruct (uid_of resp_line) as [uid|]; simpl.
  2: { split; [done|]. by intros [? _]. }
  fold (key_of (get_sender_email (default "" (h_from msg)))
          (default "" (h_subject msg))).
  case_decide as Hkey.
  - apply elem_of_target_keys in Hkey as (mid & m & Hmid & Hm & Hk).
    split; [|by intros [? _]]. intros [= <-]. split; [done|].
    exists mid, m.
    destruct (proj1 (messages_lookup_spec all_msgs) mid m Hm) as [Hin Hid].
    by rewrite Hk.
  - split; [done|]. intros [_ (mid & m & Hmid & Hm & _ & _ & Hk)].
    destruct Hkey. apply elem_of_target_keys. by exists mid, m.
Qed.


(** X13: the scan of phase 2 matches an element of a reply exactly when
    its line gives a UID and some targeted message of the lookup has the
    sender and the normalised subject of its headers, letter case apart.
    The identifier of a message plays no part in the test, and neither
    does its date: a message of the inbox with the sender and the subject
    of a targeted one is matched whether it is targeted itself or not.
    When the ids of the list are distinct, every message of the list is
    the one looked up under its id. *)
Theorem phase2_matches_sender_and_subject (target_msg_ids : gset string)
    (all_msgs : list Refine.message) (resp_line : string) (msg : headers)
    (uid_val : string) :
  let messages_lookup := messages_lookup_of all_msgs in
  (subject_match (target_keys_of target_msg_ids messages_lookup)
     (Tuple resp_line (Some msg)) = Some uid_val
   ↔ uid_of resp_line = Some uid_val
    ∧ ∃ mid m,
        mid ∈ target_msg_ids ∧ messages_lookup !! mid = Some m
        ∧ m ∈ all_msgs ∧ Refine.msg_id m = mid
        ∧ key_of (Refine.from_email m) (Refine.subject m)
          = key_of (get_sender_email (default "" (h_from msg)))
              (default "" (h_subject msg)))
  ∧ (NoDup (Refine.msg_id <$> all_msgs) →
     ∀ m, m ∈ all_msgs → messages_lookup !! Refine.msg_id m = Some m).
Proof.
  intros messages_lookup. split.
  - apply subject_match_spec.
  - apply messages_lookup_spec.
Qed.

Lemma lower_empty s : lower s = "" → s = "".
Proof. by destruct s. Qed.

(** X14: from the metadata fetch to the scan of phase 2.  A message whose
    record [fetch_metadata] made from headers with a Subject, and which is
    targeted and looked up under its id, is matched by the scan when the
    server shows the same headers with a UID.  A message without a Subject
    header is stored with the subject [(no subject)] but scanned with the
    empty subject: when no message of the list has an empty normalised
    subject, the scan does not match it. *)
Theorem stored_message_is_found (parsedate_iso : string → option string)
    (seq_info : string) (msg : headers) (r : record) (m : Refine.message)
    (target_msg_ids : gset string) (all_msgs : list Refine.message)
    (resp_line uid_val : string) :
  parse_item parsedate_iso (Tuple seq_info (Some msg)) = Some r →
  Refine.from_email m = from_email r → Refine.subject m = subject r →
  Refine.msg_id m ∈ target_msg_ids →
  messages_lookup_of all_msgs !! Refine.msg_id m = Some m →
  uid_of resp_line = Some uid_val →
  let found :=
    subject_match
      (target_keys_of target_msg_ids (messages_lookup_of all_msgs))
      (Tuple resp_line (Some msg)) in
  (is_Some (h_subject msg) → found = Some uid_val)
  ∧ (h_subject msg = None →
     Refine.subject m = "(no subject)"
     ∧ ((∀ m', m' ∈ all_msgs →
               Refine._normalise_subject (Refine.subject m') ≠ "") →
        found = None)).
Proof.
  intros Hr Hfrom Hsubject Htarget Hlookup Huid found.
  simpl in Hr. injection Hr as <-. simpl in Hfrom, Hsubject.
  split.
  - intros [subj Hsubj]. apply subject_match_spec. split; [done|].
    exists (Refine.msg_id m), m.
    destruct (proj1 (messages_lookup_spec all_msgs) _ _ Hlookup) as [Hin _].
    split_and!; [done..|]. unfold key_of.
    by rewrite Hfrom, Hsubject, Hsubj.
  - intros Hnone. rewrite Hnone in Hsubject. split; [done|].
    intros Hsubjects.
    destruct found as [uid|] eqn:Hfound; [|done]. exfalso.
    apply subject_match_spec in Hfound
      as (_ & mid & m' & _ & _ & Hin & _ & Hkey).
    unfold key_of in Hkey. rewrite Hnone in Hkey.
    injection Hkey as _ Hkey. apply lower_empty in Hkey.
    by apply (Hsubjects m' Hin).
Qed.

Lemma stored_message_is_found_witness :
  let line := "1 (FLAGS () BODY[HEADER.FIELDS (FROM SUBJECT DATE)] {80}" in
  let m :=
    Refine.Message "1" "deals@shop.example.com" "Deals" "50% off today"
      "Mon, 2 Nov 2026 10:00:00 +0000" (Some "archive") None in
  let shown := "1 (UID 101 BODY[HEADER.FIELDS (FROM SUBJECT)] {60}" in
  ∃ r,
    parse_item (λ _, None) (Tuple line (Some Mailbox.deals)) = Some r
    ∧ Refine.from_email m = from_email r ∧ Refine.subject m = subject r
    ∧ Refine.msg_id m ∈ ({[ "1" ]} : gset string)
    ∧ messages_lookup_of [m] !! Refine.msg_id m = Some m
    ∧ uid_of shown = Some "101"
    ∧ is_Some (h_subject Mailbox.deals)
    ∧ subject_match (target_keys_of {[ "1" ]} (messages_lookup_of [m]))
        (Tuple shown (Some Mailbox.deals)) = Some "101".
Proof.
  cbv zeta. eexists. split; [reflexivity|].
  split; [reflexivity|]. split; [reflexivity|].
  assert (Hin : "1" ∈ ({[ "1" ]} : gset string)) by (by apply elem_of_singleton).
  split; [exact Hin|]. split; [reflexivity|]. split; [reflexivity|].
  split; [by eexists|].
  eapply (stored_message_is_found (λ _, None)
            "1 (FLAGS () BODY[HEADER.FIELDS (FROM SUBJECT DATE)] {80}"
            Mailbox.deals _
            (Refine.Message "1" "deals@shop.example.com" "Deals"
               "50% off today" "Mon, 2 Nov 2026 10:00:00 +0000"
               (Some "archive") None));
    [reflexivity|reflexivity|reflexivity|exact Hin|reflexivity|reflexivity
    |by eexists].
Defined.

(** *** The keeper of a burst *)

Lemma dropped_is_targeted parse_datetime messages now g x :
  g ∈ Refine.dedup_groups (Refine.phase2_analyse parse_datetime messages now) →
  x ∈ Refine.archive_msg_ids g →
  x ∈ Refine.archive_ids (Refine.phase2_analyse parse_datetime messages now).
Proof.
  intros Hg Hx. unfold Refine.phase2_analyse in *. simpl in *.
  apply elem_of_union. right. apply Refine.elem_of_dedup_ids. by exists g.
Qed.

(** X15: the analysis keeps the newest message of a burst, but the archive
    of phase 2 finds messages by sender and subject: when the kept message
    has the sender and the normalised subject of a dropped message of its
    burst, letter case apart, the scan matches the kept message too, and
    its UID is among those the archive flags. *)
Theorem burst_keeper_is_matched (parse_datetime : string → option Z)
    (messages : list Refine.message) (now : Z) (g : Refine.burst_group)
    (kept dropped : Refine.message) (msg : headers)
    (resp_line uid_val : string) :
  let a := Refine.phase2_analyse parse_datetime messages now in
  let messages_lookup := messages_lookup_of messages in
  g ∈ Refine.dedup_groups a →
  Refine.msg_id kept = Refine.keep_msg_id g →
  Refine.msg_id dropped ∈ Refine.archive_msg_ids g →
  messages_lookup !! Refine.msg_id dropped = Some dropped →
  key_of (Refine.from_email kept) (Refine.subject kept)
  = key_of (Refine.from_email dropped) (Refine.subject dropped) →
  get_sender_email (default "" (h_from msg)) = Refine.from_email kept →
  h_subject msg = Some (Refine.subject kept) →
  uid_of resp_line = Some uid_val →
  subject_match (target_keys_of (Refine.archive_ids a) messages_lookup)
    (Tuple resp_line (Some msg)) = Some uid_val.
Proof.
  intros a messages_lookup Hg Hkept Hdropped Hlookup Hkey Hfrom Hsubject Huid.
  apply subject_match_spec. split; [done|].
  exists (Refine.msg_id dropped), dropped.
  destruct (proj1 (messages_lookup_spec messages) _ _ Hlookup) as [Hin _].
  split_and!; [by eapply dropped_is_targeted|done|done|done|].
  by rewrite Hfrom, Hsubject, <-Hkey.
Qed.

(** The six reports of one morning: the sixth is kept by the analysis, and
    matched by the scan. *)
Lemma burst_keeper_is_matched_witness :
  let a := Refine.phase2_analyse Refine.hours Refine.six_reports (3 * Refine.HOUR) in
  let kept := Refine.report_mail "6" "2" in
  let dropped := Refine.report_mail "2" "0" in
  let msg :=
    Headers (Some "Reports <reports@example.org>") (Some "Daily report ready")
      (Some "2") in
  let shown := "6 (UID 206 BODY[HEADER.FIELDS (FROM SUBJECT)] {60}" in
  ∃ g,
    g ∈ Refine.dedup_groups a
    ∧ Refine.msg_id kept = Refine.keep_msg_id g
    ∧ Refine.msg_id kept ∈ Refine.keep_ids a
    ∧ Refine.msg_id dropped ∈ Refine.archive_msg_ids g
    ∧ subject_match
        (target_keys_of (Refine.archive_ids a)
           (messages_lookup_of Refine.six_reports))
        (Tuple shown (Some msg)) = Some "206".
Proof.
  cbv zeta.
  exists (Refine.Group "reports@example.org|daily report ready"
            "reports@example.org" "daily report ready" 6 "6"
            ["2"; "4"; "1"; "5"; "3"]).
  assert (Hg : Refine.Group "reports@example.org|daily report ready"
                 "reports@example.org" "daily report ready" 6 "6"
                 ["2"; "4"; "1"; "5"; "3"]
               ∈ Refine.dedup_groups
                   (Refine.phase2_analyse Refine.hours Refine.six_reports
                      (3 * Refine.HOUR))).
  { apply (bool_decide_unpack _). vm_compute. exact I. }
  assert (Hdropped : "2" ∈ ["2"; "4"; "1"; "5"; "3"]) by (by left).
  split; [exact Hg|]. split; [reflexivity|].
  split; [apply (bool_decide_unpack _); vm_compute; exact I|].
  split; [exact Hdropped|].
  apply (burst_keeper_is_matched Refine.hours Refine.six_reports
           (3 * Refine.HOUR) _ (Refine.report_mail "6" "2")
           (Refine.report_mail "2" "0") _ _ "206" Hg);
    [reflexivity|exact Hdropped|by vm_compute|reflexivity|reflexivity
    |reflexivity|reflexivity].
Defined.

End Resolution.

(** ** Grouping by key and sorting by count

    The pipeline groups in a dictionary of lists whose keys stay in the
    order of their first insertion ([defaultdict(list)], or a plain
    dictionary tested with [in]), and sorts with [sorted], which is
    stable. *)
Module Grouping.

Section Groups.

Context {K A : Type} `{EqDecision K}.

(** [groups[k].append(a)] *)
Fixpoint add_to (k : K) (a : A) (groups : list (K * list A))
    : list (K * list A) :=
  match groups with
  | [] => [(k, [a])]
  | (k', l) :: rest =>
      if decide (k' = k) then (k', l ++ [a]) :: rest
      else (k', l) :: add_to k a rest
  end.

(** [for a in l: groups[key(a)].append(a)] *)
Definition group_by (key : A → K) (l : list A) : list (K * list A) :=
  foldl (λ groups a, add_to (key a) a groups) [] l.

Lemma add_to_keys k a groups :
  (add_to k a groups).*1
  = if decide (k ∈ groups.*1) then groups.*1 else groups.*1 ++ [k].
Proof.
  induction groups as [|[k' l] groups IH]; [done|].
  cbn [add_to]. rewrite (fmap_cons fst (k', l) groups). cbn [fst].
  destruct (decide (k' = k)) as [->|Hne].
  - rewrite fmap_cons. cbn [fst]. rewrite decide_True; [done|]. by left.
  - rewrite fmap_cons, IH. cbn [fst].
    destruct (decide (k ∈ groups.*1)) as [Hin|Hout].
    + rewrite decide_True; [done|]. by right.
    + rewrite decide_False; [done|].
      intros [?|?]%elem_of_cons; [by apply Hne|done].
Qed.

Lemma add_to_NoDup k a groups :
  NoDup groups.*1 → NoDup (add_to k a groups).*1.
Proof.
  intros Hnodup. rewrite add_to_keys. case_decide; [done|].
  apply NoDup_app. split; [done|]. split; [|apply NoDup_singleton].
  by intros x Hx ->%list_elem_of_singleton.
Qed.

Lemma elem_of_add_to k a groups k' l' :
  NoDup groups.*1 →
  (k', l') ∈ add_to k a groups
  ↔ (k' ≠ k ∧ (k', l') ∈ groups)
    ∨ (k' = k ∧ ((∃ l, (k, l) ∈ groups ∧ l' = l ++ [a])
                 ∨ ((k ∉ groups.*1) ∧ l' = [a]))).
Proof.
  induction groups as [|[k0 l0] groups IH]; simpl.
  - intros _. rewrite list_elem_of_singleton. split.
    + intros [= -> ->]. right. split; [done|]. right.
      split; [apply not_elem_of_nil|done].
    + intros [[_ []%elem_of_nil]|[-> [(l & []%elem_of_nil & _)|[_ ->]]]].
      done.
  - intros [Hfresh Hnodup]%NoDup_cons. specialize (IH Hnodup).
    assert (Hkey : ∀ l, (k0, l) ∈ groups → False).
    { intros l Hin. apply Hfresh, list_elem_of_fmap. by exists (k0, l). }
    destruct (decide (k0 = k)) as [->|Hne].
    + rewrite !elem_of_cons. split.
      * intros [[= -> ->]|Hin].
        -- right. split; [done|]. left. exists l0. split; [by left|done].
        -- destruct (decide (k' = k)) as [->|Hk]; [by destruct (Hkey l')|].
           left. split; [done|by right].
      * intros [[Hk [Heq|Hin]]
               |[Hk [(l & [Heq|Hin]%elem_of_cons & Hl)|[Hout _]]]].
        -- injection Heq as ? ?. done.
        -- by right.
        -- injection Heq as ->. subst. by left.
        -- by destruct (Hkey l).
        -- destruct Hout. by left.
    + rewrite !elem_of_cons, IH. split.
      * intros [[= -> ->]|[[Hk Hin]|[-> Hcase]]].
        -- left. split; [by intros ->|by left].
        -- left. split; [done|by right].
        -- right. split; [done|].
           destruct Hcase as [(l & Hin & ->)|[Hout ->]].
           ++ left. exists l. split; [by right|done].
           ++ right. split; [|done].
              intros [?|?]; [congruence|done].
      * intros [[Hk [[= -> ->]|Hin]]|[-> Hcase]].
        -- by left.
        -- right. left. done.
        -- right. right. split; [done|].
           destruct Hcase as [(l & [[= ? ?]|Hin]%elem_of_cons & ->)|[Hout ->]].
           ++ done.
           ++ left. by exists l.
           ++ right. split; [|done]. intros Hin. apply Hout. by right.
Qed.

Lemma group_by_snoc key l a :
  group_by key (l ++ [a]) = add_to (key a) a (group_by key l).
Proof. unfold group_by. by rewrite foldl_app. Qed.

(** The groups of a list: the keys are distinct, and the group of a key
    holds the elements with that key, in the order of the list. *)
Lemma group_by_spec key l :
  NoDup (group_by key l).*1
  ∧ ∀ k group, (k, group) ∈ group_by key l
               ↔ group = filter (λ a, key a = k) l ∧ group ≠ [].
Proof.
  induction l as [|a l [IHnodup IH]] using rev_ind.
  - split; [apply NoDup_nil_2|]. intros k group. split.
    + by intros ?%elem_of_nil.
    + by intros [-> ?].
  - rewrite group_by_snoc. split; [by apply add_to_NoDup|].
    intros k group. rewrite elem_of_add_to by done. rewrite filter_app.
    rewrite filter_cons, filter_nil. split.
    + intros [[Hk Hin]|[-> Hcase]].
      * apply IH in Hin as [-> Hne]. rewrite decide_False by done.
        by rewrite app_nil_r.
      * rewrite decide_True by done.
        destruct Hcase as [(old & Hin & ->)|[Hout ->]].
        -- apply IH in Hin as [-> _]. split; [done|]. by destruct (filter _ l).
        -- split; [|done].
           destruct (filter (λ a0, key a0 = key a) l) as [|x xs] eqn:Hf;
             [done|].
           destruct Hout. apply list_elem_of_fmap.
           exists (key a, x :: xs). split; [done|]. apply IH.
           by rewrite Hf.
    + intros [-> Hne]. destruct (decide (key a = k)) as [<-|Hk].
      * right. split; [done|].
        destruct (filter (λ a0, key a0 = key a) l) as [|x xs] eqn:Hf.
        -- right. split; [|done].
           intros ([k' group] & Hk' & Hin)%list_elem_of_fmap.
           simpl in Hk'. subst k'. apply IH in Hin as [-> Hgroup].
           by rewrite Hf in Hgroup.
        -- left. exists (x :: xs). split; [|done]. apply IH.
           by rewrite Hf.
      * left. split; [done|]. rewrite app_nil_r in Hne |- *. by apply IH.
Qed.

(** Every element is in one group. *)
Lemma add_to_concat k a groups :
  concat (add_to k a groups).*2 ≡ₚ concat groups.*2 ++ [a].
Proof.
  induction groups as [|[k' l] groups IH]; simpl; [done|].
  destruct (decide (k' = k)); simpl.
  - rewrite <-!(assoc_L (++)). apply Permutation_app_head, Permutation_app_comm.
  - by rewrite IH, (assoc_L (++)).
Qed.

Lemma group_by_concat key l : concat (group_by key l).*2 ≡ₚ l.
Proof.
  induction l as [|a l IH] using rev_ind; [done|].
  by rewrite group_by_snoc, add_to_concat, IH.
Qed.

End Groups.

(** *** Sorting by a count, largest first *)

Section Sorting.

Context {A : Type}.
Variable count : A → nat.

(** [sorted(l, key=count, reverse=True)], and [sorted(l, key=-count)]: a
    stable sort, elements with equal counts keep their order. *)
Fixpoint insert_desc (x : A) (l : list A) : list A :=
  match l with
  | [] => [x]
  | y :: r =>
      if (count y <=? count x)%nat then x :: l else y :: insert_desc x r
  end.

Definition sort_desc (l : list A) : list A := foldr insert_desc [] l.

Lemma insert_desc_perm x l : insert_desc x l ≡ₚ x :: l.
Proof.
  induction l as [|y r IH]; simpl; [done|].
  destruct (count y <=? count x)%nat; [done|]. rewrite IH. apply perm_swap.
Qed.

Lemma sort_desc_perm l : sort_desc l ≡ₚ l.
Proof.
  induction l as [|x l IH]; simpl; [done|]. by rewrite insert_desc_perm, IH.
Qed.

Definition descending (x y : A) : Prop := (count y ≤ count x)%nat.

Lemma insert_desc_sorted x l :
  StronglySorted descending l → StronglySorted descending (insert_desc x l).
Proof.
  induction l as [|y r IH]; simpl; intros Hsorted.
  - by repeat constructor.
  - apply StronglySorted_inv in Hsorted as [Hr Hy].
    destruct (count y <=? count x)%nat eqn:Hle.
    + apply Nat.leb_le in Hle. constructor; [by constructor|].
      constructor; [done|]. eapply Forall_impl; [exact Hy|].
      intros z Hz. unfold descending in *. lia.
    + apply Nat.leb_gt in Hle. constructor; [by apply IH|].
      rewrite insert_desc_perm. constructor; [|done].
      unfold descending. lia.
Qed.

Lemma sort_desc_sorted l : StronglySorted descending (sort_desc l).
Proof.
  induction l as [|x l IH]; simpl; [constructor|].
  by apply insert_desc_sorted.
Qed.

(** Stability: the elements with a given count come in the order they had
    in the list. *)
Lemma insert_desc_filter n x l :
  StronglySorted descending l →
  filter (λ y, count y = n) (insert_desc x l)
  = filter (λ y, count y = n) (x :: l).
Proof.
  induction l as [|y r IH]; simpl; intros Hsorted; [done|].
  apply StronglySorted_inv in Hsorted as [Hr Hy].
  destruct (count y <=? count x)%nat eqn:Hle; [done|].
  apply Nat.leb_gt in Hle. rewrite (filter_cons _ y), IH by done.
  rewrite !filter_cons.
  destruct (decide (count x = n)) as [Hx|Hx];
    destruct (decide (count y = n)) as [Hy'|Hy']; try done.
  lia.
Qed.

Lemma sort_desc_stable n l :
  filter (λ y, count y = n) (sort_desc l) = filter (λ y, count y = n) l.
Proof.
  induction l as [|x l IH]; simpl; [done|].
  rewrite insert_desc_filter by apply sort_desc_sorted.
  by rewrite !filter_cons, IH.
Qed.

End Sorting.

End Grouping.

(** ** More on the refinement engine: thresholds, exemptions and counts *)
Module DecayFacts.
Import PyStr Refine.

Section Engine.

Variable parse_datetime : string → option Z.

Lemma DAY_pos : 0 < DAY.
Proof. reflexivity. Qed.

(** [(now - dt).days] is the number of whole days from [dt] to [now]. *)
Lemma _days_old_floor date_str now days :
  _days_old parse_datetime date_str now = Some days →
  ∃ t, _parse_date parse_datetime date_str = Some t
       ∧ days * DAY ≤ now - t < (days + 1) * DAY.
Proof.
  unfold _days_old.
  destruct (_parse_date parse_datetime date_str) as [t|]; [|done].
  simpl. intros [= <-]. exists t. split; [done|].
  pose proof DAY_pos as Hday.
  pose proof (Z.mul_div_le (now - t) DAY Hday).
  pose proof (Z.mul_succ_div_gt (now - t) DAY Hday). lia.
Qed.

Lemma eligible_days_old now m days :
  eligible parse_datetime now m = Some days →
  (default "" (category m) ∉ KEEP_CATEGORIES)
  ∧ _is_financial m = false
  ∧ _days_old parse_datetime (date m) now = Some days.
Proof.
  unfold eligible. case_decide; [done|].
  destruct (_days_old parse_datetime (date m) now) as [d|]; [|done]. simpl.
  destruct (_is_financial m); [done|]. by intros [= <-].
Qed.

(** What the branch taken tells about the age. *)
Definition threshold (k : bucket_name) : Z :=
  match k with
  | Notifications => 7
  | Receipts => 90
  | Security => 30
  | Newsletters => 14
  end.

Lemma chosen_threshold m days k :
  chosen m days = Some k → threshold k < days.
Proof.
  unfold chosen.
  destruct (_is_notification_like m && (7 <? days)) eqn:H1.
  { intros [= <-]. apply andb_prop in H1 as [_ H1]. simpl. lia. }
  destruct (_is_receipt_like m && (90 <? days) && negb (_is_financial m))
    eqn:H2.
  { intros [= <-]. apply andb_prop in H2 as [H2 _].
    apply andb_prop in H2 as [_ H2]. simpl. lia. }
  destruct (_is_security_alert m && (30 <? days)) eqn:H3.
  { intros [= <-]. apply andb_prop in H3 as [_ H3]. simpl. lia. }
  destruct (_is_newsletter_like m && (14 <? days)) eqn:H4; [|done].
  intros [= <-]. apply andb_prop in H4 as [_ H4]. simpl. lia.
Qed.

Lemma bucket_threshold now l k :
  Forall (λ r, threshold k < days_old r) (refs_for parse_datetime now (in_bucket k) l).
Proof.
  apply Forall_forall. intros r.
  intros (m & days & _ & _ & Hsel & ->)%elem_of_refs_for.
  apply bool_decide_eq_true in Hsel. simpl. by apply (chosen_threshold m).
Qed.

Lemma refs_for_cons now sel m l :
  refs_for parse_datetime now sel (m :: l)
  = match eligible parse_datetime now m with
    | Some days => if sel m days then [make_ref m days] else []
    | None => []
    end ++ refs_for parse_datetime now sel l.
Proof.
  unfold refs_for. simpl. destruct (eligible parse_datetime now m) as [days|]; simpl; [|done].
  by destruct (sel m days).
Qed.

(** The [if / elif] chain puts a message in one bucket at most. *)
Lemma one_bucket_each now l :
  (length (refs_for parse_datetime now (in_bucket Notifications) l)
   + length (refs_for parse_datetime now (in_bucket Receipts) l)
   + length (refs_for parse_datetime now (in_bucket Security) l)
   + length (refs_for parse_datetime now (in_bucket Newsletters) l)
   ≤ length l)%nat.
Proof.
  induction l as [|m l IH]; [done|]. rewrite !refs_for_cons, !length_app.
  destruct (eligible parse_datetime now m) as [days|]; [|simpl; lia].
  revert IH.
  generalize (length (refs_for parse_datetime now (in_bucket Notifications) l)),
    (length (refs_for parse_datetime now (in_bucket Receipts) l)),
    (length (refs_for parse_datetime now (in_bucket Security) l)),
    (length (refs_for parse_datetime now (in_bucket Newsletters) l)).
  intros n1 n2 n3 n4 IH. unfold in_bucket.
  destruct (chosen m days) as [[]|]; repeat case_bool_decide;
    simplify_eq; simpl; lia.
Qed.

(** X16: in the report of [phase2_analyse], every entry of a decay bucket
    is older than the bucket says (more than 7, 90, 30, 14 and 365 days);
    a message has an entry in at most one of the four archive buckets; and
    the age of an entry is the number of whole days since the date of its
    message, so that [over 7 days] takes eight full days. *)
Theorem decay_buckets_respect_thresholds (messages : list message) (now : Z) :
  let b := time_decay (phase2_analyse parse_datetime messages now) in
  let remaining := filter (λ m, ¬ is_archive m) messages in
  (Forall (λ r, 7 < days_old r) (notifications_over_7d b)
   ∧ Forall (λ r, 90 < days_old r) (receipts_over_90d b)
   ∧ Forall (λ r, 30 < days_old r) (security_over_30d b)
   ∧ Forall (λ r, 14 < days_old r) (newsletters_over_14d b)
   ∧ Forall (λ r, 365 < days_old r) (older_than_12mo b))
  ∧ (length (notifications_over_7d b) + length (receipts_over_90d b)
     + length (security_over_30d b) + length (newsletters_over_14d b)
     ≤ length remaining)%nat
  ∧ (∀ r, r ∈ entries b →
          ∃ m t, m ∈ remaining ∧ r = make_ref m (days_old r)
                 ∧ _parse_date parse_datetime (date m) = Some t
                 ∧ days_old r * DAY ≤ now - t < (days_old r + 1) * DAY).
Proof.
  intros b remaining.
  assert (Hb : b = buckets_for parse_datetime now remaining).
  { unfold b, phase2_analyse. simpl. apply time_decay_of_spec. }
  rewrite Hb. unfold buckets_for. cbn [notifications_over_7d
    receipts_over_90d security_over_30d newsletters_over_14d older_than_12mo].
  split; [|split].
  - split_and!;
      [apply (bucket_threshold now remaining Notifications)
      |apply (bucket_threshold now remaining Receipts)
      |apply (bucket_threshold now remaining Security)
      |apply (bucket_threshold now remaining Newsletters)|].
    apply Forall_forall. intros r.
    intros (m & days & _ & _ & Hsel & ->)%elem_of_refs_for.
    unfold in_review in Hsel. simpl. lia.
  - apply one_bucket_each.
  - intros r (m & days & Hm & Hage & ->)%entries_eligible.
    apply eligible_days_old in Hage as (_ & _ & Hdays).
    destruct (_days_old_floor _ _ _ Hdays) as (t & Ht & Hfloor).
    by exists m, t.
Qed.

Lemma buckets_app_nil_l b : buckets_app no_decay b = b.
Proof. by destruct b. Qed.

(** A message that leaves no entry. *)
Lemma buckets_for_without now l1 m l2 :
  buckets_for parse_datetime now [m] = no_decay →
  buckets_for parse_datetime now (l1 ++ m :: l2)
  = buckets_for parse_datetime now (l1 ++ l2).
Proof.
  intros Hm. change (m :: l2) with ([m] ++ l2).
  by rewrite !buckets_for_app, Hm, buckets_app_nil_l.
Qed.

Lemma chosen_young m days : days ≤ 7 → chosen m days = None.
Proof.
  intros Hdays. unfold chosen.
  replace (7 <? days) with false by (symmetry; apply Z.ltb_ge; lia).
  replace (90 <? days) with false by (symmetry; apply Z.ltb_ge; lia).
  replace (30 <? days) with false by (symmetry; apply Z.ltb_ge; lia).
  replace (14 <? days) with false by (symmetry; apply Z.ltb_ge; lia).
  by rewrite !andb_false_r.
Qed.

Lemma buckets_for_exempt now m :
  (eligible parse_datetime now m = None
   ∨ ∃ days, eligible parse_datetime now m = Some days ∧ days ≤ 7) →
  buckets_for parse_datetime now [m] = no_decay.
Proof.
  intros Hm. unfold buckets_for, refs_for. simpl.
  destruct Hm as [->|(days & -> & Hdays)]; [done|]. simpl.
  unfold in_bucket, in_review. rewrite chosen_young by done.
  replace (365 <? days) with false by (symmetry; apply Z.ltb_ge; lia).
  done.
Qed.

(** X17: a message classified [urgent] or [action_needed], a message whose
    date is empty or does not parse, and a message dated less than eight
    full days before the analysis (or after it) leave no entry in any
    bucket, the review bucket included: the buckets are those of the input
    without the message. *)
Theorem exempt_from_time_decay (before after : list message) (m : message)
    (now : Z) :
  (default "" (category m) ∈ KEEP_CATEGORIES
   ∨ _parse_date parse_datetime (date m) = None
   ∨ ∃ t, _parse_date parse_datetime (date m) = Some t ∧ now - t < 8 * DAY) →
  time_decay (phase2_analyse parse_datetime (before ++ m :: after) now)
  = time_decay (phase2_analyse parse_datetime (before ++ after) now).
Proof.
  intros Hm. unfold phase2_analyse; simpl.
  rewrite !time_decay_of_spec, !remaining_app, filter_cons.
  destruct (decide (¬ is_archive m)); [|done].
  apply buckets_for_without, buckets_for_exempt.
  unfold eligible, _days_old.
  destruct Hm as [Hkeep|[Hdate|(t & Hdate & Hyoung)]].
  - left. by rewrite decide_True.
  - left. case_decide; [done|]. by rewrite Hdate.
  - case_decide; [by left|]. rewrite Hdate. simpl.
    destruct (_is_financial m); [by left|]. right.
    exists ((now - t) / DAY). split; [done|].
    pose proof DAY_pos.
    assert ((now - t) / DAY < 8); [|lia].
    apply Z.div_lt_upper_bound; lia.
Qed.

(** *** The groups of senders, and the members of a burst *)

Lemma group_add_add_to m groups :
  group_add m groups = Grouping.add_to (from_email m) m groups.
Proof.
  induction groups as [|[s msgs] groups IH]; [done|]. simpl.
  by rewrite IH.
Qed.

Lemma sender_groups_group_by remaining :
  sender_groups_of remaining = Grouping.group_by from_email remaining.
Proof.
  unfold sender_groups_of, Grouping.group_by.
  generalize (@nil (string * list message)).
  induction remaining as [|m remaining IH]; intros groups; [done|].
  simpl. by rewrite group_add_add_to, IH.
Qed.

Lemma sender_group_spec remaining s msgs :
  (s, msgs) ∈ sender_groups_of remaining
  ↔ msgs = filter (λ m, from_email m = s) remaining ∧ msgs ≠ [].
Proof. rewrite sender_groups_group_by. apply Grouping.group_by_spec. Qed.

(** What a reported group is made of. *)
Lemma group_members messages now g :
  let remaining := filter (λ m, ¬ is_archive m) messages in
  g ∈ dedup_groups (phase2_analyse parse_datetime messages now) →
  (5 ≤ total_in_burst g)%nat
  ∧ total_in_burst g = S (length (archive_msg_ids g))
  ∧ (5 ≤ length (filter (λ m, from_email m = sender g) remaining))%nat
  ∧ ∀ x, x ∈ archive_msg_ids g ++ [keep_msg_id g] →
         ∃ m, m ∈ remaining ∧ from_email m = sender g ∧ msg_id m = x
              ∧ is_Some (_parse_date parse_datetime (date m)).
Proof.
  intros remaining Hg. unfold phase2_analyse in Hg. simpl in Hg.
  fold remaining in Hg. unfold dedup_groups_of in Hg.
  destruct (dedup_fold_spec parse_datetime (sender_groups_of remaining) [])
    as (new & Hnew & _ & Hfrom & _).
  rewrite Hnew, app_nil_l in Hg.
  destruct (Hfrom g Hg)
    as (s & first & rest & (msgs & pre & Hmsgs & Hfive & Hsort & Hfull)
        & Hmake).
  apply make_group_ids in Hmake
    as (Hids & Htotal & Hlen & Hsender & _ & _).
  apply sender_group_spec in Hmsgs as [Hmsgs _].
  assert (Hburst : length (burst_of first rest)
                   = length (first :: burst_tail first rest)).
  { unfold burst_of. by rewrite sort_by_date_perm. }
  unfold full in Hfull.
  split; [lia|]. split; [lia|]. rewrite Hsender.
  split; [by rewrite <-Hmsgs|].
  intros x Hx. rewrite <-Hids in Hx.
  apply list_elem_of_fmap in Hx as (d & -> & Hd).
  unfold burst_of in Hd. rewrite sort_by_date_perm in Hd.
  assert (Hin : d ∈ sort_by_date (dated_of parse_datetime msgs)).
  { rewrite Hsort. apply elem_of_app. right.
    apply elem_of_cons in Hd as [->|Hd]; [by left|]. right.
    by eapply elem_of_sublist, burst_tail_sublist. }
  rewrite sort_by_date_perm in Hin.
  apply elem_of_dated_of in Hin as [Hin Hdate].
  rewrite Hmsgs in Hin. apply list_elem_of_filter in Hin as [Hfrom' Hin].
  exists d.1. split_and!; [done|done|done|by eexists].
Qed.

(** X18: every burst group of the report belongs to a sender with at
    least five analysed messages; it counts at least five members, one kept
    and the others archived; and each of its ids is the id of an analysed
    message of that sender whose date parses. *)
Theorem burst_groups_are_made_of_messages (messages : list message)
    (now : Z) :
  let a := phase2_analyse parse_datetime messages now in
  let remaining := filter (λ m, ¬ is_archive m) messages in
  Forall
    (λ g,
       (5 ≤ total_in_burst g)%nat
       ∧ total_in_burst g = S (length (archive_msg_ids g))
       ∧ (5 ≤ length (filter (λ m, from_email m = sender g) remaining))%nat
       ∧ ∀ x, x ∈ archive_msg_ids g ++ [keep_msg_id g] →
              ∃ m, m ∈ remaining ∧ from_email m = sender g ∧ msg_id m = x
                   ∧ is_Some (_parse_date parse_datetime (date m)))
    (dedup_groups a).
Proof.
  intros a remaining. apply Forall_forall. intros g Hg.
  exact (group_members messages now g Hg).
Qed.

(** *** The counts of the summary *)

Lemma difference_sub (X Y : gset string) : Y ∖ X ⊆ Y.
Proof. by intros x [? _]%elem_of_difference. Qed.

Lemma size_union_le (X Y : gset string) :
  (size (X ∪ Y) ≤ size X + size Y)%nat.
Proof.
  rewrite size_union_alt.
  pose proof (subseteq_size (Y ∖ X) Y (difference_sub X Y)). lia.
Qed.

Lemma size_list_to_set_le (l : list string) :
  (size (list_to_set (C := gset string) l) ≤ length l)%nat.
Proof.
  induction l as [|x l IH].
  - by rewrite list_to_set_nil, size_empty.
  - rewrite list_to_set_cons. etrans; [apply size_union_le|].
    rewrite size_singleton. simpl. lia.
Qed.

(** X19: the summary of the report is consistent.  Every archived id and
    every kept id is the id of a message of the input; no id is both; the
    two counts add up to the number of distinct ids, which is at most the
    number of messages; and the archive count is at most the sum of the
    three counts it is made of. *)
Theorem summary_counts_add_up (messages : list message) (now : Z) :
  let a := phase2_analyse parse_datetime messages now in
  archive_ids a ⊆ ids_of messages
  ∧ archive_ids a ## keep_ids a
  ∧ archive_ids a ∪ keep_ids a = ids_of messages
  ∧ (size (archive_ids a) + size (keep_ids a) = size (ids_of messages))%nat
  ∧ (size (ids_of messages) ≤ total_remaining a)%nat
  ∧ (size (archive_ids a)
     ≤ already_classified_archive a + time_decay_archive a + dedup_archive a)%nat.
Proof.
  intros a.
  assert (Hsub : archive_ids a ⊆ ids_of messages).
  { intros x. unfold a, phase2_analyse. simpl.
    rewrite !elem_of_union. intros [[Hx|Hx]|Hx].
    - apply elem_of_ids_of in Hx as (m & Hm & <-).
      apply list_elem_of_filter in Hm as [_ Hm].
      apply elem_of_ids_of. by exists m.
    - rewrite time_decay_of_spec in Hx.
      apply elem_of_td_ids in Hx as (m & days & k & Hm & _ & _ & <-).
      apply list_elem_of_filter in Hm as [_ Hm].
      apply elem_of_ids_of. by exists m.
    - apply elem_of_dedup_ids in Hx as (g & Hg & Hx).
      destruct (group_members messages now g Hg) as (_ & _ & _ & Hmembers).
      destruct (Hmembers x) as (m & Hm & _ & <- & _).
      { apply elem_of_app. by left. }
      apply list_elem_of_filter in Hm as [_ Hm].
      apply elem_of_ids_of. by exists m. }
  assert (Hkeep : keep_ids a = ids_of messages ∖ archive_ids a) by done.
  split; [done|]. split.
  { intros x Hx Hk. rewrite Hkeep in Hk.
    by apply elem_of_difference in Hk as [_ ?]. }
  split.
  { rewrite Hkeep. apply set_eq. intros x.
    rewrite elem_of_union, elem_of_difference.
    split; [intros [?%Hsub|[? _]]; done|].
    intros Hx. destruct (decide (x ∈ archive_ids a)); [by left|by right]. }
  split.
  { rewrite Hkeep, size_difference by done.
    pose proof (subseteq_size _ _ Hsub). lia. }
  split.
  { unfold a, phase2_analyse, ids_of. simpl.
    etrans; [apply size_list_to_set_le|]. by rewrite length_fmap. }
  unfold a, phase2_analyse. simpl.
  etrans; [apply size_union_le|]. apply Nat.add_le_mono_r.
  etrans; [apply size_union_le|]. apply Nat.add_le_mono_r.
  etrans; [apply size_list_to_set_le|]. by rewrite length_fmap.
Qed.

End Engine.

Lemma exempt_from_time_decay_witness :
  let urgent := old_mail "8" (Some "urgent") in
  default "" (category urgent) ∈ KEEP_CATEGORIES
  ∧ _days_old hours (date urgent) (1000 * DAY) = Some 1000
  ∧ time_decay (phase2_analyse hours (morning_burst ++ urgent :: [])
                  (1000 * DAY))
    = time_decay (phase2_analyse hours (morning_burst ++ []) (1000 * DAY)).
Proof.
  cbv zeta.
  assert (Hkeep : default "" (category (old_mail "8" (Some "urgent")))
                  ∈ KEEP_CATEGORIES).
  { apply (bool_decide_unpack _). vm_compute. exact I. }
  split; [exact Hkeep|]. split; [reflexivity|].
  apply (exempt_from_time_decay hours morning_burst []
           (old_mail "8" (Some "urgent")) (1000 * DAY)).
  by left.
Defined.

End DecayFacts.
